(** * MusicFun tutorial: the authenticated request layer

    A shallow embedding of the TypeScript snippets that the lessons
    "Error Handling", "Optimistic update" and "Auth" build up:
    the type guards and [handleErrors] of [common/utils], the
    [prepareHeaders] callback of [baseQuery.ts], the mutex-guarded
    [baseQueryWithReauth], the [logout] mutation and the optimistic
    [updatePlaylist] mutation; and of the helpers of the lessons around
    them: [getPaginationPages] and [Pagination], [useGlobalLoading], the
    cover upload handlers, the offset pagination of [fetchTracks], the
    login popup with the [login] mutation, and the socket module with the
    two streaming recipes.

    JavaScript strings are modelled by [string]; a character stands for
    one UTF-16 code unit below 256, so [String.length] is [str.length]. *)

From Stdlib Require Import ZArith Ascii String Bool Lia.
From stdpp Require Import base option list gmap strings pretty.

Set Warnings "-register-all".
Open Scope string_scope.
Open Scope Z_scope.

(** ** JavaScript values that come out of [JSON.parse] *)

Module JS.

(** A parsed JSON value.  A number carries its canonical decimal
    rendering (what both [String(n)] and [JSON.stringify(n)] print);
    the snippets never compute with a number found in a payload.  An
    object keeps its properties in insertion order. *)
Inductive json : Type :=
| JNull
| JBool (b : bool)
| JNum (repr : string)
| JStr (s : string)
| JArr (items : list json)
| JObj (props : list (string * json)).

(** Own-property lookup on a property list. *)
Fixpoint get_prop (key : string) (props : list (string * json)) : option json :=
  match props with
  | [] => None
  | (k, v) :: rest => if String.eqb k key then Some v else get_prop key rest
  end.

(** [key in value], for a value whose [typeof] is ["object"] and which is
    not [null].  The keys asked for ("errors", "message", "accessToken"...)
    are neither array indices nor inherited from a prototype. *)
Definition has_prop (key : string) (v : json) : bool :=
  match v with
  | JObj props => bool_decide (is_Some (get_prop key props))
  | _ => false
  end.

(** [typeof v === "object" && v !== null]: objects and arrays. *)
Definition is_object (v : json) : bool :=
  match v with
  | JArr _ | JObj _ => true
  | _ => false
  end.

(** Truthiness: [null], [false], [0] and the empty string are falsy. *)
Definition truthy (v : json) : bool :=
  match v with
  | JNull => false
  | JBool b => b
  | JNum repr => negb (String.eqb repr "0")
  | JStr s => negb (String.eqb s EmptyString)
  | JArr _ | JObj _ => true
  end.

Definition str_truthy (s : string) : bool := negb (String.eqb s EmptyString).

(** [Array.prototype.join] over already rendered items. *)
Fixpoint join (sep : string) (parts : list string) : string :=
  match parts with
  | [] => EmptyString
  | [p] => p
  | p :: rest => p +:+ sep +:+ join sep rest
  end.

(** [String(v)], the coercion [localStorage.setItem] applies to its value.
    Inside an array [null] renders as the empty string. *)
Fixpoint ToString (v : json) : string :=
  match v with
  | JNull => "null"
  | JBool true => "true"
  | JBool false => "false"
  | JNum repr => repr
  | JStr s => s
  | JArr items =>
      join "," (map (fun item => match item with JNull => EmptyString | _ => ToString item end) items)
  | JObj _ => "[object Object]"
  end.

Definition hex_digit (n : nat) : ascii :=
  match n with
  | 0 => "0" | 1 => "1" | 2 => "2" | 3 => "3" | 4 => "4" | 5 => "5" | 6 => "6"
  | 7 => "7" | 8 => "8" | 9 => "9" | 10 => "a" | 11 => "b" | 12 => "c"
  | 13 => "d" | 14 => "e" | _ => "f"
  end%char%nat.

(** One code unit inside [QuoteJSONString]. *)
Definition quote_char (c : ascii) : string :=
  let n := nat_of_ascii c in
  if (n =? 34)%nat then String "\" (String (ascii_of_nat 34) EmptyString)
  else if (n =? 92)%nat then "\\"
  else if (n =? 8)%nat then "\b"
  else if (n =? 9)%nat then "\t"
  else if (n =? 10)%nat then "\n"
  else if (n =? 12)%nat then "\f"
  else if (n =? 13)%nat then "\r"
  else if (n <? 32)%nat then
    "\u00" +:+ String (hex_digit (n / 16)) (String (hex_digit (n mod 16)) EmptyString)
  else String c EmptyString.

Fixpoint quote_body (s : string) : string :=
  match s with
  | EmptyString => EmptyString
  | String c rest => quote_char c +:+ quote_body rest
  end.

Definition quote (s : string) : string :=
  String (ascii_of_nat 34) (quote_body s +:+ String (ascii_of_nat 34) EmptyString).

(** [JSON.stringify(v)] without indentation. *)
Fixpoint JSON_stringify (v : json) : string :=
  match v with
  | JNull => "null"
  | JBool true => "true"
  | JBool false => "false"
  | JNum repr => repr
  | JStr s => quote s
  | JArr items => "[" +:+ join "," (map JSON_stringify items) +:+ "]"
  | JObj props =>
      "{" +:+ join "," (map (fun kv => quote (fst kv) +:+ ":" +:+ JSON_stringify (snd kv)) props)
          +:+ "}"
  end.

(** [str.slice(start, end)]: a negative index counts from the end, and
    both are clamped to the string. *)
Definition slice (str : string) (start end_ : Z) : string :=
  let len := Z.of_nat (String.length str) in
  let from := if start <? 0 then Z.max (len + start) 0 else Z.min start len in
  let to := if end_ <? 0 then Z.max (len + end_) 0 else Z.min end_ len in
  substring (Z.to_nat from) (Z.to_nat (Z.max (to - from) 0)) str.

(** [str.includes(search)]. *)
Definition includes (str search : string) : bool :=
  bool_decide (is_Some (index 0 search str)).

End JS.
Export JS.

(** ** [common/utils]: type guards, [trimToMaxLength], [errorToast] *)

(** A call either completes normally or throws; the exceptions the
    snippets can raise are the [TypeError] of reading a property of [null]
    and the [TypeError] of [Headers] for a value that is no header value. *)
Inductive completion (A : Type) : Type :=
| Normal (value : A)
| TypeError.
Arguments Normal {A} value.
Arguments TypeError {A}.

(** [error.status] of RTK Query's [FetchBaseQueryError]. *)
Inductive Status : Type :=
| Http (code : Z)
| FETCH_ERROR
| PARSING_ERROR
| TIMEOUT_ERROR
| CUSTOM_ERROR.

(** [FetchBaseQueryError]: an HTTP status with the parsed body, or one of
    the four string statuses, each with its [error] text. *)
Inductive FetchBaseQueryError : Type :=
| HttpError (code : Z) (body : json)
| FetchError (text : string)
| ParsingError (originalStatus : Z) (raw : string) (text : string)
| TimeoutError (text : string)
| CustomError (payload : option json) (text : string).

Definition status (error : FetchBaseQueryError) : Status :=
  match error with
  | HttpError code _ => Http code
  | FetchError _ => FETCH_ERROR
  | ParsingError _ _ _ => PARSING_ERROR
  | TimeoutError _ => TIMEOUT_ERROR
  | CustomError _ _ => CUSTOM_ERROR
  end.

(** [error.data]; the unparsed text of a [PARSING_ERROR] is a string value,
    and a missing field reads as [null] wherever the handler prints it. *)
Definition data (error : FetchBaseQueryError) : json :=
  match error with
  | HttpError _ body => body
  | ParsingError _ raw _ => JStr raw
  | CustomError (Some payload) _ => payload
  | _ => JNull
  end.

(** [error.error], present on the four string statuses. *)
Definition error_text (error : FetchBaseQueryError) : string :=
  match error with
  | HttpError _ _ => EmptyString
  | FetchError text | ParsingError _ _ text | TimeoutError text | CustomError _ text => text
  end.

(** What the user sees ([toast]) and what only the console gets. *)
Inductive effect : Type :=
| Toast (message : string)
| ConsoleError (message : string) (error : FetchBaseQueryError).

Definition toasts (effects : list effect) : list string :=
  omap (fun e => match e with Toast m => Some m | ConsoleError _ _ => None end) effects.

(** The messages a handler call puts in front of the user. *)
Definition user_sees (handled : completion (list effect)) : list string :=
  match handled with
  | Normal effects => toasts effects
  | TypeError => []
  end.

Module Utils.

(** [value.key] on an arbitrary value: [null] throws, a primitive or an
    array has no such property. *)
Definition read_prop (key : string) (value : json) : completion (option json) :=
  match value with
  | JNull => TypeError
  | JObj props => Normal (get_prop key props)
  | _ => Normal None
  end.

(** [typeof v === "string"], on the result of a property read. *)
Definition is_string (v : option json) : bool :=
  match v with
  | Some (JStr _) => true
  | _ => false
  end.

(** The value of a string of decimal digits. *)
Fixpoint digits_value (digits : string) (acc : N) : option N :=
  match digits with
  | EmptyString => Some acc
  | String c rest =>
      let d := N_of_ascii c in
      if ((48 <=? d) && (d <=? 57))%N then digits_value rest (acc * 10 + (d - 48))%N
      else None
  end.

(** The array index a property name stands for: a canonical decimal
    numeral (no sign, no leading zero) below [2^32 - 1]. *)
Definition array_index (property : string) : option nat :=
  match property with
  | EmptyString => None
  | _ =>
      match digits_value property 0 with
      | Some n =>
          if String.eqb (pretty n) property && (n <? 2 ^ 32 - 1)%N
          then Some (N.to_nat n) else None
      | None => None
      end
  end.

(** [error[property]] on an object or an array: an own property, or the
    element at an index.  What the prototypes add ([length], the methods)
    is never a string. *)
Definition own_property (property : string) (error : json) : option json :=
  match error with
  | JObj props => get_prop property props
  | JArr items =>
      match array_index property with
      | Some i => items !! i
      | None => None
      end
  | _ => None
  end.

(** [isErrorWithProperty.ts] *)
Definition isErrorWithProperty (error : json) (property : string) : bool :=
  is_object error && is_string (own_property property error).

(** [error[property]] once the guard has narrowed [error]. *)
Definition property_text (error : json) (property : string) : string :=
  match own_property property error with
  | Some (JStr s) => s
  | _ => EmptyString
  end.

(** [isErrorWithDetailArray.ts]: the last conjunct reads [.detail] of
    [errors[0]] without looking at what [errors[0]] is. *)
Definition isErrorWithDetailArray (error : json) : completion bool :=
  match error with
  | JObj props =>
      match get_prop "errors" props with
      | Some (JArr (first :: _)) =>
          match read_prop "detail" first with
          | Normal detail => Normal (is_string detail)
          | TypeError => TypeError
          end
      | _ => Normal false
      end
  | _ => Normal false
  end.

(** [error.errors[0].detail] once the guard has narrowed [error]. *)
Definition first_detail (error : json) : string :=
  match error with
  | JObj props =>
      match get_prop "errors" props with
      | Some (JArr (JObj item :: _)) =>
          match get_prop "detail" item with Some (JStr s) => s | _ => EmptyString end
      | _ => EmptyString
      end
  | _ => EmptyString
  end.

(** [trimToMaxLength.ts]; the callers rely on the default [maxLength = 100]. *)
Definition trimToMaxLength_with (str : string) (maxLength : Z) : string :=
  if Z.of_nat (String.length str) >? maxLength
  then slice str 0 (maxLength - 3) +:+ "..."
  else str.

Definition trimToMaxLength (str : string) : string := trimToMaxLength_with str 100.

Definition newline : string := String (ascii_of_nat 10) EmptyString.

(** [errorToast.ts]: the toast, and a console line when an error is passed. *)
Definition errorToast (message : string) (error : option FetchBaseQueryError) : list effect :=
  Toast message ::
  match error with
  | Some e => [ConsoleError (message +:+ newline) e]
  | None => []
  end.

(** [isTokens.ts] *)
Definition isTokens (data : json) : bool :=
  is_object data && has_prop "accessToken" data && has_prop "refreshToken" data.

End Utils.
Export Utils.

(** ** Lesson "Error Handling": [handleErrors.ts] *)

Module ErrorHandling.

(** The arms of [switch (error.status)]; the [default] arm is split by its
    own test [error.status >= 500 && error.status < 600]. *)
Inductive arm : Type :=
| ArmStringStatus
| Arm400_403
| Arm404
| Arm401_429
| ArmDefaultServer
| ArmDefaultOther.

Definition switch_status (s : Status) : arm :=
  match s with
  | FETCH_ERROR | PARSING_ERROR | CUSTOM_ERROR | TIMEOUT_ERROR => ArmStringStatus
  | Http code =>
      if (code =? 400) || (code =? 403) then Arm400_403
      else if code =? 404 then Arm404
      else if (code =? 401) || (code =? 429) then Arm401_429
      else if (code >=? 500) && (code <? 600) then ArmDefaultServer
      else ArmDefaultOther
  end.

Definition server_error_message : string := "Server error occurred. Please try again later.".
Definition some_error_message : string := "Some error occurred".

Definition handleErrors (error : FetchBaseQueryError) : completion (list effect) :=
  match switch_status (status error) with
  | ArmStringStatus => Normal (errorToast (error_text error) None)
  | Arm400_403 =>
      match isErrorWithDetailArray (data error) with
      | Normal true => Normal (errorToast (trimToMaxLength (first_detail (data error))) None)
      | Normal false => Normal (errorToast (JSON_stringify (data error)) None)
      | TypeError => TypeError
      end
  | Arm404 =>
      if isErrorWithProperty (data error) "error"
      then Normal (errorToast (property_text (data error) "error") None)
      else Normal (errorToast (JSON_stringify (data error)) None)
  | Arm401_429 =>
      if isErrorWithProperty (data error) "message"
      then Normal (errorToast (property_text (data error) "message") None)
      else Normal (errorToast (JSON_stringify (data error)) None)
  | ArmDefaultServer => Normal (errorToast server_error_message (Some error))
  | ArmDefaultOther => Normal (errorToast some_error_message None)
  end.

End ErrorHandling.

(** ** Lesson "Auth": token storage, [baseQuery], [baseQueryWithReauth] *)

Module Auth.

(** [localStorage]: string keys, string values. *)
Abbreviation Storage := (gmap string string).

Definition getItem (key : string) (storage : Storage) : option string := storage !! key.
Definition setItem (key value : string) (storage : Storage) : Storage := <[key := value]> storage.
Definition removeItem (key : string) (storage : Storage) : Storage := delete key storage.

(** [common/constants/constants.ts] *)
Module AUTH_KEYS.
Definition accessToken : string := "musicfun-access-token".
Definition refreshToken : string := "musicfun-refresh-token".
End AUTH_KEYS.

(** [import.meta.env] *)
Record ImportMetaEnv : Type := {
  VITE_BASE_URL : string;
  VITE_API_KEY : string
}.

Abbreviation Headers := (gmap string string).

(** The [Headers] class of the Fetch standard, which [fetchBaseQuery]
    hands to [prepareHeaders].  A value is normalized on the way in: the
    HTTP whitespace (tab, line feed, carriage return, space) at its two
    ends is removed. *)
Definition is_http_whitespace (c : ascii) : bool :=
  let n := nat_of_ascii c in
  ((n =? 9) || (n =? 10) || (n =? 13) || (n =? 32))%nat.

Fixpoint strip_leading (value : string) : string :=
  match value with
  | String c rest => if is_http_whitespace c then strip_leading rest else value
  | EmptyString => EmptyString
  end.

Fixpoint strip_trailing (value : string) : string :=
  match value with
  | String c rest =>
      match strip_trailing rest with
      | EmptyString => if is_http_whitespace c then EmptyString else String c EmptyString
      | kept => String c kept
      end
  | EmptyString => EmptyString
  end.

Definition normalize (value : string) : string := strip_trailing (strip_leading value).

(** A normalized value is a header value when it holds no NUL, line feed
    or carriage return. *)
Fixpoint is_header_value (value : string) : bool :=
  match value with
  | String c rest =>
      let n := nat_of_ascii c in
      negb ((n =? 0) || (n =? 10) || (n =? 13))%nat && is_header_value rest
  | EmptyString => true
  end.

(** [headers.set(name, value)], and the entry [new Headers({ name: value })]
    starts from: the value is normalized, and one that is then no header
    value makes the call throw a [TypeError].  The two names used,
    ["API-KEY"] and ["Authorization"], are header names. *)
Definition Headers_set (name value : string) (headers : Headers) : completion Headers :=
  let value := normalize value in
  if is_header_value value then Normal (<[name := value]> headers) else TypeError.

(** [FetchArgs], with the fields the endpoints of the lessons fill in; the
    [url] and the [method] are such as [new Request] accepts. *)
Record FetchArgs : Type := {
  url : string;
  method : string;
  body : option json;
  params : option json
}.

(** What [fetchBaseQuery] puts on the wire for one call: the base address,
    the arguments of the call, and the headers as [prepareHeaders] returns
    them. *)
Record Request : Type := {
  req_base : string;
  req_args : FetchArgs;
  req_headers : Headers
}.

(** [baseQuery.ts]: the [prepareHeaders] callback. *)
Definition prepareHeaders (storage : Storage) (headers : Headers) : completion Headers :=
  match getItem AUTH_KEYS.accessToken storage with
  | Some accessToken =>
      if str_truthy accessToken
      then Headers_set "Authorization" ("Bearer " +:+ accessToken) headers
      else Normal headers
  | None => Normal headers
  end.

(** [baseQuery.ts]: the headers of a request, [new Headers(...)] of the
    configured [headers] passed through [prepareHeaders]. *)
Definition baseQuery_headers (env : ImportMetaEnv) (storage : Storage) : completion Headers :=
  match Headers_set "API-KEY" (VITE_API_KEY env) ∅ with
  | Normal headers => prepareHeaders storage headers
  | TypeError => TypeError
  end.

(** [baseQuery.ts]: the request [fetchBaseQuery] builds from its
    configuration.  A [TypeError] thrown while the headers are put together
    rejects the promise of [baseQuery(...)] before anything is sent. *)
Definition baseQuery_request (env : ImportMetaEnv) (storage : Storage) (args : FetchArgs)
    : completion Request :=
  match baseQuery_headers env storage with
  | Normal headers =>
      Normal {| req_base := VITE_BASE_URL env; req_args := args; req_headers := headers |}
  | TypeError => TypeError
  end.

(** [{ data } | { error }], what [await baseQuery(...)] yields. *)
Inductive QueryResult : Type :=
| DataResult (d : json)
| ErrorResult (e : FetchBaseQueryError).

(** [handleErrors.ts] after this lesson: [case 401] is removed and
    [case 400] drops the messages that mention the refresh token.  The
    lesson shows only the new [case 400]; [case 403] keeps the body it
    shared with it. *)
Inductive arm : Type :=
| ArmStringStatus
| Arm400
| Arm403
| Arm404
| Arm429
| ArmDefaultServer
| ArmDefaultOther.

Definition switch_status (s : Status) : arm :=
  match s with
  | FETCH_ERROR | PARSING_ERROR | CUSTOM_ERROR | TIMEOUT_ERROR => ArmStringStatus
  | Http code =>
      if code =? 400 then Arm400
      else if code =? 403 then Arm403
      else if code =? 404 then Arm404
      else if code =? 429 then Arm429
      else if (code >=? 500) && (code <? 600) then ArmDefaultServer
      else ArmDefaultOther
  end.

Definition handleErrors (error : FetchBaseQueryError) : completion (list effect) :=
  match switch_status (status error) with
  | ArmStringStatus => Normal (errorToast (error_text error) None)
  | Arm400 =>
      match isErrorWithDetailArray (data error) with
      | Normal true =>
          let errorMessage := first_detail (data error) in
          if includes errorMessage "refreshToken" then Normal []
          else Normal (errorToast (trimToMaxLength errorMessage) None)
      | Normal false => Normal (errorToast (JSON_stringify (data error)) None)
      | TypeError => TypeError
      end
  | Arm403 =>
      match isErrorWithDetailArray (data error) with
      | Normal true => Normal (errorToast (trimToMaxLength (first_detail (data error))) None)
      | Normal false => Normal (errorToast (JSON_stringify (data error)) None)
      | TypeError => TypeError
      end
  | Arm404 =>
      if isErrorWithProperty (data error) "error"
      then Normal (errorToast (property_text (data error) "error") None)
      else Normal (errorToast (JSON_stringify (data error)) None)
  | Arm429 =>
      if isErrorWithProperty (data error) "message"
      then Normal (errorToast (property_text (data error) "message") None)
      else Normal (errorToast (JSON_stringify (data error)) None)
  | ArmDefaultServer =>
      Normal (errorToast ErrorHandling.server_error_message (Some error))
  | ArmDefaultOther => Normal (errorToast ErrorHandling.some_error_message None)
  end.

(** [result.error && result.error.status === 401] *)
Definition is_401 (result : QueryResult) : bool :=
  match result with
  | ErrorResult e => match status e with Http code => code =? 401 | _ => false end
  | DataResult _ => false
  end.

(** The body of the refresh call: [{ refreshToken }], where the variable
    holds what [localStorage.getItem] returned. *)
Definition refresh_args (storage : Storage) : FetchArgs :=
  {| url := "/auth/refresh";
     method := "post";
     body := Some (JObj [("refreshToken",
                          match getItem AUTH_KEYS.refreshToken storage with
                          | Some token => JStr token
                          | None => JNull
                          end)]);
     params := None |}.

(** [refreshResult.data && isTokens(refreshResult.data)]; an error result
    has no [data]. *)
Definition refresh_succeeded (refreshResult : QueryResult) : bool :=
  match refreshResult with
  | DataResult d => truthy d && isTokens d
  | ErrorResult _ => false
  end.

(** [refreshResult.data], read after the test above has passed. *)
Definition result_data (refreshResult : QueryResult) : json :=
  match refreshResult with
  | DataResult d => d
  | ErrorResult _ => JNull
  end.

(** [refreshResult.data.accessToken] and [.refreshToken], as
    [localStorage.setItem] stores them. *)
Definition token_text (key : string) (d : json) : string :=
  match d with
  | JObj props => match get_prop key props with Some v => ToString v | None => "undefined" end
  | _ => "undefined"
  end.

Definition store_tokens (d : json) (storage : Storage) : Storage :=
  setItem AUTH_KEYS.refreshToken (token_text "refreshToken" d)
    (setItem AUTH_KEYS.accessToken (token_text "accessToken" d) storage).

(** Where one call of [baseQueryWithReauth] stands: at one of its [await]s,
    or returned.  [Acquired] and [Refreshing] keep the local [result], the
    401 that the function returns when the refresh fails. *)
Inductive pc : Type :=
| Start                                  (* about to be called *)
| Unlocked0                              (* first [waitForUnlock()], resolved *)
| Blocked0                               (* first [waitForUnlock()], pending *)
| First                                  (* [await baseQuery(args, ...)] *)
| Acquired (result : QueryResult)        (* [await mutex.acquire()], resolved *)
| Refreshing (result : QueryResult)      (* [await baseQuery({ url: "/auth/refresh", ... })] *)
| RetryLeader                            (* the retry inside [try] *)
| Blocked1                               (* second [waitForUnlock()], pending *)
| Unlocked1                              (* second [waitForUnlock()], resolved *)
| RetryWaiter                            (* the retry of the [else] branch *)
| Throwing (in_try : bool)               (* [await baseQuery(...)] of a rejected promise *)
| Finished (outcome : completion QueryResult).

Record call : Type := {
  args : FetchArgs;
  at_ : pc
}.

(** Actions handed to [api.dispatch]. *)
Inductive action : Type :=
| LogoutInitiate.

(** The page: storage, the one module-level mutex, the calls in flight,
    and what has been observed so far: the requests sent ([wire]), the
    responses delivered ([heard]), the actions dispatched, the effects
    shown.  [released] counts [release()]. *)
Record state : Type := {
  env : ImportMetaEnv;
  storage : Storage;
  locked : bool;
  calls : list call;
  wire : list (nat * Request);
  heard : list (nat * QueryResult);
  dispatched : list action;
  shown : list effect;
  released : nat
}.

Definition set_pc (p : nat) (c : call) (next : pc) (st : state) : state :=
  {| env := env st; storage := storage st; locked := locked st;
     calls := <[p := {| args := args c; at_ := next |}]> (calls st);
     wire := wire st; heard := heard st; dispatched := dispatched st; shown := shown st;
     released := released st |}.

(** The request of call [p] goes out. *)
Definition send (p : nat) (request : Request) (st : state) : state :=
  {| env := env st; storage := storage st; locked := locked st; calls := calls st;
     wire := wire st ++ [(p, request)]; heard := heard st;
     dispatched := dispatched st; shown := shown st; released := released st |}.

(** The response [r] is delivered to call [p]. *)
Definition hear (p : nat) (r : QueryResult) (st : state) : state :=
  {| env := env st; storage := storage st; locked := locked st; calls := calls st;
     wire := wire st; heard := heard st ++ [(p, r)];
     dispatched := dispatched st; shown := shown st; released := released st |}.

(** [await baseQuery(a, api, extraOptions)] in call [p]: the request goes
    out and the call awaits the response at [next], or the promise is
    rejected and the [await] is about to throw. *)
Definition call_baseQuery (p : nat) (c : call) (a : FetchArgs) (next : pc) (in_try : bool)
    (st : state) : state :=
  match baseQuery_request (env st) (storage st) a with
  | Normal request => set_pc p c next (send p request st)
  | TypeError => set_pc p c (Throwing in_try) st
  end.

(** Modelled from the spec: the [Mutex] of [async-mutex] is library code
    outside the repository.  Sections 3 and 4.3 of the specification give
    its contract as the refresh state [{ inFlight, waiters }]: taking a
    free mutex sets [inFlight] at once, so the call that finds it free is
    the one leader; [waitForUnlock()] on a taken mutex queues the caller;
    releasing resets the state and resolves every waiter.  Here [locked] is
    [inFlight], and the waiters are the calls at [Blocked0] and [Blocked1].
    [acquire] is [mutex.acquire()] on a free mutex. *)
Definition acquire (st : state) : state :=
  {| env := env st; storage := storage st; locked := true; calls := calls st;
     wire := wire st; heard := heard st; dispatched := dispatched st; shown := shown st;
     released := released st |}.

Definition wake (c : call) : call :=
  match at_ c with
  | Blocked0 => {| args := args c; at_ := Unlocked0 |}
  | Blocked1 => {| args := args c; at_ := Unlocked1 |}
  | _ => c
  end.

(** [release()]: the mutex is free and every pending [waitForUnlock()] resolves. *)
Definition release (st : state) : state :=
  {| env := env st; storage := storage st; locked := false;
     calls := map wake (calls st);
     wire := wire st; heard := heard st; dispatched := dispatched st; shown := shown st;
     released := S (released st) |}.

Definition with_storage (f : Storage -> Storage) (st : state) : state :=
  {| env := env st; storage := f (storage st); locked := locked st; calls := calls st;
     wire := wire st; heard := heard st; dispatched := dispatched st; shown := shown st;
     released := released st |}.

Definition dispatch (a : action) (st : state) : state :=
  {| env := env st; storage := storage st; locked := locked st; calls := calls st;
     wire := wire st; heard := heard st; dispatched := dispatched st ++ [a]; shown := shown st;
     released := released st |}.

Definition display (effects : list effect) (st : state) : state :=
  {| env := env st; storage := storage st; locked := locked st; calls := calls st;
     wire := wire st; heard := heard st; dispatched := dispatched st;
     shown := shown st ++ effects; released := released st |}.

(** The tail of the function: [handleErrors] for an error other than 401,
    then [return result]. *)
Definition finish (p : nat) (c : call) (result : QueryResult) (st : state) : state :=
  match result with
  | ErrorResult e =>
      if is_401 result then set_pc p c (Finished (Normal result)) st
      else match handleErrors e with
           | Normal effects => set_pc p c (Finished (Normal result)) (display effects st)
           | TypeError => set_pc p c (Finished TypeError) st
           end
  | DataResult _ => set_pc p c (Finished (Normal result)) st
  end.

(** What the event loop can do next: run a call whose awaited promise is
    resolved, or deliver the response of a request in flight. *)
Inductive event : Type :=
| Resume (p : nat)
| Response (p : nat) (r : QueryResult).

(** [baseQueryWithReauth.ts]: the function, cut at its [await]s.  [step]
    runs call [p] from the [await] it stands at to the next one, or to its
    [return]; an event that does not match that [await] is not enabled.
    An [await] that throws ends the call with that exception, through
    [finally { release() }] when it stands inside the [try]. *)
Definition step (ev : event) (st : state) : option state :=
  match ev with
  | Resume p =>
      match calls st !! p with
      | Some c =>
          match at_ c with
          | Start => Some (set_pc p c (if locked st then Blocked0 else Unlocked0) st)
          | Unlocked0 => Some (call_baseQuery p c (args c) First false st)
          | Acquired result =>
              Some (call_baseQuery p c (refresh_args (storage st)) (Refreshing result) true st)
          | Unlocked1 => Some (call_baseQuery p c (args c) RetryWaiter false st)
          | Throwing in_try =>
              Some (set_pc p c (Finished TypeError) (if in_try then release st else st))
          | _ => None
          end
      | None => None
      end
  | Response p r =>
      match calls st !! p with
      | Some c =>
          let st0 := hear p r st in
          match at_ c with
          | First =>
              if is_401 r then
                if locked st then Some (set_pc p c Blocked1 st0)
                else Some (set_pc p c (Acquired r) (acquire st0))
              else Some (finish p c r st0)
          | Refreshing result =>
              if refresh_succeeded r then
                let st1 := with_storage (store_tokens (result_data r)) st0 in
                Some (call_baseQuery p c (args c) RetryLeader true st1)
              else Some (finish p c result (release (dispatch LogoutInitiate st0)))
          | RetryLeader => Some (finish p c r (release st0))
          | RetryWaiter => Some (finish p c r st0)
          | _ => None
          end
      | None => None
      end
  end.

Fixpoint run (schedule : list event) (st : state) : option state :=
  match schedule with
  | [] => Some st
  | ev :: rest =>
      match step ev st with
      | Some st' => run rest st'
      | None => None
      end
  end.

(** The page a schedule leaves behind (the page itself if some event of
    the schedule is not enabled). *)
Definition final_state (schedule : list event) (st : state) : state :=
  match run schedule st with
  | Some st' => st'
  | None => st
  end.

(** A page on which the given calls are about to be made. *)
Definition init (e : ImportMetaEnv) (s : Storage) (requests : list FetchArgs) : state :=
  {| env := e; storage := s; locked := false;
     calls := map (fun a => {| args := a; at_ := Start |}) requests;
     wire := []; heard := []; dispatched := []; shown := []; released := 0 |}.

Definition is_finished (c : call) : bool :=
  match at_ c with
  | Finished _ => true
  | _ => false
  end.

Definition all_finished (st : state) : bool := forallb is_finished (calls st).

(** [fetchBaseQuery] joins [baseUrl] and [url] after dropping the leading
    slashes of [url]. *)
Fixpoint withoutLeadingSlash (u : string) : string :=
  match u with
  | String c rest => if Ascii.eqb c "/" then withoutLeadingSlash rest else u
  | EmptyString => u
  end.

Definition targets_refresh (a : FetchArgs) : bool :=
  String.eqb (withoutLeadingSlash (url a)) "auth/refresh".

Definition is_refresh (r : Request) : bool := targets_refresh (req_args r).

(** The calls to the refresh endpoint seen on the wire. *)
Definition refresh_calls (st : state) : list (nat * Request) :=
  filter (fun entry => is_refresh (snd entry) = true) (wire st).

(** The requests that call [p] has put on the wire, oldest first. *)
Definition sent_by (p : nat) (st : state) : list Request :=
  map snd (filter (fun entry => fst entry = p) (wire st)).

(** The responses delivered to call [p], oldest first. *)
Definition heard_by (p : nat) (st : state) : list QueryResult :=
  map snd (filter (fun entry => fst entry = p) (heard st)).

(** The first response of a call arrives "at about the same time" as the
    others: it is a 401 and the mutex has not been released yet; and the
    first request of a call does go out.  Any other event passes. *)
Definition arrives_in_time (ev : event) (st : state) : bool :=
  match calls st !! match ev with Resume p | Response p _ => p end with
  | Some c =>
      match ev, at_ c with
      | Response _ r, First => is_401 r && Nat.eqb (released st) 0
      | Resume _, Unlocked0 =>
          match baseQuery_request (env st) (storage st) (args c) with
          | Normal _ => true
          | TypeError => false
          end
      | _, _ => true
      end
  | None => true
  end.

(** Along the schedule every first request goes out and every first
    response arrives in time. *)
Fixpoint simultaneous_401 (schedule : list event) (st : state) : bool :=
  match schedule with
  | [] => true
  | ev :: rest =>
      arrives_in_time ev st
      && match step ev st with
         | Some st' => simultaneous_401 rest st'
         | None => true
         end
  end.

(** How many more events a call can take part in. *)
Definition fuel (c : call) : nat :=
  match at_ c with
  | Start => 7
  | Blocked0 => 6
  | Unlocked0 => 5
  | First => 4
  | Acquired _ => 3
  | Blocked1 => 3
  | Refreshing _ => 2
  | Unlocked1 => 2
  | RetryLeader => 1
  | RetryWaiter => 1
  | Throwing _ => 1
  | Finished _ => 0
  end%nat.

Definition total_fuel (st : state) : nat := sum_list (map fuel (calls st)).

(** The [logout] mutation of [authApi]. *)
Definition logout_query (s : Storage) : FetchArgs :=
  {| url := "auth/logout";
     method := "post";
     body := Some (JObj [("refreshToken",
                          match getItem AUTH_KEYS.refreshToken s with
                          | Some token => JStr token
                          | None => JNull
                          end)]);
     params := None |}.

(** What [resetApiState] clears: the cached results of the API slice,
    keyed by serialized query. *)
Abbreviation ApiState := (gmap string json).

Record page : Type := {
  page_storage : Storage;
  page_api : ApiState
}.

(** [queryFulfilled] resolves when the request returned data and rejects otherwise. *)
Definition queryFulfilled (outcome : completion QueryResult) : bool :=
  match outcome with
  | Normal (DataResult _) => true
  | _ => false
  end.

(** [logout.onQueryStarted]: everything after [await queryFulfilled] runs
    only when that promise resolves. *)
Definition logout_onQueryStarted (outcome : completion QueryResult) (pg : page) : page :=
  if queryFulfilled outcome then
    {| page_storage :=
         removeItem AUTH_KEYS.refreshToken (removeItem AUTH_KEYS.accessToken (page_storage pg));
       page_api := ∅ |}
  else pg.

End Auth.

(** ** Lesson "Optimistic update": [updatePlaylist.onQueryStarted] *)

Module Optimistic.

Inductive SortBy : Type := addedAt | likesCount.
Inductive SortDirection : Type := asc | desc.

(** [FetchPlaylistsArgs]: every field is optional. *)
Record FetchPlaylistsArgs : Type := {
  pageNumber : option Z;
  pageSize : option Z;
  search : option string;
  sortBy : option SortBy;
  sortDirection : option SortDirection;
  tagsIds : option (list string);
  userId : option string;
  trackId : option string
}.

#[export] Instance SortBy_eq_dec : EqDecision SortBy.
Proof. solve_decision. Defined.
#[export] Instance SortDirection_eq_dec : EqDecision SortDirection.
Proof. solve_decision. Defined.
#[export] Instance FetchPlaylistsArgs_eq_dec : EqDecision FetchPlaylistsArgs.
Proof. solve_decision. Defined.

#[export] Instance SortBy_countable : Countable SortBy.
Proof.
  refine (inj_countable' (fun x => match x with addedAt => false | likesCount => true end)
            (fun b : bool => if b then likesCount else addedAt) _).
  intros []; reflexivity.
Defined.
#[export] Instance SortDirection_countable : Countable SortDirection.
Proof.
  refine (inj_countable' (fun x => match x with asc => false | desc => true end)
            (fun b : bool => if b then desc else asc) _).
  intros []; reflexivity.
Defined.
#[export] Instance FetchPlaylistsArgs_countable : Countable FetchPlaylistsArgs.
Proof.
  refine (inj_countable'
    (fun a => (pageNumber a, pageSize a, search a, sortBy a, sortDirection a,
               tagsIds a, userId a, trackId a))
    (fun t => let '(n, sz, se, sb, sd, tg, us, tr) := t in
              {| pageNumber := n; pageSize := sz; search := se; sortBy := sb;
                 sortDirection := sd; tagsIds := tg; userId := us; trackId := tr |}) _).
  intros []; reflexivity.
Defined.

(** A playlist as the cache holds it; [attributes] is kept as a property
    list because the recipe spreads the mutation body into it. *)
Record PlaylistData : Type := {
  id : string;
  type_ : string;
  attributes : list (string * json)
}.

Record PlaylistsResponse : Type := {
  data : list PlaylistData;
  meta : json
}.

(** [UpdatePlaylistArgs] *)
Record UpdatePlaylistArgs : Type := {
  title : string;
  description : string;
  tagIds : list string
}.

(** The own properties of the mutation body, in declaration order. *)
Definition body_props (body : UpdatePlaylistArgs) : list (string * json) :=
  [("title", JStr (title body));
   ("description", JStr (description body));
   ("tagIds", JArr (map JStr (tagIds body)))].

(** [target[key] = v] on a property list: overwrite in place or append. *)
Fixpoint set_prop (key : string) (v : json) (props : list (string * json)) : list (string * json) :=
  match props with
  | [] => [(key, v)]
  | (k, x) :: rest =>
      if String.eqb k key then (k, v) :: rest else (k, x) :: set_prop key v rest
  end.

(** [{ ...a, ...b }] *)
Definition spread (a b : list (string * json)) : list (string * json) :=
  fold_left (fun acc kv => set_prop (fst kv) (snd kv) acc) b a.

(** [Array.prototype.findIndex], [-1] when nothing matches. *)
Fixpoint findIndex {A : Type} (pred : A -> bool) (l : list A) : Z :=
  match l with
  | [] => -1
  | x :: rest =>
      if pred x then 0
      else let i := findIndex pred rest in if i =? -1 then -1 else i + 1
  end.

(** The [updateRecipe] callback of [updatePlaylist]. *)
Definition updateRecipe (playlistId : string) (body : UpdatePlaylistArgs)
    (state : PlaylistsResponse) : PlaylistsResponse :=
  let index := findIndex (fun playlist => String.eqb (id playlist) playlistId) (data state) in
  if negb (index =? -1) then
    {| data :=
         alter (fun playlist =>
                  {| id := id playlist; type_ := type_ playlist;
                     attributes := spread (attributes playlist) (body_props body) |})
               (Z.to_nat index) (data state);
       meta := meta state |}
  else state.

(** The cached results of [fetchPlaylists], one per query argument. *)
Abbreviation Cache := (gmap FetchPlaylistsArgs PlaylistsResponse).

(** Modelled from the spec: RTK Query's [updateQueryData] and
    [patchResult.undo] are library code outside the repository.  Section 4.5
    of the specification gives their contract: [patch] applies the recipe to
    the entry's data and returns a token holding the pre-patch snapshot;
    [undo] restores the snapshot captured at patch time.  A key without a
    cached entry yields a patch that was not applied. *)
Record PatchResult : Type := {
  key : FetchPlaylistsArgs;
  previousSnapshot : option PlaylistsResponse
}.

Definition applied (patchResult : PatchResult) : bool :=
  bool_decide (is_Some (previousSnapshot patchResult)).

Definition updateQueryData (arg : FetchPlaylistsArgs)
    (recipe : PlaylistsResponse -> PlaylistsResponse) (cache : Cache) : Cache * PatchResult :=
  match cache !! arg with
  | Some snapshot =>
      (<[arg := recipe snapshot]> cache, {| key := arg; previousSnapshot := Some snapshot |})
  | None => (cache, {| key := arg; previousSnapshot := None |})
  end.

Definition undo (patchResult : PatchResult) (cache : Cache) : Cache :=
  match previousSnapshot patchResult with
  | Some snapshot => <[key patchResult := snapshot]> cache
  | None => cache
  end.

(** [selectCachedArgsForQuery(getState(), "fetchPlaylists")] *)
Definition selectCachedArgsForQuery (cache : Cache) : list FetchPlaylistsArgs :=
  (map_to_list cache).*1.

(** First version of [onQueryStarted]: one fixed query argument. *)
Definition first_page : FetchPlaylistsArgs :=
  {| pageNumber := Some 1; pageSize := Some 2; search := Some EmptyString;
     sortBy := None; sortDirection := None; tagsIds := None; userId := None;
     trackId := None |}.

Definition onQueryStarted_first_page (playlistId : string) (body : UpdatePlaylistArgs)
    (queryFulfilled : bool) (cache : Cache) : Cache :=
  let '(cache1, patchResult) := updateQueryData first_page (updateRecipe playlistId body) cache in
  if queryFulfilled then cache1 else undo patchResult cache1.

(** The argument the second version hands to [updateQueryData]:
    [{ pageNumber: arg.pageNumber, pageSize: arg.pageSize, search: arg.search }]. *)
Definition patch_arg (arg : FetchPlaylistsArgs) : FetchPlaylistsArgs :=
  {| pageNumber := pageNumber arg; pageSize := pageSize arg; search := search arg;
     sortBy := None; sortDirection := None; tagsIds := None; userId := None;
     trackId := None |}.

(** [args.forEach(arg => patchResults.push(dispatch(updateQueryData(...))))] *)
Fixpoint patch_all (playlistId : string) (body : UpdatePlaylistArgs)
    (args : list FetchPlaylistsArgs) (cache : Cache) : Cache * list PatchResult :=
  match args with
  | [] => (cache, [])
  | arg :: rest =>
      let '(cache1, patchResult) :=
        updateQueryData (patch_arg arg) (updateRecipe playlistId body) cache in
      let '(cache2, patchResults) := patch_all playlistId body rest cache1 in
      (cache2, patchResult :: patchResults)
  end.

(** [patchResults.forEach(patchResult => patchResult.undo())] *)
Definition undo_all (patchResults : list PatchResult) (cache : Cache) : Cache :=
  fold_left (fun c patchResult => undo patchResult c) patchResults cache.

(** Second version of [onQueryStarted]: every cached query argument. *)
Definition onQueryStarted (playlistId : string) (body : UpdatePlaylistArgs)
    (queryFulfilled : bool) (cache : Cache) : Cache :=
  let args := selectCachedArgsForQuery cache in
  let '(cache1, patchResults) := patch_all playlistId body args cache in
  if queryFulfilled then cache1 else undo_all patchResults cache1.

End Optimistic.

(** ** Lesson "Error Handling": the first type guard *)

Module TypeGuards.

(** [isErrorWithMessage.ts], the guard that [isErrorWithProperty] later
    generalises: [typeof error === "object" && error != null], then
    ["message" in error], then [typeof error.message === "string"]. *)
Definition isErrorWithMessage (error : json) : bool :=
  is_object error
  && has_prop "message" error
  && match error with
     | JObj props => is_string (get_prop "message" props)
     | _ => false
     end.

End TypeGuards.

(** ** JavaScript numbers that hold integers *)

Module Number.

(** The snippets count pages and playlists, so a [Z] stands for the
    number of that value.  A number is an IEEE 754 double: up to [2^53]
    every integer is one, beyond that only those with 53 significant bits
    are, and an operation yields the double nearest to the exact result,
    the one with the even mantissa in a tie.  (An overflow to [Infinity]
    needs a result of [2^1024], which adding or subtracting 1 never
    reaches from a double.) *)
Definition MAX_SAFE_INTEGER : Z := 2 ^ 53 - 1.

(** [Number.isSafeInteger] *)
Definition isSafeInteger (n : Z) : bool :=
  (- MAX_SAFE_INTEGER <=? n) && (n <=? MAX_SAFE_INTEGER).

(** The double nearest to an integer. *)
Definition round (n : Z) : Z :=
  let a := Z.abs n in
  if a <=? 2 ^ 53 then n
  else
    let ulp := 2 ^ (Z.log2 a - 52) in
    let q := a / ulp in
    let r := a mod ulp in
    let m := if (ulp <? 2 * r) || ((ulp =? 2 * r) && Z.odd q) then q + 1 else q in
    Z.sgn n * (m * ulp).

(** [a + b] and [a - b] *)
Definition add (a b : Z) : Z := round (a + b).
Definition sub (a b : Z) : Z := round (a - b).

(** The double nearest to the quotient of two positive integers, as a
    mantissa of 53 bits (or [2^53], when rounding carries) and the
    exponent of its last bit: [a * 2^T / b] has more than 53 bits, and
    the bits after the first 53 decide the rounding. *)
Definition nearest (a b : Z) : Z * Z :=
  let T := Z.log2 b + 53 in
  let shift := Z.log2 (a * 2 ^ T / b) - 52 in
  let den := b * 2 ^ shift in
  let q := a * 2 ^ T / den in
  let r := (a * 2 ^ T) mod den in
  let m := if (den <? 2 * r) || ((den =? 2 * r) && Z.odd q) then q + 1 else q in
  (m, shift - T).

(** [Math.ceil] and [Math.floor] of such a double. *)
Definition ceil_of (x : Z * Z) : Z :=
  if 0 <=? snd x then fst x * 2 ^ snd x else - (- fst x / 2 ^ (- snd x)).

Definition floor_of (x : Z * Z) : Z :=
  if 0 <=? snd x then fst x * 2 ^ snd x else fst x / 2 ^ (- snd x).

(** [Math.ceil(a / b)] for a positive divisor: the division rounds, then
    [Math.ceil] takes the integer. *)
Definition ceil_div (a : Z) (b : positive) : Z :=
  match a with
  | 0 => 0
  | Z.pos _ => ceil_of (nearest a (Z.pos b))
  | Z.neg _ => - floor_of (nearest (- a) (Z.pos b))
  end.

End Number.

(** ** Lesson "Searching and Pagination": [getPaginationPages], [Pagination] *)

Module Pagination.

(** An entry of the page list: a page number or the ["..."] marker. *)
Inductive PageItem : Type :=
| Page (n : Z)
| Ellipsis.

Definition SIBLING_COUNT : Z := 1.

(** [for (let page = ...; page <= to; page++) pages.push(page)], with the
    number of rounds it may take: [None] when they do not suffice. *)
Fixpoint push_range (rounds : nat) (page to : Z) (pages : list PageItem)
    : option (list PageItem) :=
  if page <=? to then
    match rounds with
    | O => None
    | S rounds' => push_range rounds' (Number.add page 1) to (pages ++ [Page page])%list
    end
  else Some pages.

(** [getPaginationPages.ts]; [None] when the loop has not finished within
    [rounds] rounds. *)
Definition getPaginationPages (rounds : nat) (currentPage pagesCount : Z)
    : option (list PageItem) :=
  if pagesCount <=? 1 then Some []
  else
    let leftSibling := Z.max 2 (Number.sub currentPage SIBLING_COUNT) in
    let rightSibling :=
      Z.min (Number.sub pagesCount 1) (Number.add currentPage SIBLING_COUNT) in
    let pages := [Page 1] in
    let pages := if leftSibling >? 2 then (pages ++ [Ellipsis])%list else pages in
    match push_range rounds leftSibling rightSibling pages with
    | Some pages =>
        let pages :=
          if rightSibling <? Number.sub pagesCount 1 then (pages ++ [Ellipsis])%list
          else pages in
        let pages := if pagesCount >? 1 then (pages ++ [Page pagesCount])%list else pages in
        Some pages
    | None => None
    end.

(** The page numbers of a page list, in order. *)
Definition page_numbers (pages : list PageItem) : list Z :=
  omap (fun item => match item with Page n => Some n | Ellipsis => None end) pages.

(** What [Pagination.tsx] renders for one entry: the [span] of an
    ellipsis, or a [button] with its page and its [disabled] attribute. *)
Inductive Element : Type :=
| Span
| Button (page : Z) (disabled : bool).

(** What the component returns. *)
Inductive Rendered : Type :=
| Null
| Elements (elements : list Element).

(** [Pagination.tsx]: [null] for a single page, else one element per
    entry; [None] when [getPaginationPages] has not returned. *)
Definition Pagination (rounds : nat) (currentPage pagesCount : Z) : option Rendered :=
  if pagesCount <=? 1 then Some Null
  else
    match getPaginationPages rounds currentPage pagesCount with
    | Some pages =>
        Some (Elements (map (fun page =>
                               match page with
                               | Ellipsis => Span
                               | Page n => Button n (n =? currentPage)
                               end)
                            pages))
    | None => None
    end.

(** The argument a click hands to [setCurrentPage], if it calls it: a
    disabled button does not fire, and the handler is
    [page !== currentPage && setCurrentPage(Number(page))]. *)
Definition onClick (currentPage : Z) (element : Element) : option Z :=
  match element with
  | Span => None
  | Button page disabled =>
      if disabled then None
      else if negb (page =? currentPage) then Some page else None
  end.

End Pagination.

(** ** Lesson "Loaders": [useGlobalLoading] *)

Module Loaders.

(** The [status] of a cached query or mutation. *)
Inductive QueryStatus : Type := uninitialized | pending | fulfilled | rejected.

(** What the selector reads of one cache entry; [endpointName] is an
    optional property. *)
Record Entry : Type := {
  entry_status : QueryStatus;
  endpointName : option string
}.

(** [state.baseApi]: the two maps may be missing, and an entry of a map
    may be [undefined]. *)
Record ApiSlice : Type := {
  queries : option (list (option Entry));
  mutations : option (list (option Entry))
}.

(** [Object.values(map || {})] *)
Definition Object_values (map : option (list (option Entry))) : list (option Entry) :=
  match map with
  | Some entries => entries
  | None => []
  end.

(** [entry?.status === "pending"] *)
Definition is_pending (entry : option Entry) : bool :=
  match entry with
  | Some e => match entry_status e with pending => true | _ => false end
  | None => false
  end.

(** [useGlobalLoading.ts], first version. *)
Definition useGlobalLoading (state : ApiSlice) : bool :=
  let queries := Object_values (queries state) in
  let mutations := Object_values (mutations state) in
  let hasActiveQueries := existsb is_pending queries in
  let hasActiveMutations := existsb is_pending mutations in
  hasActiveQueries || hasActiveMutations.

(** [playlistsApi.endpoints.fetchPlaylists.name] *)
Definition excludedEndpoints : list string := ["fetchPlaylists"].

(** [excludedEndpoints.includes(name)]; [undefined] is not in the list. *)
Definition is_excluded (name : option string) : bool :=
  match name with
  | Some n => existsb (String.eqb n) excludedEndpoints
  | None => false
  end.

(** [entry?.status === "pending" && !excludedEndpoints.includes(entry.endpointName)] *)
Definition is_pending_shown (entry : option Entry) : bool :=
  match entry with
  | Some e =>
      match entry_status e with pending => true | _ => false end
      && negb (is_excluded (endpointName e))
  | None => false
  end.

(** [useGlobalLoading.ts] with the endpoint exceptions. *)
Definition useGlobalLoading_excluding (state : ApiSlice) : bool :=
  let queries := Object_values (queries state) in
  let mutations := Object_values (mutations state) in
  let hasActiveQueries := existsb is_pending_shown queries in
  let hasActiveMutations := existsb is_pending_shown mutations in
  hasActiveQueries || hasActiveMutations.

End Loaders.

(** ** Lesson "Working with Images": [uploadCoverHandler] *)

Module Images.

(** What the handler reads of a [File]. *)
Record File : Type := {
  type_ : string;
  size : Z
}.

Inductive Effect : Type :=
| Alert (message : string)
| UploadCover (playlistId : string) (file : File).

Definition maxSize : Z := 1024 * 1024.

Definition allowedTypes : list string := ["image/jpeg"; "image/png"; "image/gif"].

(** [allowedTypes.includes(file.type)] *)
Definition is_allowed (file : File) : bool :=
  existsb (String.eqb (type_ file)) allowedTypes.

(** [event.target.files?.length && event.target.files[0]]: nothing for a
    missing or empty list. *)
Definition chosen_file (files : option (list File)) : option File :=
  match files with
  | Some (file :: _) => Some file
  | _ => None
  end.

Definition wrong_type_message : string := "Only JPEG, PNG or GIF images are allowed".

(** The template string with [Math.round(maxSize / 1024)]; the division is exact. *)
Definition too_large_message : string :=
  "The file is too large. Max size is " +:+ pretty (maxSize / 1024) +:+ " KB".

Module PlaylistItem.

(** [PlaylistItem.tsx]: each failed check alerts and returns. *)
Definition uploadCoverHandler (playlistId : string) (files : option (list File)) : list Effect :=
  match chosen_file files with
  | None => []
  | Some file =>
      if negb (is_allowed file) then [Alert wrong_type_message]
      else if size file >? maxSize then [Alert too_large_message]
      else [UploadCover playlistId file]
  end.

End PlaylistItem.

Module PlaylistCover.

(** [PlaylistCover.tsx], after the decomposition: the two checks alert
    and fall through to the upload. *)
Definition uploadCoverHandler (playlistId : string) (files : option (list File)) : list Effect :=
  match chosen_file files with
  | None => []
  | Some file =>
      ((if negb (is_allowed file) then [Alert wrong_type_message] else [])
       ++ (if size file >? maxSize then [Alert too_large_message] else [])
       ++ [UploadCover playlistId file])%list
  end.

End PlaylistCover.

End Images.

(** ** Lesson "Infinity Queries": offset pagination of [fetchTracks] *)

Module Tracks.

Definition initialPageParam : Z := 1.

(** [getNextPageParam] of the offset version; [None] is [undefined]. *)
Definition getNextPageParam (pagesCount lastPageParam : Z) : option Z :=
  if lastPageParam <? pagesCount then Some (Number.add lastPageParam 1) else None.

(** The page params requested by the first fetch and [more] calls of
    [loadMoreHandler], every page reporting [pagesCount] pages: the next
    param is the one [getNextPageParam] returns, and [hasNextPage] is false
    once it returns [undefined]. *)
Fixpoint pageParams (more : nat) (pagesCount pageParam : Z) : list Z :=
  pageParam ::
  match more with
  | O => []
  | S rest =>
      match getNextPageParam pagesCount pageParam with
      | Some next => pageParams rest pagesCount next
      | None => []
      end
  end.

End Tracks.

(** ** Lesson "Auth": [Login.tsx] and the [login] mutation *)

Module Login.

(** [LoginArgs]; [code] is whatever the popup posted. *)
Record LoginArgs : Type := {
  code : json;
  redirectUri : string;
  rememberMe : bool
}.

(** [MessageEvent]: the sender's origin and the posted value. *)
Record MessageEvent : Type := {
  origin : string;
  message_data : json
}.

(** The window: the popups opened, the [receiveMessage] closures listening
    for ["message"] (each stands for the [redirectUri] it captured), and
    the calls of [login] made so far. *)
Record Window : Type := {
  popups : list string;
  listeners : list string;
  logins : list LoginArgs
}.

(** [Path.OAuthRedirect] *)
Definition OAuthRedirect : string := "/oauth/callback".

(** [Login.tsx]: [loginHandler] opens the popup and subscribes. *)
Definition loginHandler (VITE_DOMAIN_ADDRESS VITE_BASE_URL : string) (w : Window) : Window :=
  let redirectUri := VITE_DOMAIN_ADDRESS +:+ OAuthRedirect in
  let url := VITE_BASE_URL +:+ "/auth/oauth-redirect?callbackUrl=" +:+ redirectUri in
  {| popups := popups w ++ [url];
     listeners := listeners w ++ [redirectUri];
     logins := logins w |}.

(** [Login.tsx]: one [receiveMessage] closure on one event.  [Some] is the
    path that unsubscribes and calls [login]; [None] is an early [return],
    or the [TypeError] of destructuring [null]. *)
Definition receiveMessage (VITE_DOMAIN_ADDRESS redirectUri : string) (event : MessageEvent)
    : option LoginArgs :=
  if negb (String.eqb (origin event) VITE_DOMAIN_ADDRESS) then None
  else
    match message_data event with
    | JObj props =>
        match get_prop "code" props with
        | Some code =>
            if truthy code
            then Some {| code := code; redirectUri := redirectUri; rememberMe := false |}
            else None
        | None => None
        end
    | _ => None
    end.

(** A ["message"] event reaches every closure subscribed at that time. *)
Definition message (VITE_DOMAIN_ADDRESS : string) (event : MessageEvent) (w : Window) : Window :=
  {| popups := popups w;
     listeners :=
       filter (fun redirectUri => receiveMessage VITE_DOMAIN_ADDRESS redirectUri event = None)
              (listeners w);
     logins :=
       logins w
       ++ omap (fun redirectUri => receiveMessage VITE_DOMAIN_ADDRESS redirectUri event)
               (listeners w) |}.

(** What happens in the window: a click on the login button, or a message. *)
Inductive WindowEvent : Type :=
| Click
| Message (event : MessageEvent).

Definition handle (VITE_DOMAIN_ADDRESS VITE_BASE_URL : string) (w : Window) (ev : WindowEvent)
    : Window :=
  match ev with
  | Click => loginHandler VITE_DOMAIN_ADDRESS VITE_BASE_URL w
  | Message event => message VITE_DOMAIN_ADDRESS event w
  end.

(** How many of the events are clicks. *)
Fixpoint clicks (events : list WindowEvent) : nat :=
  match events with
  | [] => 0
  | Click :: rest => S (clicks rest)
  | Message _ :: rest => clicks rest
  end.

(** The tags handed to [invalidateTags]. *)
Record Started : Type := {
  after : Auth.page;
  invalidated : list string
}.

(** [login.onQueryStarted]: the statements after [await queryFulfilled]
    run only when it resolves, and reading a token off [null] throws
    before anything is stored. *)
Definition onQueryStarted (outcome : completion Auth.QueryResult) (pg : Auth.page) : Started :=
  match outcome with
  | Normal (Auth.DataResult JNull) => {| after := pg; invalidated := [] |}
  | Normal (Auth.DataResult d) =>
      {| after := {| Auth.page_storage := Auth.store_tokens d (Auth.page_storage pg);
                     Auth.page_api := Auth.page_api pg |};
         invalidated := ["Auth"] |}
  | _ => {| after := pg; invalidated := [] |}
  end.

End Login.

(** ** Lesson "Streaming update": the socket module and the two recipes *)

Module Streaming.

(** A listener: one of the two loggers of [getSocket], or a callback
    handed to [subscribeToEvent]. *)
Inductive Listener : Type :=
| LogConnected
| LogDisconnected
| Callback (id : nat).

(** The calls made on [socket.io-client]; a socket is named by the number
    of sockets [io] had returned before it. *)
Inductive SocketCall : Type :=
| Io (url path : string) (transports : list string)
| On (socket : nat) (event : string) (listener : Listener)
| Off (socket : nat) (event : string) (listener : Listener).

(** [getSocket.ts]: the module-level [socket] variable, with the sockets
    opened and the calls made so far. *)
Record SocketModule : Type := {
  socket : option nat;
  opened : nat;
  log : list SocketCall
}.

(** [getSocket.ts] *)
Definition getSocket (VITE_SOCKET_URL : string) (m : SocketModule) : nat * SocketModule :=
  match socket m with
  | Some s => (s, m)
  | None =>
      let s := opened m in
      (s, {| socket := Some s;
             opened := S (opened m);
             log := log m ++ [Io VITE_SOCKET_URL "/api/1.0/ws" ["websocket"];
                              On s "connect" LogConnected;
                              On s "disconnect" LogDisconnected] |})
  end.

(** [subscribeToEvent.ts]: the returned closure is the [socket.off] call
    it will make. *)
Definition subscribeToEvent (VITE_SOCKET_URL : string) (event : string) (callback : nat)
    (m : SocketModule) : SocketCall * SocketModule :=
  let '(s, m1) := getSocket VITE_SOCKET_URL m in
  (Off s event (Callback callback),
   {| socket := socket m1; opened := opened m1;
      log := log m1 ++ [On s event (Callback callback)] |}).

(** [const unsubscribes = [subscribeToEvent(...), ...]] *)
Fixpoint subscribe_each (VITE_SOCKET_URL : string) (subscriptions : list (string * nat))
    (m : SocketModule) : list SocketCall * SocketModule :=
  match subscriptions with
  | [] => ([], m)
  | (event, callback) :: rest =>
      let '(unsubscribe, m1) := subscribeToEvent VITE_SOCKET_URL event callback m in
      let '(unsubscribes, m2) := subscribe_each VITE_SOCKET_URL rest m1 in
      (unsubscribe :: unsubscribes, m2)
  end.

(** [PlaylistMeta]; the response schema makes the three counts positive
    integers, and the recipe below divides by [pageSize]. *)
Record PlaylistMeta : Type := {
  page : json;
  pageSize : positive;
  totalCount : Z;
  pagesCount : Z
}.

Record PlaylistsResponse : Type := {
  data : list Optimistic.PlaylistData;
  meta : PlaylistMeta
}.

(** [Array.prototype.pop], as a statement: the last element goes, if any. *)
Definition pop {A : Type} (l : list A) : list A := removelast l.

(** [Array.prototype.unshift] *)
Definition unshift {A : Type} (x : A) (l : list A) : list A := x :: l.

(** The recipe of the [tracks.playlist-created] subscription. *)
Definition playlistCreated (newPlaylist : Optimistic.PlaylistData) (state : PlaylistsResponse)
    : PlaylistsResponse :=
  let data1 := unshift newPlaylist (pop (data state)) in
  let totalCount1 := Number.add (totalCount (meta state)) 1 in
  {| data := data1;
     meta := {| page := page (meta state);
                pageSize := pageSize (meta state);
                totalCount := totalCount1;
                pagesCount := Number.ceil_div totalCount1 (pageSize (meta state)) |} |}.

(** [{ ...old, ...newPlaylist }] on two [PlaylistData]: each of the three
    properties is overwritten. *)
Definition spread_playlist (old newPlaylist : Optimistic.PlaylistData) : Optimistic.PlaylistData :=
  {| Optimistic.id := Optimistic.id newPlaylist;
     Optimistic.type_ := Optimistic.type_ newPlaylist;
     Optimistic.attributes := Optimistic.attributes newPlaylist |}.

(** The recipe of the [tracks.playlist-updated] subscription. *)
Definition playlistUpdated (newPlaylist : Optimistic.PlaylistData) (state : PlaylistsResponse)
    : PlaylistsResponse :=
  let index :=
    Optimistic.findIndex
      (fun playlist => String.eqb (Optimistic.id playlist) (Optimistic.id newPlaylist))
      (data state) in
  if negb (index =? -1) then
    {| data := alter (fun old => spread_playlist old newPlaylist) (Z.to_nat index) (data state);
       meta := meta state |}
  else state.

End Streaming.

(** ** Concrete pages and responses *)

Module Examples.
Import Auth.

Definition env0 : ImportMetaEnv :=
  {| VITE_BASE_URL := "https://musicfun.it-incubator.app/api/1.0";
     VITE_API_KEY := "api-key" |}.

Definition logged_in : gmap string string :=
  {[AUTH_KEYS.accessToken := "A1"; AUTH_KEYS.refreshToken := "R1"]}.

Definition empty_token : gmap string string :=
  {[AUTH_KEYS.accessToken := EmptyString; AUTH_KEYS.refreshToken := "R1"]}.

(** An access token followed by a space, and one with a line break inside. *)
Definition padded_token : gmap string string :=
  {[AUTH_KEYS.accessToken := "A1 "; AUTH_KEYS.refreshToken := "R1"]}.

Definition broken_token : gmap string string :=
  {[AUTH_KEYS.accessToken := String "A" (String (ascii_of_nat 10) "1");
    AUTH_KEYS.refreshToken := "R1"]}.

Definition get_playlists : FetchArgs :=
  {| url := "playlists"; method := "get"; body := None; params := None |}.

Definition get_me : FetchArgs :=
  {| url := "auth/me"; method := "get"; body := None; params := None |}.

Definition unauthorized : QueryResult :=
  ErrorResult (HttpError 401 (JObj [("message", JStr "Unauthorized")])).

Definition fresh_tokens : QueryResult :=
  DataResult (JObj [("accessToken", JStr "A2"); ("refreshToken", JStr "R2")]).

(** A refresh payload whose token fields are not strings. *)
Definition odd_tokens : json :=
  JObj [("accessToken", JNum "42"); ("refreshToken", JNull)].

(** A refresh payload whose access token is the empty array. *)
Definition empty_array_tokens : json :=
  JObj [("accessToken", JArr []); ("refreshToken", JStr "R2")].

(** The body the API sends for a rejected refresh token. *)
Definition refresh_rejected_body : json :=
  JObj [("errors",
         JArr [JObj [("status", JStr "400");
                     ("detail", JStr "refreshToken must be a string; Received value: null")]])].

Definition refresh_rejected : QueryResult := ErrorResult (HttpError 400 refresh_rejected_body).

Definition ok (payload : string) : QueryResult := DataResult (JStr payload).

(** One call that has passed the first [waitForUnlock] of a free mutex. *)
Definition one_call_unlocked (s : gmap string string) : state :=
  {| env := env0; storage := s; locked := false;
     calls := [{| args := get_playlists; at_ := Unlocked0 |}];
     wire := []; heard := []; dispatched := []; shown := []; released := 0 |}.

(** A request of the page [env0] that carries the access token [token]. *)
Definition request_with (token : string) (a : FetchArgs) : Request :=
  {| req_base := VITE_BASE_URL env0;
     req_args := a;
     req_headers := <["Authorization" := "Bearer " +:+ token]> {["API-KEY" := VITE_API_KEY env0]} |}.

(** One call that holds the mutex and awaits the answer of the refresh call. *)
Definition one_call_refreshing : state :=
  {| env := env0; storage := logged_in; locked := true;
     calls := [{| args := get_playlists; at_ := Refreshing unauthorized |}];
     wire := [(0%nat, request_with "A1" get_playlists);
              (0%nat, request_with "A1" (refresh_args logged_in))];
     heard := [(0%nat, unauthorized)];
     dispatched := []; shown := []; released := 0 |}.

(** Two calls whose 401s arrive together: call 1 takes the mutex and
    refreshes, call 0 waits and retries. *)
Definition two_calls : list FetchArgs := [get_playlists; get_me].

Definition two_calls_schedule : list event :=
  [Resume 0; Resume 1; Resume 0; Resume 1;
   Response 1 unauthorized; Response 0 unauthorized;
   Resume 1; Response 1 fresh_tokens; Response 1 (ok "me");
   Resume 0; Response 0 (ok "playlists")]%nat.

(** The two calls up to the moment call 1 awaits the refresh response
    while call 0 waits for the mutex. *)
Definition refreshing_schedule : list event :=
  [Resume 0; Resume 1; Resume 0; Resume 1;
   Response 1 unauthorized; Response 0 unauthorized; Resume 1]%nat.

(** The same two calls when the refresh token is rejected; the retry of
    the waiting call is answered all the same. *)
Definition rejected_schedule : list event :=
  [Resume 0; Resume 1; Resume 0; Resume 1;
   Response 1 unauthorized; Response 0 unauthorized;
   Resume 1; Response 1 refresh_rejected;
   Resume 0; Response 0 (ok "playlists")]%nat.

(** The same again, but the retry of the waiting call is answered by
    another 401. *)
Definition rejected_again_schedule : list event :=
  [Resume 0; Resume 1; Resume 0; Resume 1;
   Response 1 unauthorized; Response 0 unauthorized;
   Resume 1; Response 1 refresh_rejected;
   Resume 0; Response 0 unauthorized]%nat.

(** The logout request, answered like a rejected refresh token. *)
Definition logout_schedule : list event :=
  [Resume 0; Resume 0; Response 0 refresh_rejected]%nat.

(** Call 1 hears its 401 only after call 0 has refreshed and released the
    mutex, and so refreshes again. *)
Definition late_schedule : list event :=
  [Resume 0; Resume 1; Resume 0; Resume 1;
   Response 0 unauthorized; Resume 0; Response 0 fresh_tokens; Response 0 (ok "playlists");
   Response 1 unauthorized; Resume 1; Response 1 fresh_tokens; Response 1 (ok "me")]%nat.

(** A refresh payload whose access token has a line break inside. *)
Definition broken_tokens : QueryResult :=
  DataResult (JObj [("accessToken", JStr (String "A" (String (ascii_of_nat 10) "2")));
                    ("refreshToken", JStr "R2")]).

(** Call 0 refreshes and is handed such a token; call 1 hears its 401
    after the release and sets out to refresh again. *)
Definition broken_refresh_schedule : list event :=
  [Resume 0; Resume 1; Resume 0; Resume 1;
   Response 0 unauthorized; Resume 0; Response 0 broken_tokens; Resume 0;
   Response 1 unauthorized; Resume 1; Resume 1]%nat.

(** One call whose retry after a successful refresh is rejected again. *)
Definition rejected_twice_schedule : list event :=
  [Resume 0; Resume 0; Response 0 unauthorized;
   Resume 0; Response 0 fresh_tokens; Response 0 unauthorized]%nat.

End Examples.

Definition final_state_of_two_calls : Auth.state :=
  Auth.final_state Examples.two_calls_schedule
    (Auth.init Examples.env0 Examples.logged_in Examples.two_calls).

(** ** The error taxonomy of the specification, for comparison *)

Module Taxonomy.

Inductive ErrorKind : Type :=
| Network
| Timeout
| Parse
| Validation
| Unauthorized
| Forbidden
| NotFound
| RateLimited
| ServerFault
| Custom (s : string).

(** [String(status)] *)
Definition status_text (s : Status) : string :=
  match s with
  | Http code => pretty code
  | FETCH_ERROR => "FETCH_ERROR"
  | PARSING_ERROR => "PARSING_ERROR"
  | TIMEOUT_ERROR => "TIMEOUT_ERROR"
  | CUSTOM_ERROR => "CUSTOM_ERROR"
  end.

(** The mapping rules in the words of the specification (section 4.2):
    no response received is Network, and Timeout when the transport did not
    resolve in time (section 5); a malformed body is Parse; 400 Validation,
    401 Unauthorized, 403 Forbidden, 404 NotFound, 429 RateLimited,
    500-599 ServerFault; anything else Custom(status code as string). *)
Definition classify_spec (s : Status) : ErrorKind :=
  match s with
  | FETCH_ERROR => Network
  | TIMEOUT_ERROR => Timeout
  | PARSING_ERROR => Parse
  | Http code =>
      if code =? 400 then Validation
      else if code =? 401 then Unauthorized
      else if code =? 403 then Forbidden
      else if code =? 404 then NotFound
      else if code =? 429 then RateLimited
      else if (500 <=? code) && (code <=? 599) then ServerFault
      else Custom (status_text s)
  | CUSTOM_ERROR => Custom (status_text s)
  end.

(** How the kinds of the taxonomy fall onto the arms of [handleErrors]. *)
Definition arm_of_kind (k : ErrorKind) : ErrorHandling.arm :=
  match k with
  | Network | Timeout | Parse => ErrorHandling.ArmStringStatus
  | Validation | Forbidden => ErrorHandling.Arm400_403
  | NotFound => ErrorHandling.Arm404
  | Unauthorized | RateLimited => ErrorHandling.Arm401_429
  | ServerFault => ErrorHandling.ArmDefaultServer
  | Custom s =>
      if String.eqb s "CUSTOM_ERROR" then ErrorHandling.ArmStringStatus
      else ErrorHandling.ArmDefaultOther
  end.

End Taxonomy.

(** ** Predicates and invariants used in the proofs *)

Import Auth.

(** The [Authorization] header that [prepareHeaders] leaves on a request,
    read off the storage: the stored token behind ["Bearer "], normalized
    as [Headers] does it. *)
Definition authorization_for (s : gmap string string) : option string :=
  match getItem AUTH_KEYS.accessToken s with
  | Some token =>
      if String.eqb token EmptyString then None else Some (normalize ("Bearer " +:+ token))
  | None => None
  end.

(** The values [baseQuery] hands to [Headers] are header values once
    normalized: the API key, and the stored access token behind
    ["Bearer "] when there is a non-empty one. *)
Definition valid_headers (e : ImportMetaEnv) (s : gmap string string) : bool :=
  is_header_value (normalize (VITE_API_KEY e))
  && match getItem AUTH_KEYS.accessToken s with
     | Some token =>
         String.eqb token EmptyString || is_header_value (normalize ("Bearer " +:+ token))
     | None => true
     end.

(** What a call returns to its caller for the result [r] it ends with:
    [handleErrors] runs for an error other than 401, and an exception it
    throws is the outcome. *)
Definition returned (r : QueryResult) : completion QueryResult :=
  match r with
  | ErrorResult e =>
      if is_401 r then Normal r
      else match handleErrors e with
           | Normal _ => Normal r
           | TypeError => TypeError
           end
  | DataResult _ => Normal r
  end.

(** What is shown on the way. *)
Definition effects_of (r : QueryResult) : list effect :=
  match r with
  | ErrorResult e =>
      if is_401 r then []
      else match handleErrors e with
           | Normal effects => effects
           | TypeError => []
           end
  | DataResult _ => []
  end.

(** Between [mutex.acquire()] and [release()]. *)
Definition holds_mutex (c : call) : bool :=
  match at_ c with
  | Acquired _ | Refreshing _ | RetryLeader | Throwing true => true
  | _ => false
  end.

(** Awaiting the response to its own request. *)
Definition awaits_own (c : call) : bool :=
  match at_ c with
  | First | RetryLeader | RetryWaiter => true
  | _ => false
  end.

(** At a [waitForUnlock()] that has not resolved yet. *)
Definition is_blocked (c : call) : bool :=
  match at_ c with
  | Blocked0 | Blocked1 => true
  | _ => false
  end.

(** The same call at another point of the function. *)
Definition moved (c : call) (next : pc) : call := {| args := args c; at_ := next |}.

(** The mutex and the calls agree: a call waits only while the mutex is
    taken, and a taken mutex is held by a call that will release it. *)
Definition mutex_ok (lk : bool) (l : list call) : Prop :=
  (forall p c, l !! p = Some c -> is_blocked c = true -> lk = true)
  /\ (lk = true -> exists p c, l !! p = Some c /\ holds_mutex c = true).

(** The same, of a page. *)
Definition mutex_inv (st : state) : Prop := mutex_ok (locked st) (calls st).

(** What a move does to the mutex. *)
Inductive lock_change : Type := Keep | Take | Give.

(** The ways one call moves, with the requests the move puts on the wire
    and what it does to the mutex. *)
Inductive transition (ev : event) (p : nat) (c : call) (st : state) :
    pc -> list Request -> lock_change -> Prop :=
| T_start_blocked :
    ev = Resume p -> at_ c = Start -> locked st = true ->
    transition ev p c st Blocked0 [] Keep
| T_start_free :
    ev = Resume p -> at_ c = Start -> locked st = false ->
    transition ev p c st Unlocked0 [] Keep
| T_send_first request :
    ev = Resume p -> at_ c = Unlocked0 ->
    baseQuery_request (env st) (storage st) (args c) = Normal request ->
    transition ev p c st First [request] Keep
| T_throw_first :
    ev = Resume p -> at_ c = Unlocked0 ->
    baseQuery_request (env st) (storage st) (args c) = TypeError ->
    transition ev p c st (Throwing false) [] Keep
| T_send_refresh result request :
    ev = Resume p -> at_ c = Acquired result ->
    baseQuery_request (env st) (storage st) (refresh_args (storage st)) = Normal request ->
    transition ev p c st (Refreshing result) [request] Keep
| T_throw_refresh result :
    ev = Resume p -> at_ c = Acquired result ->
    baseQuery_request (env st) (storage st) (refresh_args (storage st)) = TypeError ->
    transition ev p c st (Throwing true) [] Keep
| T_send_retry request :
    ev = Resume p -> at_ c = Unlocked1 ->
    baseQuery_request (env st) (storage st) (args c) = Normal request ->
    transition ev p c st RetryWaiter [request] Keep
| T_throw_retry :
    ev = Resume p -> at_ c = Unlocked1 ->
    baseQuery_request (env st) (storage st) (args c) = TypeError ->
    transition ev p c st (Throwing false) [] Keep
| T_rethrow :
    ev = Resume p -> at_ c = Throwing false ->
    transition ev p c st (Finished TypeError) [] Keep
| T_rethrow_finally :
    ev = Resume p -> at_ c = Throwing true ->
    transition ev p c st (Finished TypeError) [] Give
| T_wait r :
    ev = Response p r -> at_ c = First -> is_401 r = true -> locked st = true ->
    transition ev p c st Blocked1 [] Keep
| T_acquire r :
    ev = Response p r -> at_ c = First -> is_401 r = true -> locked st = false ->
    transition ev p c st (Acquired r) [] Take
| T_return_first r :
    ev = Response p r -> at_ c = First -> is_401 r = false ->
    transition ev p c st (Finished (returned r)) [] Keep
| T_refreshed r result request :
    ev = Response p r -> at_ c = Refreshing result -> refresh_succeeded r = true ->
    baseQuery_request (env st) (store_tokens (result_data r) (storage st)) (args c)
    = Normal request ->
    transition ev p c st RetryLeader [request] Keep
| T_refreshed_throw r result :
    ev = Response p r -> at_ c = Refreshing result -> refresh_succeeded r = true ->
    baseQuery_request (env st) (store_tokens (result_data r) (storage st)) (args c)
    = TypeError ->
    transition ev p c st (Throwing true) [] Keep
| T_refresh_failed r result :
    ev = Response p r -> at_ c = Refreshing result -> refresh_succeeded r = false ->
    transition ev p c st (Finished (returned result)) [] Give
| T_return_leader r :
    ev = Response p r -> at_ c = RetryLeader ->
    transition ev p c st (Finished (returned r)) [] Give
| T_return_waiter r :
    ev = Response p r -> at_ c = RetryWaiter ->
    transition ev p c st (Finished (returned r)) [] Keep.

(** The other calls, the mutex and the release counter after a move. *)
Definition calls_after (lk : lock_change) (l : list call) : list call :=
  match lk with
  | Give => map wake l
  | _ => l
  end.

Definition locked_after (lk : lock_change) (b : bool) : bool :=
  match lk with
  | Keep => b
  | Take => true
  | Give => false
  end.

Definition released_after (lk : lock_change) (n : nat) : nat :=
  match lk with
  | Give => S n
  | _ => n
  end.

(** The storage, the responses delivered, the actions dispatched and the
    effects shown after the move that event [ev] makes call [c] do. *)
Definition storage_after (ev : event) (c : call) (s : gmap string string)
    : gmap string string :=
  match ev, at_ c with
  | Response _ r, Refreshing _ =>
      if refresh_succeeded r then store_tokens (result_data r) s else s
  | _, _ => s
  end.

Definition heard_after (ev : event) : list (nat * QueryResult) :=
  match ev with
  | Response p r => [(p, r)]
  | Resume _ => []
  end.

Definition dispatched_after (ev : event) (c : call) : list action :=
  match ev, at_ c with
  | Response _ r, Refreshing _ => if refresh_succeeded r then [] else [LogoutInitiate]
  | _, _ => []
  end.

Definition shown_after (ev : event) (c : call) : list effect :=
  match ev, at_ c with
  | Response _ r, First => if is_401 r then [] else effects_of r
  | Response _ r, Refreshing result => if refresh_succeeded r then [] else effects_of result
  | Response _ r, (RetryLeader | RetryWaiter) => effects_of r
  | _, _ => []
  end.

(** How many calls satisfy [f]. *)
Fixpoint tally (f : call -> bool) (l : list call) : nat :=
  match l with
  | [] => 0
  | c :: rest => Nat.b2n (f c) + tally f rest
  end.

(** Holding the mutex, the refresh call not sent yet. *)
Definition is_acquired (c : call) : bool :=
  match at_ c with
  | Acquired _ => true
  | _ => false
  end.

(** Awaiting the response of the refresh call. *)
Definition is_refreshing (c : call) : bool :=
  match at_ c with
  | Refreshing _ => true
  | _ => false
  end.

(** Past the second [waitForUnlock], or returned. *)
Definition past_release (c : call) : bool :=
  match at_ c with
  | Unlocked1 | RetryWaiter | Throwing false | Finished _ => true
  | _ => false
  end.

(** None of the calls of the page targets the refresh endpoint itself. *)
Definition plain_calls (l : list call) : Prop :=
  forall p c, l !! p = Some c -> targets_refresh (args c) = false.

(** The mutex is taken exactly while one call is between [acquire()] and
    [release()]. *)
Definition holder_inv (st : state) : Prop :=
  tally holds_mutex (calls st) = Nat.b2n (locked st).

(** Every entry into that section makes at most one refresh call, and
    every logout dispatched follows a refresh call. *)
Record flight_inv (st : state) : Prop := {
  inv_plain : plain_calls (calls st);
  inv_holders : holder_inv st;
  inv_refreshes :
    (length (refresh_calls st) + tally is_acquired (calls st)
     <= released st + Nat.b2n (locked st))%nat;
  inv_logouts :
    (length (dispatched st) + tally is_refreshing (calls st)
     <= length (refresh_calls st))%nat
}.

(** The arguments of the requests that call [p] has put on the wire. *)
Definition trace (p : nat) (st : state) : list FetchArgs := map req_args (sent_by p st).

(** The requests a call has sent by the time it stands at a given point:
    its own request, then either the refresh call and perhaps the retry
    (when it took the mutex), or the one retry (when it waited); a call
    that ends with the exception of a rejected [baseQuery(...)] has not
    sent the request that was due. *)
Definition trace_ok (a : FetchArgs) (at_pc : pc) (t : list FetchArgs) : Prop :=
  match at_pc with
  | Start | Unlocked0 | Blocked0 => t = []
  | First | Acquired _ | Blocked1 | Unlocked1 => t = [a]
  | Refreshing _ => exists s, t = [a; refresh_args s]
  | RetryLeader => exists s, t = [a; refresh_args s; a]
  | RetryWaiter => t = [a; a]
  | Throwing false => t = [] \/ t = [a]
  | Throwing true => t = [a] \/ exists s, t = [a; refresh_args s]
  | Finished _ =>
      t = [] \/ t = [a]
      \/ (exists s, t = [a; refresh_args s])
      \/ (exists s, t = [a; refresh_args s; a])
      \/ t = [a; a]
  end.

(** Every call of the page has sent what its point in the function allows. *)
Definition traces_ok (st : state) : Prop :=
  forall p c, calls st !! p = Some c -> trace_ok (args c) (at_ c) (trace p st).

(** The local [result] kept across the refresh is the 401 that started it. *)
Definition kept_401 (c : call) : Prop :=
  match at_ c with
  | Acquired result | Refreshing result => is_401 result = true
  | _ => True
  end.

(** Every call that holds the mutex keeps such a 401. *)
Definition results_ok (st : state) : Prop :=
  forall p c, calls st !! p = Some c -> kept_401 c.

(** While a call awaits the refresh response, the headers of a request
    can be put together from what is stored. *)
Definition can_send (st : state) : Prop :=
  forall p c,
    calls st !! p = Some c -> is_refreshing c = true ->
    exists headers, baseQuery_headers (env st) (storage st) = Normal headers.

(** The end of a call that sends its request once more when [S] is
    stored: the retry goes out and the call returns what comes back, or
    the retry cannot be put together and the call ends with that
    exception.  [sent] and [got] are the requests and responses of the
    call up to then, [sent'] and [got'] all of them. *)
Definition retry_outcome (e : ImportMetaEnv) (S : gmap string string) (a : FetchArgs)
    (sent : list Request) (got : list QueryResult)
    (sent' : list Request) (got' : list QueryResult) (outcome : completion QueryResult)
    : Prop :=
  match baseQuery_request e S a with
  | Normal request =>
      exists r, sent' = (sent ++ [request])%list /\ got' = (got ++ [r])%list
                /\ outcome = returned r
  | TypeError => sent' = sent /\ got' = got /\ outcome = TypeError
  end.

(** The whole course of a call that waited for the refresh of another:
    its request, the 401, and the retry with what is stored afterwards. *)
Definition waiter_done (e : ImportMetaEnv) (S : gmap string string) (a : FetchArgs)
    (sent : list Request) (got : list QueryResult) (outcome : completion QueryResult) : Prop :=
  exists request r,
    req_args request = a /\ is_401 r = true
    /\ retry_outcome e S a [request] [r] sent got outcome.

(** The whole course of the call that refreshed, on a page that started
    with the storage [s] and ends with [S] stored and [D] dispatched: its
    request, the 401, the refresh call with the refresh token of [s];
    then, when the refresh response carries a token pair, the pair is
    stored and the retry made with it; when it does not, the logout is
    dispatched and the 401 returned. *)
Definition leader_done (e : ImportMetaEnv) (s S : gmap string string) (D : list action)
    (a : FetchArgs) (sent : list Request) (got : list QueryResult)
    (outcome : completion QueryResult) : Prop :=
  exists request refresh r rr,
    req_args request = a /\ is_401 r = true
    /\ baseQuery_request e s (refresh_args s) = Normal refresh
    /\ if refresh_succeeded rr
       then S = store_tokens (result_data rr) s /\ D = []
            /\ retry_outcome e S a [request; refresh] [r; rr] sent got outcome
       else S = s /\ D = [LogoutInitiate]
            /\ sent = [request; refresh] /\ got = [r; rr] /\ outcome = Normal r.

(** What a call has sent and heard by the time it stands at a given point,
    when every first response is a 401 that arrives before the mutex is
    released. *)
Definition history_ok (e : ImportMetaEnv) (s S : gmap string string) (D : list action)
    (c : call) (sent : list Request) (got : list QueryResult) : Prop :=
  match at_ c with
  | Start | Blocked0 | Unlocked0 => sent = [] /\ got = []
  | First => exists request, req_args request = args c /\ sent = [request] /\ got = []
  | Blocked1 | Unlocked1 =>
      exists request r,
        req_args request = args c /\ is_401 r = true /\ sent = [request] /\ got = [r]
  | Acquired r =>
      exists request,
        req_args request = args c /\ is_401 r = true /\ sent = [request] /\ got = [r]
        /\ S = s /\ D = []
  | Refreshing r =>
      exists request refresh,
        req_args request = args c /\ is_401 r = true
        /\ baseQuery_request e s (refresh_args s) = Normal refresh
        /\ sent = [request; refresh] /\ got = [r] /\ S = s /\ D = []
  | RetryLeader =>
      exists request refresh retry r rr,
        req_args request = args c /\ is_401 r = true
        /\ baseQuery_request e s (refresh_args s) = Normal refresh
        /\ refresh_succeeded rr = true /\ S = store_tokens (result_data rr) s /\ D = []
        /\ baseQuery_request e S (args c) = Normal retry
        /\ sent = [request; refresh; retry] /\ got = [r; rr]
  | Throwing true =>
      exists request refresh r rr,
        req_args request = args c /\ is_401 r = true
        /\ baseQuery_request e s (refresh_args s) = Normal refresh
        /\ refresh_succeeded rr = true /\ S = store_tokens (result_data rr) s /\ D = []
        /\ baseQuery_request e S (args c) = TypeError
        /\ sent = [request; refresh] /\ got = [r; rr]
  | RetryWaiter =>
      exists request retry r,
        req_args request = args c /\ is_401 r = true
        /\ baseQuery_request e S (args c) = Normal retry
        /\ sent = [request; retry] /\ got = [r]
  | Throwing false =>
      exists request r,
        req_args request = args c /\ is_401 r = true
        /\ baseQuery_request e S (args c) = TypeError
        /\ sent = [request] /\ got = [r]
  | Finished outcome =>
      leader_done e s S D (args c) sent got outcome
      \/ waiter_done e S (args c) sent got outcome
  end.

(** While every first request goes out and every first response arrives in
    time: the page keeps what it started with until a call takes the
    mutex, that call makes the one refresh call, before the release no
    call is past its second [waitForUnlock()], the mutex is released at
    most once and stays free afterwards, and every call has the history
    its point in the function tells. *)
Record burst_inv (e : ImportMetaEnv) (s : gmap string string) (st : state) : Prop := {
  inv_env : env st = e;
  inv_flight : flight_inv st;
  inv_refreshed :
    (length (refresh_calls st) + tally is_acquired (calls st)
     = released st + Nat.b2n (locked st))%nat;
  inv_unsent : wire st = [] -> storage st = s;
  inv_built : wire st <> [] -> exists headers, baseQuery_headers e s = Normal headers;
  inv_pristine :
    locked st = false -> released st = 0%nat -> storage st = s /\ dispatched st = [];
  inv_before : released st = 0%nat -> tally past_release (calls st) = 0%nat;
  inv_once : (released st <= 1)%nat;
  inv_after : released st = 1%nat -> locked st = false;
  inv_histories :
    forall p c,
      calls st !! p = Some c ->
      history_ok e s (storage st) (dispatched st) c (sent_by p st) (heard_by p st)
}.

(** No response of the schedule is a successful refresh. *)
Definition no_refresh_succeeds (schedule : list event) : Prop :=
  Forall (fun ev => match ev with
                    | Response _ r => refresh_succeeded r = false
                    | Resume _ => True
                    end) schedule.

(** A call of [login] as [receiveMessage] makes it: a truthy code, the
    redirect address of this application, and no [rememberMe]. *)
Definition login_from (VITE_DOMAIN_ADDRESS : string) (a : Login.LoginArgs) : Prop :=
  truthy (Login.code a) = true
  /\ Login.redirectUri a = VITE_DOMAIN_ADDRESS +:+ Login.OAuthRedirect
  /\ Login.rememberMe a = false.

(** Every message of the sequence comes from another origin. *)
Definition foreign_messages (VITE_DOMAIN_ADDRESS : string) (events : list Login.WindowEvent)
    : Prop :=
  Forall (fun ev => match ev with
                    | Login.Message event => Login.origin event <> VITE_DOMAIN_ADDRESS
                    | Login.Click => True
                    end) events.

(** The window before anything has happened. *)
Definition fresh_window : Login.Window :=
  {| Login.popups := []; Login.listeners := []; Login.logins := [] |}.

(** The pages from [from] to [to], and the page list of
    [getPaginationPages] in closed form, as it comes out when the page
    numbers are safe integers. *)
Definition page_range (from to : Z) : list Pagination.PageItem :=
  map (fun i => Pagination.Page (from + Z.of_nat i)) (seq 0 (Z.to_nat (to - from + 1))).

Definition page_list (currentPage pagesCount : Z) : list Pagination.PageItem :=
  let leftSibling := Z.max 2 (currentPage - 1) in
  let rightSibling := Z.min (pagesCount - 1) (currentPage + 1) in
  ([Pagination.Page 1]
   ++ (if leftSibling >? 2 then [Pagination.Ellipsis] else [])
   ++ page_range leftSibling rightSibling
   ++ (if rightSibling <? pagesCount - 1 then [Pagination.Ellipsis] else [])
   ++ [Pagination.Page pagesCount])%list.

(** Strictly increasing from left to right. *)
Definition increasing (l : list Z) : Prop :=
  forall i j a b, (i < j)%nat -> l !! i = Some a -> l !! j = Some b -> a < b.

(** The cache entries the selector looks at, queries first. *)
Definition entries (state : Loaders.ApiSlice) : list (option Loaders.Entry) :=
  (Loaders.Object_values (Loaders.queries state)
   ++ Loaders.Object_values (Loaders.mutations state))%list.

(** A file the cover upload accepts: an allowed type, at most 1 MiB. *)
Definition acceptable (file : Images.File) : Prop :=
  Images.type_ file ∈ Images.allowedTypes /\ Images.size file <= 1048576.

(** The [socket.on] and [socket.off] calls of a subscription on socket [s]. *)
Definition on_call (s : nat) (subscription : string * nat) : Streaming.SocketCall :=
  Streaming.On s (fst subscription) (Streaming.Callback (snd subscription)).

Definition off_call (s : nat) (subscription : string * nat) : Streaming.SocketCall :=
  Streaming.Off s (fst subscription) (Streaming.Callback (snd subscription)).

(** * Properties *)

(** ** The snippets on concrete inputs *)

Example trimToMaxLength_keeps_short : trimToMaxLength "Playlist title" = "Playlist title".
Proof. reflexivity. Qed.

Example trimToMaxLength_with_cuts : trimToMaxLength_with "0123456789" 8 = "01234...".
Proof. reflexivity. Qed.

Example JSON_stringify_not_found :
  JSON_stringify (JObj [("error", JStr "Not Found"); ("statusCode", JNum "404")])
  = String "{" (quote "error" +:+ ":" +:+ quote "Not Found" +:+ ","
                +:+ quote "statusCode" +:+ ":404}").
Proof. reflexivity. Qed.

Example handleErrors_not_found :
  ErrorHandling.handleErrors
    (HttpError 404 (JObj [("error", JStr "Not Found"); ("statusCode", JNum "404")]))
  = Normal [Toast "Not Found"].
Proof. reflexivity. Qed.

Example handleErrors_rate_limited :
  ErrorHandling.handleErrors
    (HttpError 429 (JObj [("message", JStr "API key is invalid or not passed. (code=2) ");
                          ("statusCode", JNum "429")]))
  = Normal [Toast "API key is invalid or not passed. (code=2) "].
Proof. reflexivity. Qed.

Example handleErrors_offline :
  ErrorHandling.handleErrors (FetchError "TypeError: Failed to fetch")
  = Normal [Toast "TypeError: Failed to fetch"].
Proof. reflexivity. Qed.

Example updateRecipe_edits_one_playlist :
  let playlist name title :=
    {| Optimistic.id := name; Optimistic.type_ := "playlists";
       Optimistic.attributes := [("title", JStr title); ("order", JNum "1")] |} in
  Optimistic.updateRecipe "p2"
    {| Optimistic.title := "New"; Optimistic.description := "d"; Optimistic.tagIds := [] |}
    {| Optimistic.data := [playlist "p1" "One"; playlist "p2" "Two"]; Optimistic.meta := JNull |}
  = {| Optimistic.data :=
         [playlist "p1" "One";
          {| Optimistic.id := "p2"; Optimistic.type_ := "playlists";
             Optimistic.attributes :=
               [("title", JStr "New"); ("order", JNum "1"); ("description", JStr "d");
                ("tagIds", JArr [])] |}];
       Optimistic.meta := JNull |}.
Proof. reflexivity. Qed.

Example two_calls_one_refresh :
  let final := final_state_of_two_calls in
  map (fun entry => (fst entry, Auth.url (Auth.req_args (snd entry)),
                     Auth.req_headers (snd entry) !! "Authorization")) (Auth.wire final)
  = [(0%nat, "playlists", Some "Bearer A1"); (1%nat, "auth/me", Some "Bearer A1");
     (1%nat, "/auth/refresh", Some "Bearer A1"); (1%nat, "auth/me", Some "Bearer A2");
     (0%nat, "playlists", Some "Bearer A2")].
Proof. vm_compute. reflexivity. Qed.

(** ** Strings *)

Lemma length_append (s t : string) :
  String.length (s +:+ t) = (String.length s + String.length t)%nat.
Proof. induction s as [|c s IH]; simpl; [reflexivity | now rewrite IH]. Qed.

Lemma length_substring_prefix (n : nat) (s : string) :
  (n <= String.length s)%nat -> String.length (substring 0 n s) = n.
Proof.
  revert s. induction n as [|n IH]; intros s Hn.
  - destruct s; reflexivity.
  - destruct s as [|c s]; simpl in *; [lia|]. rewrite IH; [reflexivity | lia].
Qed.

Lemma slice_prefix (s : string) (n : Z) :
  0 <= n <= Z.of_nat (String.length s) -> slice s 0 n = substring 0 (Z.to_nat n) s.
Proof.
  intros Hn. unfold slice.
  replace (0 <? 0) with false by reflexivity.
  destruct (n <? 0) eqn:Hneg; [lia|].
  rewrite (Z.min_l 0) by lia. rewrite (Z.min_l n) by lia.
  rewrite Z.sub_0_r, Z.max_l by lia. reflexivity.
Qed.

(** A string longer than 100 code units is cut to its first 97 followed by
    three dots; a shorter one is returned as it is. *)
Lemma trimToMaxLength_long (s : string) :
  (100 < String.length s)%nat ->
  trimToMaxLength s = substring 0 97 s +:+ "..."
  /\ String.length (trimToMaxLength s) = 100%nat.
Proof.
  intros Hlen. unfold trimToMaxLength, trimToMaxLength_with.
  destruct (Z.of_nat (String.length s) >? 100) eqn:Hgt; [|lia].
  rewrite slice_prefix by lia. change (Z.to_nat (100 - 3)) with 97%nat.
  split; [reflexivity|].
  rewrite length_append, length_substring_prefix by lia. reflexivity.
Qed.

Lemma trimToMaxLength_short (s : string) :
  (String.length s <= 100)%nat -> trimToMaxLength s = s.
Proof.
  intros Hlen. unfold trimToMaxLength, trimToMaxLength_with.
  destruct (Z.of_nat (String.length s) >? 100) eqn:Hgt; [lia | reflexivity].
Qed.

Lemma trimToMaxLength_bound (s : string) :
  (String.length (trimToMaxLength s) <= 100)%nat.
Proof.
  destruct (le_lt_dec (String.length s) 100) as [Hle|Hgt].
  - now rewrite trimToMaxLength_short.
  - destruct (trimToMaxLength_long s Hgt) as [_ ->]. lia.
Qed.

(** ** Type guards *)

Lemma has_prop_spec (key : string) (v : json) :
  has_prop key v = true <-> exists props x, v = JObj props /\ get_prop key props = Some x.
Proof.
  destruct v; simpl; try (split; [discriminate | intros (? & ? & ? & ?); discriminate]).
  rewrite bool_decide_eq_true. split.
  - intros [x Hx]. eauto.
  - intros (props' & x & Heq & Hx). injection Heq as ->. eauto.
Qed.

Lemma isErrorWithDetailArray_true (error : json) :
  isErrorWithDetailArray error = Normal true <->
  exists props item rest detail,
    error = JObj props /\ get_prop "errors" props = Some (JArr (JObj item :: rest))
    /\ get_prop "detail" item = Some (JStr detail).
Proof.
  unfold isErrorWithDetailArray. split.
  - destruct error as [| | | | |props]; try discriminate.
    destruct (get_prop "errors" props) as [[| | | |[|first rest]|]|] eqn:Herrors; try discriminate.
    destruct first as [| | | | |item]; simpl; try discriminate.
    destruct (get_prop "detail" item) as [[| | |detail| |]|] eqn:Hdetail; simpl; try discriminate.
    intros _. eauto 10.
  - intros (props & item & rest & detail & -> & Herrors & Hdetail).
    rewrite Herrors. simpl. rewrite Hdetail. reflexivity.
Qed.

Lemma first_detail_narrowed (props item rest : list (string * json)) (tail : list json)
    (detail : string) :
  get_prop "errors" props = Some (JArr (JObj item :: tail)) ->
  get_prop "detail" item = Some (JStr detail) ->
  first_detail (JObj props) = detail.
Proof. intros Herrors Hdetail. unfold first_detail. now rewrite Herrors, Hdetail. Qed.

(** ** Error handling (lesson "Error Handling") *)

Import Taxonomy.

(** The decimal rendering of a number never starts with the letter C. *)
Lemma pretty_N_go_not_C (x : N) (s s' : string) :
  s ≠ String "C" s' -> pretty_N_go x s ≠ String "C" s'.
Proof.
  revert s. induction (N.lt_wf_0 x) as [x _ IH]; intros s Hs.
  destruct (decide (x = 0%N)) as [->|Hx].
  - now rewrite pretty_N_go_0.
  - rewrite pretty_N_go_step by lia. apply IH.
    + apply N.div_lt; lia.
    + unfold pretty_N_char. repeat case_match; discriminate.
Qed.

Lemma status_text_Http_not_custom (code : Z) :
  String.eqb (status_text (Http code)) "CUSTOM_ERROR" = false.
Proof.
  apply String.eqb_neq. simpl. unfold pretty, pretty_Z.
  destruct code as [|p|p]; [discriminate| |discriminate].
  unfold pretty, pretty_positive, pretty, pretty_N.
  case_decide; [discriminate|]. now apply pretty_N_go_not_C.
Qed.

(** Claim C5, as amended: the switch of [handleErrors] looks at nothing but
    [error.status], and the kinds of the taxonomy fall onto its six arms:
    the four string statuses share one arm, 400 and 403 share one, 404 has
    its own, 401 and 429 share one, 500-599 take the server arm of
    [default], and every other status takes the rest of [default]. *)
Theorem switch_status_coarsens (s : Status) :
  ErrorHandling.switch_status s = arm_of_kind (classify_spec s).
Proof.
  destruct s as [code| | | |]; try reflexivity.
  unfold ErrorHandling.switch_status, classify_spec.
  destruct (code =? 400) eqn:H400; [reflexivity|].
  destruct (code =? 401) eqn:H401.
  { apply Z.eqb_eq in H401 as ->. reflexivity. }
  destruct (code =? 403) eqn:H403; [reflexivity|].
  destruct (code =? 404) eqn:H404; [reflexivity|].
  destruct (code =? 429) eqn:H429; [reflexivity|].
  simpl.
  replace ((500 <=? code) && (code <=? 599)) with ((code >=? 500) && (code <? 600)).
  2:{ rewrite Z.geb_leb. f_equal. apply eq_true_iff_eq. rewrite Z.ltb_lt, Z.leb_le. lia. }
  destruct ((code >=? 500) && (code <? 600)); [reflexivity|].
  pose proof (status_text_Http_not_custom code) as Hcustom.
  unfold arm_of_kind. simpl in *. now rewrite Hcustom.
Qed.

(** Claim C5, as stated, fails: no labelling of the arms of [handleErrors]
    by kinds of the taxonomy yields the listed mapping, since 400 and 403
    (as well as 401 and 429, and all the statuses of [default] outside
    500-599) are not told apart. *)
Lemma switch_status_is_not_the_taxonomy :
  ~ exists kind_of_arm : ErrorHandling.arm -> ErrorKind,
      forall s, kind_of_arm (ErrorHandling.switch_status s) = classify_spec s.
Proof.
  intros [kind_of_arm Hkind].
  pose proof (Hkind (Http 400)) as H400. pose proof (Hkind (Http 403)) as H403.
  simpl in H400, H403. congruence.
Qed.

Ltac decide_code :=
  repeat match goal with
         | |- context [(?c =? ?k)] =>
             let H := fresh "Hcode" in
             destruct (c =? k) eqn:H;
             [apply Z.eqb_eq in H; try lia | apply Z.eqb_neq in H]
         end.

Lemma switch_status_400_403 (code : Z) :
  code = 400 \/ code = 403 ->
  ErrorHandling.switch_status (Http code) = ErrorHandling.Arm400_403.
Proof. intros [-> | ->]; reflexivity. Qed.

Lemma switch_status_server (code : Z) :
  500 <= code < 600 ->
  ErrorHandling.switch_status (Http code) = ErrorHandling.ArmDefaultServer.
Proof.
  intros Hrange. unfold ErrorHandling.switch_status. decide_code. simpl.
  destruct (code >=? 500) eqn:Hge; [|lia].
  destruct (code <? 600) eqn:Hlt; [reflexivity | lia].
Qed.

Lemma auth_switch_status_server (code : Z) :
  500 <= code < 600 -> Auth.switch_status (Http code) = Auth.ArmDefaultServer.
Proof.
  intros Hrange. unfold Auth.switch_status. decide_code. simpl.
  destruct (code >=? 500) eqn:Hge; [|lia].
  destruct (code <? 600) eqn:Hlt; [reflexivity | lia].
Qed.

(** The guard throws exactly when the first element of [errors] is [null]. *)
Lemma isErrorWithDetailArray_throws (error : json) :
  isErrorWithDetailArray error = TypeError <->
  exists props rest,
    error = JObj props /\ get_prop "errors" props = Some (JArr (JNull :: rest)).
Proof.
  unfold isErrorWithDetailArray. split.
  - destruct error as [| | | | |props]; try discriminate.
    destruct (get_prop "errors" props) as [[| | | |[|first rest]|]|] eqn:Herrors; try discriminate.
    destruct first; simpl; try discriminate. eauto.
  - intros (props & rest & -> & Herrors). now rewrite Herrors.
Qed.

(** A 400 or 403 whose body has the error-array shape shows the first
    detail, cut to at most 100 code units. *)
Lemma handleErrors_detail (code : Z) (body : json) :
  code = 400 \/ code = 403 ->
  isErrorWithDetailArray body = Normal true ->
  ErrorHandling.handleErrors (HttpError code body)
  = Normal [Toast (trimToMaxLength (first_detail body))]
  /\ (String.length (trimToMaxLength (first_detail body)) <= 100)%nat.
Proof.
  intros Hcode Hshape. unfold ErrorHandling.handleErrors. simpl status.
  rewrite (switch_status_400_403 code Hcode). simpl data. rewrite Hshape.
  split; [reflexivity | apply trimToMaxLength_bound].
Qed.

(** A 400 or 403 whose body the guard rejects shows the serialized body. *)
Lemma handleErrors_dump (code : Z) (body : json) :
  code = 400 \/ code = 403 ->
  isErrorWithDetailArray body = Normal false ->
  ErrorHandling.handleErrors (HttpError code body) = Normal [Toast (JSON_stringify body)].
Proof.
  intros Hcode Hshape. unfold ErrorHandling.handleErrors. simpl status.
  rewrite (switch_status_400_403 code Hcode). simpl data. now rewrite Hshape.
Qed.

(** Any other status outside 500-599 shows one fixed text, without the
    status code. *)
Lemma handleErrors_other_status (code : Z) (body : json) :
  code <> 400 -> code <> 401 -> code <> 403 -> code <> 404 -> code <> 429 ->
  ~ 500 <= code < 600 ->
  ErrorHandling.handleErrors (HttpError code body)
  = Normal [Toast ErrorHandling.some_error_message].
Proof.
  intros H400 H401 H403 H404 H429 Hrange.
  unfold ErrorHandling.handleErrors. simpl status. unfold ErrorHandling.switch_status.
  decide_code. simpl.
  destruct (code >=? 500) eqn:Hge; [|reflexivity].
  destruct (code <? 600) eqn:Hlt; [lia | reflexivity].
Qed.

(** Claim C6 at the body [{"errors":[null]}]: the guard reads [.detail] of
    [null], so the handler throws and nothing is shown, although the body
    does not have the error-array shape and its serialization
    [{"errors":[null]}] was to be displayed. *)
Theorem handleErrors_null_first_error :
  let body := JObj [("errors", JArr [JNull])] in
  isErrorWithDetailArray body = TypeError
  /\ ErrorHandling.handleErrors (HttpError 400 body) = TypeError
  /\ ErrorHandling.handleErrors (HttpError 403 body) = TypeError
  /\ user_sees (ErrorHandling.handleErrors (HttpError 400 body)) = []
  /\ JSON_stringify body = String "{" (quote "errors" +:+ ":[null]}").
Proof. repeat split; reflexivity. Qed.

(** Claim C8: for a status in 500-599 the user is shown one fixed message,
    whatever the body; two server faults with different bodies show the same
    text, and the error object only goes to the console. *)
Theorem server_fault_shows_fixed_message (code1 code2 : Z) (body1 body2 : json) :
  500 <= code1 < 600 -> 500 <= code2 < 600 ->
  ErrorHandling.handleErrors (HttpError code1 body1)
  = Normal [Toast ErrorHandling.server_error_message;
            ConsoleError (ErrorHandling.server_error_message +:+ newline)
                         (HttpError code1 body1)]
  /\ user_sees (ErrorHandling.handleErrors (HttpError code1 body1))
     = [ErrorHandling.server_error_message]
  /\ user_sees (ErrorHandling.handleErrors (HttpError code1 body1))
     = user_sees (ErrorHandling.handleErrors (HttpError code2 body2))
  /\ user_sees (Auth.handleErrors (HttpError code1 body1))
     = [ErrorHandling.server_error_message].
Proof.
  intros Hrange1 Hrange2. unfold ErrorHandling.handleErrors, Auth.handleErrors. simpl status.
  rewrite !switch_status_server, auth_switch_status_server by assumption.
  repeat split; reflexivity.
Qed.

Lemma server_fault_shows_fixed_message_witness :
  500 <= 500 < 600 /\ 500 <= 503 < 600
  /\ user_sees (ErrorHandling.handleErrors (HttpError 500 (JStr "stack trace")))
     = user_sees (ErrorHandling.handleErrors (HttpError 503 (JObj [("sql", JStr "select")]))).
Proof.
  split; [lia|]. split; [lia|].
  apply (server_fault_shows_fixed_message 500 503 (JStr "stack trace")
           (JObj [("sql", JStr "select")])); lia.
Defined.

(** ** The request layer (lesson "Auth") *)

Import Auth.

(** *** The headers of a request *)

Lemma baseQuery_headers_valid (e : ImportMetaEnv) (s : gmap string string) :
  valid_headers e s = true <-> exists headers, baseQuery_headers e s = Normal headers.
Proof.
  unfold valid_headers, baseQuery_headers, prepareHeaders, Headers_set, str_truthy.
  destruct (is_header_value (normalize (VITE_API_KEY e))); simpl.
  - destruct (getItem AUTH_KEYS.accessToken s) as [token|]; [|split; eauto].
    destruct (String.eqb token EmptyString); simpl; [split; eauto|].
    destruct (is_header_value (normalize ("Bearer " +:+ token)));
      (split; [eauto; discriminate | intros [headers Hh]; first [reflexivity | discriminate]]).
  - split; [discriminate | intros [headers Hh]; discriminate].
Qed.

Lemma baseQuery_headers_authorization (e : ImportMetaEnv) (s : gmap string string)
    (headers : gmap string string) :
  baseQuery_headers e s = Normal headers ->
  headers !! "Authorization" = authorization_for s
  /\ headers !! "API-KEY" = Some (normalize (VITE_API_KEY e)).
Proof.
  unfold baseQuery_headers, prepareHeaders, Headers_set, authorization_for, str_truthy.
  destruct (is_header_value (normalize (VITE_API_KEY e))); [|discriminate].
  destruct (getItem AUTH_KEYS.accessToken s) as [token|].
  - destruct (String.eqb token EmptyString); simpl.
    + intros [= <-]. split; [reflexivity | apply lookup_insert_eq].
    + destruct (is_header_value (normalize ("Bearer " +:+ token))); [|discriminate].
      intros [= <-]. split; [apply lookup_insert_eq|].
      rewrite lookup_insert_ne by discriminate. apply lookup_insert_eq.
  - intros [= <-]. split; [reflexivity | apply lookup_insert_eq].
Qed.

(** Whether a request can be put together does not depend on the call. *)
Lemma baseQuery_request_spec (e : ImportMetaEnv) (s : gmap string string) (a : FetchArgs) :
  match baseQuery_request e s a with
  | Normal request =>
      valid_headers e s = true
      /\ req_base request = VITE_BASE_URL e /\ req_args request = a
      /\ baseQuery_headers e s = Normal (req_headers request)
  | TypeError => valid_headers e s = false
  end.
Proof.
  unfold baseQuery_request.
  destruct (baseQuery_headers e s) as [headers|] eqn:Hh; simpl.
  - split; [apply baseQuery_headers_valid; eauto | auto].
  - destruct (valid_headers e s) eqn:Hv; [|reflexivity].
    apply baseQuery_headers_valid in Hv as [headers Hv]. congruence.
Qed.

Lemma baseQuery_request_args (e : ImportMetaEnv) (s : gmap string string) (a : FetchArgs)
    (request : Request) :
  baseQuery_request e s a = Normal request -> req_args request = a.
Proof.
  intros Hreq. pose proof (baseQuery_request_spec e s a) as Hspec.
  rewrite Hreq in Hspec. tauto.
Qed.

Lemma baseQuery_request_valid (e : ImportMetaEnv) (s : gmap string string) (a : FetchArgs) :
  valid_headers e s = true -> exists request, baseQuery_request e s a = Normal request.
Proof.
  intros Hv. pose proof (baseQuery_request_spec e s a) as Hspec.
  destruct (baseQuery_request e s a); [eauto | congruence].
Qed.

Lemma baseQuery_request_invalid (e : ImportMetaEnv) (s : gmap string string) (a : FetchArgs) :
  baseQuery_request e s a = TypeError -> valid_headers e s = false.
Proof.
  intros Hreq. pose proof (baseQuery_request_spec e s a) as Hspec. now rewrite Hreq in Hspec.
Qed.

Lemma baseQuery_request_sent (e : ImportMetaEnv) (s : gmap string string) (a : FetchArgs)
    (request : Request) :
  baseQuery_request e s a = Normal request -> valid_headers e s = true.
Proof.
  intros Hreq. pose proof (baseQuery_request_spec e s a) as Hspec.
  rewrite Hreq in Hspec. tauto.
Qed.

(** *** The tail of the function *)

Section finish_facts.
Variables (p : nat) (c : call) (r : QueryResult) (st : state).

Lemma finish_calls :
  calls (finish p c r st) = <[p := moved c (Finished (returned r))]> (calls st).
Proof.
  unfold finish, returned. destruct r as [d|e]; [reflexivity|].
  destruct (is_401 (ErrorResult e)); [reflexivity|].
  destruct (handleErrors e); reflexivity.
Qed.

Lemma finish_shown : shown (finish p c r st) = (shown st ++ effects_of r)%list.
Proof.
  unfold finish, effects_of. destruct r as [d|e]; [simpl; now rewrite app_nil_r|].
  destruct (is_401 (ErrorResult e)); [simpl; now rewrite app_nil_r|].
  destruct (handleErrors e); simpl; [reflexivity | now rewrite app_nil_r].
Qed.

Lemma finish_frame :
  env (finish p c r st) = env st /\ storage (finish p c r st) = storage st
  /\ locked (finish p c r st) = locked st /\ wire (finish p c r st) = wire st
  /\ dispatched (finish p c r st) = dispatched st
  /\ released (finish p c r st) = released st
  /\ heard (finish p c r st) = heard st.
Proof.
  unfold finish. destruct r as [d|e]; [repeat split|].
  destruct (is_401 (ErrorResult e)); [repeat split|].
  destruct (handleErrors e); repeat split.
Qed.

(** A 401 is returned as it is, and nothing is shown for it. *)
Lemma finish_401 :
  is_401 r = true ->
  finish p c r st = set_pc p c (Finished (Normal r)) st.
Proof.
  unfold finish. destruct r as [d|e]; [discriminate|]. now intros ->.
Qed.

Lemma finish_data (d : json) :
  r = DataResult d -> finish p c r st = set_pc p c (Finished (Normal r)) st.
Proof. now intros ->. Qed.
End finish_facts.

Lemma returned_401 (r : QueryResult) : is_401 r = true -> returned r = Normal r.
Proof. unfold returned. destruct r as [d|e]; [reflexivity|]. now intros ->. Qed.

(** Unfolds one step of the event loop into its cases. *)
Ltac step_cases H :=
  unfold step, call_baseQuery in H;
  repeat (case_match; try discriminate H);
  try (injection H as <-).

(** ** The steps as a transition relation *)

Lemma step_inv (ev : event) (st st' : state) :
  step ev st = Some st' ->
  exists p c next out lk,
    calls st !! p = Some c
    /\ transition ev p c st next out lk
    /\ calls st' = <[p := moved c next]> (calls_after lk (calls st))
    /\ locked st' = locked_after lk (locked st)
    /\ released st' = released_after lk (released st)
    /\ wire st' = (wire st ++ map (pair p) out)%list
    /\ env st' = env st
    /\ storage st' = storage_after ev c (storage st)
    /\ heard st' = (heard st ++ heard_after ev)%list
    /\ dispatched st' = (dispatched st ++ dispatched_after ev c)%list
    /\ shown st' = (shown st ++ shown_after ev c)%list.
Proof.
  intros Hstep. step_cases Hstep;
    match goal with
    | Hc : calls st !! ?p = Some ?c, Hat : at_ ?c = _ |- _ =>
        exists p, c;
        try match goal with
            | |- context [finish ?q ?d ?r ?s] =>
                rewrite (finish_calls q d r s), (finish_shown q d r s);
                destruct (finish_frame q d r s) as (-> & -> & -> & -> & -> & -> & ->)
            end;
        unfold storage_after, dispatched_after, shown_after; rewrite ?Hat; simpl
    end.
  all: repeat match goal with H : _ = true |- _ => rewrite H | H : _ = false |- _ => rewrite H end.
  all: eexists _, _, _.
  all: (split; [eassumption|]).
  all: (split; [econstructor; solve [eauto]|]).
  all: simpl; rewrite ?app_nil_r; repeat split; reflexivity.
Qed.

Lemma transition_not_blocked (ev : event) (p : nat) (c : call) (st : state) (next : pc)
    (out : list Request) (lk : lock_change) :
  transition ev p c st next out lk -> is_blocked c = false /\ is_finished c = false.
Proof.
  intros Htrans. unfold is_blocked, is_finished.
  destruct Htrans; match goal with H : at_ c = _ |- _ => now rewrite H end.
Qed.

(** Only the call that holds the mutex releases it. *)
Lemma transition_give (ev : event) (p : nat) (c : call) (st : state) (next : pc)
    (out : list Request) :
  transition ev p c st next out Give -> holds_mutex c = true /\ holds_mutex (moved c next) = false.
Proof.
  intros Htrans. unfold holds_mutex. simpl.
  inversion Htrans; match goal with H : at_ c = _ |- _ => now rewrite H end.
Qed.

Lemma transition_take (ev : event) (p : nat) (c : call) (st : state) (next : pc)
    (out : list Request) :
  transition ev p c st next out Take ->
  locked st = false /\ holds_mutex c = false /\ holds_mutex (moved c next) = true.
Proof.
  intros Htrans. unfold holds_mutex. simpl.
  inversion Htrans; match goal with H : at_ c = _ |- _ => now rewrite H end.
Qed.

Lemma transition_keep (ev : event) (p : nat) (c : call) (st : state) (next : pc)
    (out : list Request) :
  transition ev p c st next out Keep ->
  holds_mutex (moved c next) = holds_mutex c
  /\ (is_blocked (moved c next) = true -> locked st = true).
Proof.
  intros Htrans. unfold holds_mutex, is_blocked. simpl.
  inversion Htrans; subst;
    match goal with H : at_ c = _ |- _ => rewrite H end; split; auto; discriminate.
Qed.

(** ** Progress of the calls *)

Lemma transition_fuel (ev : event) (p : nat) (c : call) (st : state) (next : pc)
    (out : list Request) (lk : lock_change) :
  transition ev p c st next out lk -> (fuel (moved c next) < fuel c)%nat.
Proof.
  intros Htrans. unfold fuel. simpl.
  destruct Htrans; match goal with H : at_ c = _ |- _ => rewrite H end; lia.
Qed.

Lemma lookup_map_wake (l : list call) (p : nat) :
  map wake l !! p = wake <$> l !! p.
Proof.
  revert p. induction l as [|x l IH]; intros [|p]; simpl; try reflexivity. apply IH.
Qed.

Lemma wake_holder (c : call) : holds_mutex c = true -> wake c = c.
Proof. destruct c as [a [| | | | | | | | | |[]|]]; simpl; intros; try discriminate; reflexivity. Qed.

Lemma wake_not_blocked (c : call) : is_blocked (wake c) = false.
Proof. destruct c as [a []]; reflexivity. Qed.

Lemma wake_running (c : call) : is_blocked c = false -> wake c = c.
Proof. destruct c as [a []]; simpl; intros; try discriminate; reflexivity. Qed.

Lemma fuel_wake (c : call) : (fuel (wake c) <= fuel c)%nat.
Proof. destruct c as [a []]; unfold fuel, wake; simpl; lia. Qed.

Lemma fuel_after (lk : lock_change) (l : list call) :
  (sum_list (map fuel (calls_after lk l)) <= sum_list (map fuel l))%nat.
Proof.
  destruct lk; simpl; try lia.
  induction l as [|x l IH]; simpl; [lia|]. pose proof (fuel_wake x). lia.
Qed.

Lemma total_fuel_insert (l : list call) (p : nat) (c c' : call) :
  l !! p = Some c -> (fuel c' < fuel c)%nat ->
  (sum_list (map fuel (<[p := c']> l)) < sum_list (map fuel l))%nat.
Proof.
  revert p. induction l as [|x l IH]; intros [|p] Hp Hlt; simpl in *; try discriminate.
  - injection Hp as ->. lia.
  - specialize (IH p Hp Hlt). lia.
Qed.

Lemma lookup_after (lk : lock_change) (l : list call) (p : nat) (c : call) :
  l !! p = Some c -> is_blocked c = false -> calls_after lk l !! p = Some c.
Proof.
  intros Hc Hb. destruct lk; simpl; try assumption.
  rewrite lookup_map_wake, Hc. simpl. f_equal. now apply wake_running.
Qed.

Lemma lookup_after_other (lk : lock_change) (l : list call) (q : nat) (cq : call) :
  calls_after lk l !! q = Some cq ->
  exists x, l !! q = Some x
            /\ (cq = x \/ (lk = Give /\ cq = wake x /\ is_blocked x = true)).
Proof.
  destruct lk; simpl; eauto.
  rewrite lookup_map_wake. destruct (l !! q) as [x|]; [|discriminate].
  intros [= <-]. exists x. split; [reflexivity|].
  destruct (is_blocked x) eqn:Hb; [auto | left; now apply wake_running].
Qed.

(** Every step uses up fuel, so a page of [n] calls takes at most [7 * n] steps. *)
Lemma step_fuel (ev : event) (st st' : state) :
  step ev st = Some st' -> (total_fuel st' < total_fuel st)%nat.
Proof.
  intros Hstep. unfold total_fuel.
  destruct (step_inv ev st st' Hstep)
    as (p & c & next & out & lk & Hc & Htrans & -> & _).
  destruct (transition_not_blocked _ _ _ _ _ _ _ Htrans) as [Hnb _].
  eapply Nat.lt_le_trans; [|apply (fuel_after lk)].
  apply total_fuel_insert with c; [now apply lookup_after|].
  eapply transition_fuel; eauto.
Qed.

Lemma mutex_ok_move (lk : bool) (l : list call) (p : nat) (c c' : call) :
  mutex_ok lk l -> l !! p = Some c ->
  (is_blocked c' = true -> lk = true) ->
  (holds_mutex c = true -> holds_mutex c' = true) ->
  mutex_ok lk (<[p := c']> l).
Proof.
  intros [Hblocked Hheld] Hc Hb Hh. split.
  - intros q cq Hq Hbq. destruct (decide (p = q)) as [->|Hne].
    + rewrite list_lookup_insert_eq in Hq by (eapply lookup_lt_Some; eauto).
      injection Hq as <-. auto.
    + rewrite list_lookup_insert_ne in Hq by assumption. eauto.
  - intros Hlk. destruct (Hheld Hlk) as (h & ch & Hch & Hhold).
    destruct (decide (p = h)) as [->|Hne].
    + exists h, c'. split.
      * apply list_lookup_insert_eq. eapply lookup_lt_Some; eauto.
      * apply Hh. congruence.
    + exists h, ch. split; [|assumption]. now rewrite list_lookup_insert_ne.
Qed.

Lemma mutex_ok_acquire (l : list call) (p : nat) (c c' : call) :
  mutex_ok false l -> l !! p = Some c -> holds_mutex c' = true ->
  mutex_ok true (<[p := c']> l).
Proof.
  intros _ Hc Hh. split; [reflexivity|]. intros _. exists p, c'. split; [|assumption].
  apply list_lookup_insert_eq. eapply lookup_lt_Some; eauto.
Qed.

Lemma mutex_ok_release (l : list call) (p : nat) (c' : call) :
  is_blocked c' = false -> mutex_ok false (<[p := c']> (map wake l)).
Proof.
  intros Hb. split; [|discriminate].
  intros q cq Hq Hbq. destruct (decide (p = q)) as [->|Hne].
  - apply list_lookup_insert_Some in Hq as [(_ & <- & _) | (Hne & _)]; congruence.
  - rewrite list_lookup_insert_ne, lookup_map_wake in Hq by assumption.
    destruct (l !! q) as [x|]; simpl in Hq; [|discriminate].
    injection Hq as <-. now rewrite wake_not_blocked in Hbq.
Qed.

Lemma mutex_inv_init (e : ImportMetaEnv) (s : gmap string string) (requests : list FetchArgs) :
  mutex_inv (init e s requests).
Proof.
  split; [|discriminate]. simpl. intros p c Hc Hb.
  rewrite list_lookup_fmap in Hc. destruct (requests !! p); simpl in Hc; [|discriminate].
  injection Hc as <-. discriminate.
Qed.

Lemma mutex_inv_step (ev : event) (st st' : state) :
  step ev st = Some st' -> mutex_inv st -> mutex_inv st'.
Proof.
  unfold mutex_inv. intros Hstep Hinv.
  destruct (step_inv ev st st' Hstep)
    as (p & c & next & out & lk & Hc & Htrans & -> & -> & _).
  destruct lk; simpl.
  - destruct (transition_keep _ _ _ _ _ _ Htrans) as [Hh Hb].
    apply mutex_ok_move with c; auto. now rewrite Hh.
  - destruct (transition_take _ _ _ _ _ _ Htrans) as (Hfree & _ & Hh).
    rewrite Hfree in Hinv. now apply mutex_ok_acquire with c.
  - apply mutex_ok_release. unfold is_blocked. simpl.
    inversion Htrans; reflexivity.
Qed.

Lemma mutex_inv_run (schedule : list event) (st st' : state) :
  run schedule st = Some st' -> mutex_inv st -> mutex_inv st'.
Proof.
  revert st. induction schedule as [|ev rest IH]; simpl; intros st Hrun Hinv.
  - now injection Hrun as <-.
  - destruct (step ev st) as [st1|] eqn:Hstep; [|discriminate].
    eauto using mutex_inv_step.
Qed.

(** A call that is neither finished nor waiting for the mutex can move. *)
Lemma running_call_can_step (st : state) (p : nat) (c : call) :
  calls st !! p = Some c -> is_finished c = false -> is_blocked c = false ->
  exists ev st', step ev st = Some st'.
Proof.
  intros Hc Hfin Hblocked. unfold is_finished, is_blocked in *.
  destruct (at_ c) eqn:Hat; try discriminate.
  all: first
    [ exists (Resume p); unfold step; rewrite Hc, Hat; eexists; reflexivity
    | exists (Response p (DataResult JNull)); unfold step; rewrite Hc, Hat; simpl;
      eexists; reflexivity ].
Qed.

Lemma unfinished_call (l : list call) :
  forallb is_finished l = false -> exists p c, l !! p = Some c /\ is_finished c = false.
Proof.
  induction l as [|x l IH]; simpl; [discriminate|].
  destruct (is_finished x) eqn:Hx; simpl.
  - intros Hl. destruct (IH Hl) as (p & c & Hc & Hfin). now exists (S p), c.
  - intros _. now exists 0%nat, x.
Qed.

(** No deadlock: while some call has not returned, some event is enabled. *)
Lemma progress (st : state) :
  mutex_inv st -> all_finished st = false -> exists ev st', step ev st = Some st'.
Proof.
  intros [Hblocked Hheld] Hall.
  destruct (unfinished_call _ Hall) as (p & c & Hc & Hfin).
  destruct (is_blocked c) eqn:Hb.
  - destruct (Hheld (Hblocked p c Hc Hb)) as (h & ch & Hch & Hhold).
    apply (running_call_can_step st h ch Hch);
      unfold holds_mutex, is_finished, is_blocked in *; destruct (at_ ch); congruence.
  - now apply (running_call_can_step st p c).
Qed.

(** ** Counting calls *)

Lemma tally_insert (f : call -> bool) (l : list call) (p : nat) (c c' : call) :
  l !! p = Some c ->
  (tally f (<[p := c']> l) + Nat.b2n (f c) = tally f l + Nat.b2n (f c'))%nat.
Proof.
  revert p. induction l as [|x l IH]; intros [|p] Hp; simpl in *; try discriminate.
  - injection Hp as ->. lia.
  - specialize (IH p Hp). lia.
Qed.

Lemma tally_wake (f : call -> bool) (l : list call) :
  (forall c, f (wake c) = f c) -> tally f (map wake l) = tally f l.
Proof. intros Hf. induction l as [|x l IH]; simpl; [reflexivity|]. now rewrite Hf, IH. Qed.

Lemma tally_after (f : call -> bool) (lk : lock_change) (l : list call) :
  (forall c, f (wake c) = f c) -> tally f (calls_after lk l) = tally f l.
Proof. intros Hf. destruct lk; simpl; auto using tally_wake. Qed.

Lemma tally_finished (f : call -> bool) (l : list call) :
  (forall c, is_finished c = true -> f c = false) ->
  forallb is_finished l = true -> tally f l = 0%nat.
Proof.
  intros Hf. induction l as [|x l IH]; simpl; [reflexivity|].
  intros [Hx Hl]%andb_true_iff. now rewrite (Hf x Hx), IH.
Qed.

Lemma tally_positive (f : call -> bool) (l : list call) (p : nat) (c : call) :
  l !! p = Some c -> f c = true -> (1 <= tally f l)%nat.
Proof.
  revert p. induction l as [|x l IH]; intros [|p] Hp Hf; simpl in *; try discriminate.
  - injection Hp as ->. rewrite Hf. simpl. lia.
  - specialize (IH p Hp Hf). lia.
Qed.

Lemma tally_two (f : call -> bool) (l : list call) (p q : nat) (c cq : call) :
  p <> q -> l !! p = Some c -> l !! q = Some cq -> f c = true -> f cq = true ->
  (2 <= tally f l)%nat.
Proof.
  revert p q. induction l as [|x l IH]; intros [|p] [|q] Hne Hp Hq Hf Hfq; simpl in *;
    try discriminate; try congruence.
  - injection Hp as ->. rewrite Hf. pose proof (tally_positive f l q cq Hq Hfq). simpl. lia.
  - injection Hq as ->. rewrite Hfq. pose proof (tally_positive f l p c Hp Hf). simpl. lia.
  - assert (p <> q) as Hne' by congruence. specialize (IH p q Hne' Hp Hq Hf Hfq). lia.
Qed.

Lemma tally_zero (f : call -> bool) (l : list call) (p : nat) (c : call) :
  tally f l = 0%nat -> l !! p = Some c -> f c = false.
Proof.
  intros Hz Hc. destruct (f c) eqn:Hf; [|reflexivity].
  pose proof (tally_positive f l p c Hc Hf). lia.
Qed.

Lemma tally_le (f g : call -> bool) (l : list call) :
  (forall c, f c = true -> g c = true) -> (tally f l <= tally g l)%nat.
Proof.
  intros Hfg. induction l as [|c l IH]; simpl; [lia|].
  specialize (Hfg c). destruct (f c), (g c); simpl; try lia; discriminate (Hfg eq_refl).
Qed.

Lemma tally_init (f : call -> bool) (requests : list FetchArgs) :
  (forall a, f {| args := a; at_ := Start |} = false) ->
  tally f (map (fun a => {| args := a; at_ := Start |}) requests) = 0%nat.
Proof. intros Hf. induction requests as [|a l IH]; simpl; [reflexivity|]. now rewrite Hf, IH. Qed.

Lemma holds_mutex_wake (c : call) : holds_mutex (wake c) = holds_mutex c.
Proof. destruct c as [a []]; reflexivity. Qed.

Lemma is_acquired_wake (c : call) : is_acquired (wake c) = is_acquired c.
Proof. destruct c as [a []]; reflexivity. Qed.

Lemma is_refreshing_wake (c : call) : is_refreshing (wake c) = is_refreshing c.
Proof. destruct c as [a []]; reflexivity. Qed.

Lemma args_wake (c : call) : args (wake c) = args c.
Proof. destruct c as [a []]; reflexivity. Qed.

(** The tally of a step: the call that moves is counted anew. *)
Lemma tally_step (f : call -> bool) (lk : lock_change) (l : list call) (p : nat) (c c' : call) :
  (forall x, f (wake x) = f x) -> l !! p = Some c -> is_blocked c = false ->
  (tally f (<[p := c']> (calls_after lk l)) + Nat.b2n (f c) = tally f l + Nat.b2n (f c'))%nat.
Proof.
  intros Hf Hc Hnb.
  rewrite <- (tally_after f lk l Hf). apply tally_insert. now apply lookup_after.
Qed.

(** ** The mutex has one holder *)

Lemma holder_inv_init (e : ImportMetaEnv) (s : gmap string string) (requests : list FetchArgs) :
  holder_inv (init e s requests).
Proof. unfold holder_inv. simpl. now apply tally_init. Qed.

Lemma holder_inv_step (ev : event) (st st' : state) :
  step ev st = Some st' -> holder_inv st -> holder_inv st'.
Proof.
  unfold holder_inv. intros Hstep Hinv.
  destruct (step_inv ev st st' Hstep)
    as (p & c & next & out & lk & Hc & Htrans & -> & -> & _).
  destruct (transition_not_blocked _ _ _ _ _ _ _ Htrans) as [Hnb _].
  pose proof (tally_step holds_mutex lk _ p c (moved c next) holds_mutex_wake Hc Hnb) as Hh.
  destruct lk; cbn [calls_after locked_after] in *.
  - destruct (transition_keep _ _ _ _ _ _ Htrans) as [Heq _]. rewrite Heq in Hh. lia.
  - destruct (transition_take _ _ _ _ _ _ Htrans) as (Hfree & Hno & Hyes).
    rewrite Hno, Hyes, Hinv, Hfree in Hh. simpl in *. lia.
  - destruct (transition_give _ _ _ _ _ _ Htrans) as [Hyes Hno].
    rewrite Hno, Hyes in Hh. pose proof (tally_positive holds_mutex _ _ _ Hc Hyes).
    simpl in *. destruct (locked st); simpl in *; lia.
Qed.

Lemma holder_inv_run (schedule : list event) (st st' : state) :
  run schedule st = Some st' -> holder_inv st -> holder_inv st'.
Proof.
  revert st. induction schedule as [|ev rest IH]; simpl; intros st Hrun Hinv.
  - now injection Hrun as <-.
  - destruct (step ev st) as [st1|] eqn:Hstep; [|discriminate].
    eauto using holder_inv_step.
Qed.

Lemma holder_locks (st : state) (p : nat) (c : call) :
  holder_inv st -> calls st !! p = Some c -> holds_mutex c = true -> locked st = true.
Proof.
  unfold holder_inv. intros Hholders Hc Hh.
  pose proof (tally_positive holds_mutex _ _ _ Hc Hh).
  destruct (locked st); [reflexivity | simpl in *; lia].
Qed.

Lemma holder_unique (st : state) (p q : nat) (c cq : call) :
  holder_inv st -> calls st !! p = Some c -> calls st !! q = Some cq ->
  holds_mutex c = true -> holds_mutex cq = true -> p = q.
Proof.
  unfold holder_inv. intros Hholders Hc Hq Hh Hhq.
  destruct (decide (p = q)) as [|Hne]; [assumption|].
  pose proof (tally_two holds_mutex _ p q c cq Hne Hc Hq Hh Hhq).
  destruct (locked st); simpl in *; lia.
Qed.

(** ** What each call has sent and heard *)

Lemma filter_by_call {A : Type} (l : list (nat * A)) (p q : nat) (extra : list A) :
  map snd (filter (fun entry => fst entry = q) (l ++ map (pair p) extra)%list)
  = (map snd (filter (fun entry => fst entry = q) l) ++ if decide (q = p) then extra else [])%list.
Proof.
  rewrite filter_app, map_app. f_equal.
  induction extra as [|x extra IH]; simpl.
  - now destruct (decide (q = p)).
  - destruct (decide (q = p)) as [->|Hne].
    + rewrite filter_cons_True by reflexivity. simpl. f_equal. exact IH.
    + rewrite filter_cons_False by (simpl; congruence). exact IH.
Qed.

Lemma sent_by_after (st st' : state) (p q : nat) (out : list Request) :
  wire st' = (wire st ++ map (pair p) out)%list ->
  sent_by q st' = (sent_by q st ++ if decide (q = p) then out else [])%list.
Proof. intros Hwire. unfold sent_by. rewrite Hwire. apply filter_by_call. Qed.

Lemma heard_by_after (st st' : state) (ev : event) (q : nat) :
  heard st' = (heard st ++ heard_after ev)%list ->
  heard_by q st'
  = (heard_by q st
     ++ match ev with
        | Response p r => if decide (q = p) then [r] else []
        | Resume _ => []
        end)%list.
Proof.
  intros Hheard. unfold heard_by. rewrite Hheard. destruct ev as [p|p r]; simpl.
  - now rewrite !app_nil_r.
  - apply (filter_by_call (heard st) p q [r]).
Qed.

Lemma trace_after (st st' : state) (p q : nat) (out : list Request) :
  wire st' = (wire st ++ map (pair p) out)%list ->
  trace q st' = (trace q st ++ if decide (q = p) then map req_args out else [])%list.
Proof.
  intros Hwire. unfold trace. rewrite (sent_by_after st st' p q out Hwire), map_app.
  now destruct (decide (q = p)).
Qed.

Lemma sent_by_elem (p : nat) (st : state) (request : Request) :
  request ∈ sent_by p st <-> (p, request) ∈ wire st.
Proof.
  unfold sent_by. rewrite list_elem_of_fmap. split.
  - intros ([q request'] & -> & Hin). apply list_elem_of_filter in Hin as [Hq Hin].
    simpl in *. now subst q.
  - intros Hin. exists (p, request). split; [reflexivity|].
    apply list_elem_of_filter. auto.
Qed.

Lemma trace_elem (p : nat) (st : state) (a : FetchArgs) :
  a ∈ trace p st <-> exists request, (p, request) ∈ wire st /\ req_args request = a.
Proof.
  unfold trace. rewrite list_elem_of_fmap. split.
  - intros (request & -> & Hin). apply sent_by_elem in Hin. eauto.
  - intros (request & Hin & <-). exists request. split; [reflexivity|].
    now apply sent_by_elem.
Qed.

Lemma refresh_calls_elem (st : state) (p : nat) (request : Request) :
  (p, request) ∈ refresh_calls st <-> (p, request) ∈ wire st /\ is_refresh request = true.
Proof. unfold refresh_calls. rewrite list_elem_of_filter. simpl. tauto. Qed.

Lemma targets_refresh_refresh_args (s : gmap string string) :
  targets_refresh (refresh_args s) = true.
Proof. reflexivity. Qed.

(** The requests a move sends are the call's own, but for the refresh call. *)
Lemma transition_out (ev : event) (p : nat) (c : call) (st : state) (next : pc)
    (out : list Request) (lk : lock_change) :
  transition ev p c st next out lk ->
  out = []
  \/ (exists request,
        out = [request] /\ req_args request = args c /\ is_refreshing (moved c next) = false)
  \/ (exists request,
        out = [request] /\ req_args request = refresh_args (storage st)
        /\ is_acquired c = true /\ is_refreshing (moved c next) = true).
Proof.
  intros Htrans. unfold is_acquired, is_refreshing. simpl.
  destruct Htrans; auto;
    match goal with
    | H : baseQuery_request _ _ _ = Normal _ |- _ => apply baseQuery_request_args in H
    end;
    match goal with H : at_ c = _ |- _ => rewrite H end; eauto 10.
Qed.

(** ** At most one refresh in flight *)

Lemma refresh_calls_after (st st' : state) (p : nat) (out : list Request) :
  wire st' = (wire st ++ map (pair p) out)%list ->
  refresh_calls st'
  = (refresh_calls st ++ map (pair p) (filter (fun r => is_refresh r = true) out))%list.
Proof.
  intros Hwire. unfold refresh_calls. rewrite Hwire, filter_app. f_equal. clear Hwire.
  induction out as [|r out IH]; simpl; [reflexivity|].
  destruct (is_refresh r) eqn:Hr.
  - rewrite !filter_cons_True by (simpl; congruence). simpl. now rewrite IH.
  - rewrite !filter_cons_False by (simpl; congruence). exact IH.
Qed.

Lemma plain_calls_after (lk : lock_change) (l : list call) (p : nat) (c : call) (next : pc) :
  plain_calls l -> l !! p = Some c ->
  plain_calls (<[p := moved c next]> (calls_after lk l)).
Proof.
  intros Hplain Hc q cq Hq.
  apply list_lookup_insert_Some in Hq as [(_ & <- & _) | (_ & Hq)].
  - simpl. eauto.
  - apply lookup_after_other in Hq as (x & Hx & [-> | (_ & -> & _)]); [eauto|].
    rewrite args_wake. eauto.
Qed.

Lemma flight_inv_init (e : ImportMetaEnv) (s : gmap string string) (requests : list FetchArgs) :
  Forall (fun a => targets_refresh a = false) requests ->
  flight_inv (init e s requests).
Proof.
  intros Hplain. split; simpl.
  - intros p c Hc. rewrite list_lookup_fmap in Hc.
    destruct (requests !! p) as [a|] eqn:Ha; [|discriminate]. injection Hc as <-. simpl.
    eapply Forall_lookup_1 in Hplain; eauto.
  - apply holder_inv_init.
  - rewrite tally_init by reflexivity. simpl. lia.
  - rewrite tally_init by reflexivity. simpl. lia.
Qed.

Lemma refresh_calls_length (st st' : state) (p : nat) (out : list Request) :
  wire st' = (wire st ++ map (pair p) out)%list ->
  length (refresh_calls st')
  = (length (refresh_calls st)
     + match out with
       | [request] => Nat.b2n (targets_refresh (req_args request))
       | _ => length (filter (fun r => is_refresh r = true) out)
       end)%nat.
Proof.
  intros Hwire. rewrite (refresh_calls_after st st' p out Hwire), length_app, length_map.
  f_equal. destruct out as [|request [|]]; try reflexivity.
  unfold is_refresh. destruct (targets_refresh (req_args request)) eqn:Hr.
  - now rewrite filter_cons_True by (now rewrite Hr).
  - now rewrite filter_cons_False by (rewrite Hr; congruence).
Qed.

Lemma flight_inv_step (ev : event) (st st' : state) :
  step ev st = Some st' -> flight_inv st -> flight_inv st'.
Proof.
  intros Hstep [Hplain Hholders Hrefreshes Hlogouts].
  pose proof (holder_inv_step ev st st' Hstep Hholders) as Hholders'.
  destruct (step_inv ev st st' Hstep)
    as (p & c & next & out & lk & Hc & Htrans & Hcalls & Hlocked & Hreleased & Hwire
        & _ & _ & _ & Hdispatched & _).
  destruct (transition_not_blocked _ _ _ _ _ _ _ Htrans) as [Hnb _].
  pose proof (tally_step is_acquired lk _ p c (moved c next) is_acquired_wake Hc Hnb) as Ha.
  pose proof (tally_step is_refreshing lk _ p c (moved c next) is_refreshing_wake Hc Hnb) as Hr.
  pose proof (refresh_calls_length st st' p out Hwire) as Hn.
  pose proof (Hplain p c Hc) as Hown.
  pose proof (holder_locks st p c Hholders Hc) as Hheld.
  split; [rewrite Hcalls; now apply plain_calls_after | assumption | |].
  - rewrite Hcalls, Hlocked, Hreleased, Hn.
    unfold holds_mutex, is_acquired, is_refreshing, moved in *. simpl in *.
    destruct Htrans;
      repeat match goal with
             | H : baseQuery_request _ _ _ = Normal _ |- _ =>
                 apply baseQuery_request_args in H; rewrite H; clear H
             end;
      rewrite ?Hown; simpl;
      repeat match goal with H : at_ c = _ |- _ => rewrite H in *; clear H end;
      repeat match goal with H : locked st = _ |- _ => rewrite H in *; clear H end;
      simpl in *; try rewrite (Hheld eq_refl) in *; simpl in *; lia.
  - rewrite Hcalls, Hdispatched, length_app, Hn.
    unfold dispatched_after, holds_mutex, is_acquired, is_refreshing, moved in *. simpl in *.
    destruct Htrans; subst ev;
      repeat match goal with
             | H : baseQuery_request _ _ _ = Normal _ |- _ =>
                 apply baseQuery_request_args in H; rewrite H; clear H
             end;
      rewrite ?Hown; simpl;
      repeat match goal with H : at_ c = _ |- _ => rewrite H in *; clear H end;
      repeat match goal with H : refresh_succeeded _ = _ |- _ => rewrite H in *; clear H end;
      simpl in *; lia.
Qed.

Lemma flight_inv_run (schedule : list event) (st st' : state) :
  run schedule st = Some st' -> flight_inv st -> flight_inv st'.
Proof.
  revert st. induction schedule as [|ev rest IH]; simpl; intros st Hrun Hinv.
  - now injection Hrun as <-.
  - destruct (step ev st) as [st1|] eqn:Hstep; [|discriminate].
    eauto using flight_inv_step.
Qed.

(** ** The shape of what a call has sent *)

Lemma trace_ok_wake (c : call) (t : list FetchArgs) :
  trace_ok (args c) (at_ c) t -> trace_ok (args (wake c)) (at_ (wake c)) t.
Proof. destruct c as [a []]; simpl; auto. Qed.

Lemma traces_ok_init (e : ImportMetaEnv) (s : gmap string string) (requests : list FetchArgs) :
  traces_ok (init e s requests).
Proof.
  intros p c Hc. simpl in Hc. rewrite list_lookup_fmap in Hc.
  destruct (requests !! p); [|discriminate]. injection Hc as <-.
  simpl. unfold trace, sent_by. simpl. reflexivity.
Qed.

Lemma traces_ok_step (ev : event) (st st' : state) :
  step ev st = Some st' -> traces_ok st -> traces_ok st'.
Proof.
  intros Hstep Hok.
  destruct (step_inv ev st st' Hstep)
    as (p & c & next & out & lk & Hc & Htrans & Hcalls & _ & _ & Hwire & _).
  intros q cq Hq. rewrite (trace_after st st' p q _ Hwire).
  rewrite Hcalls in Hq. apply list_lookup_insert_Some in Hq as [(<- & <- & _) | (Hne & Hq)].
  - rewrite decide_True by reflexivity. specialize (Hok p c Hc). simpl.
    destruct Htrans;
      repeat match goal with
             | H : baseQuery_request _ _ _ = Normal _ |- _ =>
                 apply baseQuery_request_args in H; simpl; rewrite H; clear H
             end;
      repeat match goal with H : at_ c = _ |- _ => rewrite H in *; clear H end;
      simpl in *; rewrite ?app_nil_r;
      repeat match goal with
             | H : _ \/ _ |- _ => destruct H
             | H : exists _, _ |- _ => destruct H as [sr ->]
             | H : trace _ _ = _ |- _ => rewrite H
             end;
      simpl; eauto 8.
  - rewrite decide_False by congruence. rewrite app_nil_r.
    apply lookup_after_other in Hq as (x & Hx & [-> | (_ & -> & _)]); [auto|].
    apply trace_ok_wake. auto.
Qed.

Lemma traces_ok_run (schedule : list event) (st st' : state) :
  run schedule st = Some st' -> traces_ok st -> traces_ok st'.
Proof.
  revert st. induction schedule as [|ev rest IH]; simpl; intros st Hrun Hinv.
  - now injection Hrun as <-.
  - destruct (step ev st) as [st1|] eqn:Hstep; [|discriminate].
    eauto using traces_ok_step.
Qed.

Lemma step_length (ev : event) (st st' : state) :
  step ev st = Some st' -> length (calls st') = length (calls st).
Proof.
  intros Hstep.
  destruct (step_inv ev st st' Hstep) as (p & c & next & s & lk & _ & _ & -> & _).
  rewrite length_insert. destruct lk; simpl; auto using length_map.
Qed.

Lemma run_length (schedule : list event) (st st' : state) :
  run schedule st = Some st' -> length (calls st') = length (calls st).
Proof.
  revert st. induction schedule as [|ev rest IH]; simpl; intros st Hrun.
  - now injection Hrun as <-.
  - destruct (step ev st) as [st1|] eqn:Hstep; [|discriminate].
    rewrite (IH st1 Hrun). eauto using step_length.
Qed.

(** A schedule never has more events than the fuel it started with. *)
Lemma run_fuel (schedule : list event) (st st' : state) :
  run schedule st = Some st' -> (length schedule + total_fuel st' <= total_fuel st)%nat.
Proof.
  revert st. induction schedule as [|ev rest IH]; simpl; intros st Hrun.
  - injection Hrun as <-. lia.
  - destruct (step ev st) as [st1|] eqn:Hstep; [|discriminate].
    specialize (IH st1 Hrun). pose proof (step_fuel ev st st1 Hstep). lia.
Qed.

Lemma total_fuel_init (e : ImportMetaEnv) (s : gmap string string) (requests : list FetchArgs) :
  total_fuel (init e s requests) = (7 * length requests)%nat.
Proof. unfold total_fuel. simpl. induction requests; simpl in *; lia. Qed.

Lemma all_finished_lookup (st : state) (p : nat) (c : call) :
  all_finished st = true -> calls st !! p = Some c -> exists outcome, at_ c = Finished outcome.
Proof.
  unfold all_finished. intros Hall Hc. rewrite forallb_forall in Hall.
  specialize (Hall c). unfold is_finished in Hall.
  destruct (at_ c); try (discriminate Hall; apply list_elem_of_In; eapply list_elem_of_lookup_2; eauto).
  eauto.
Qed.

(** ** One call, from its first 401 to its return *)

Lemma results_ok_step (ev : event) (st st' : state) :
  step ev st = Some st' -> results_ok st -> results_ok st'.
Proof.
  intros Hstep Hok.
  destruct (step_inv ev st st' Hstep)
    as (p & c & next & out & lk & Hc & Htrans & Hcalls & _).
  intros q cq Hq. rewrite Hcalls in Hq.
  apply list_lookup_insert_Some in Hq as [(_ & <- & _) | (_ & Hq)].
  - specialize (Hok p c Hc). unfold kept_401 in *. simpl.
    destruct Htrans; try exact I; try assumption.
    match goal with H : at_ c = _ |- _ => now rewrite H in Hok end.
  - apply lookup_after_other in Hq as (x & Hx & [-> | (_ & -> & _)]); [eauto|].
    specialize (Hok q x Hx). unfold kept_401 in *.
    destruct x as [a []]; simpl in *; auto.
Qed.

Lemma results_ok_run (schedule : list event) (e : ImportMetaEnv) (s : gmap string string)
    (requests : list FetchArgs) (st : state) :
  run schedule (init e s requests) = Some st -> results_ok st.
Proof.
  assert (results_ok (init e s requests)) as Hinit.
  { intros p c Hc. simpl in Hc. rewrite list_lookup_fmap in Hc.
    destruct (requests !! p); [|discriminate]. injection Hc as <-. exact I. }
  revert Hinit. generalize (init e s requests). intros st0.
  revert st0. induction schedule as [|ev rest IH]; simpl; intros st0 Hok Hrun.
  - now injection Hrun as <-.
  - destruct (step ev st0) as [st1|] eqn:Hstep; [|discriminate].
    eauto using results_ok_step.
Qed.

(** While a call awaits the refresh response nobody else writes to the
    storage, and the refresh call went out with what is stored. *)
Lemma can_send_step (ev : event) (st st' : state) :
  step ev st = Some st' -> holder_inv st -> can_send st -> can_send st'.
Proof.
  intros Hstep Hholders Hok.
  destruct (step_inv ev st st' Hstep)
    as (p & c & next & out & lk & Hc & Htrans & Hcalls & _ & _ & _ & Henv & Hstorage & _).
  intros q cq Hq Hrefreshing. rewrite Henv, Hstorage. rewrite Hcalls in Hq.
  apply list_lookup_insert_Some in Hq as [(_ & <- & _) | (Hne & Hq)].
  - unfold is_refreshing in Hrefreshing. simpl in Hrefreshing.
    inversion Htrans; subst; try discriminate.
    unfold storage_after. simpl.
    match goal with
    | H : baseQuery_request _ _ _ = Normal _ |- _ =>
        apply baseQuery_request_sent, baseQuery_headers_valid in H; exact H
    end.
  - apply lookup_after_other in Hq as (x & Hx & Hcq).
    assert (is_refreshing x = true) as Hrx.
    { destruct Hcq as [-> | (_ & -> & _)]; [assumption|].
      now rewrite is_refreshing_wake in Hrefreshing. }
    assert (storage_after ev c (storage st) = storage st) as ->; [|eauto].
    unfold storage_after. destruct ev as [|p' r]; [reflexivity|].
    destruct (at_ c) eqn:Hat; try reflexivity.
    exfalso. apply Hne.
    apply (holder_unique st p q c x Hholders Hc Hx); unfold holds_mutex, is_refreshing in *.
    + now rewrite Hat.
    + destruct (at_ x); congruence.
Qed.

Lemma can_send_run (schedule : list event) (e : ImportMetaEnv) (s : gmap string string)
    (requests : list FetchArgs) (st : state) :
  run schedule (init e s requests) = Some st -> holder_inv st /\ can_send st.
Proof.
  assert (holder_inv (init e s requests) /\ can_send (init e s requests)) as Hinit.
  { split; [apply holder_inv_init|]. intros p c Hc. simpl in Hc.
    rewrite list_lookup_fmap in Hc. destruct (requests !! p); [|discriminate].
    injection Hc as <-. discriminate. }
  revert Hinit. generalize (init e s requests). intros st0.
  revert st0. induction schedule as [|ev rest IH]; simpl; intros st0 [Hh Hok] Hrun.
  - injection Hrun as <-. auto.
  - destruct (step ev st0) as [st1|] eqn:Hstep; [|discriminate].
    apply (IH st1); [|assumption]. eauto using holder_inv_step, can_send_step.
Qed.

(** A call that has returned takes no further part: later steps leave it
    where it is and add nothing to what it has sent. *)
Lemma finished_stays (ev : event) (st st' : state) (p : nat) (c : call)
    (outcome : completion QueryResult) :
  calls st !! p = Some c -> at_ c = Finished outcome -> step ev st = Some st' ->
  calls st' !! p = Some c /\ trace p st' = trace p st.
Proof.
  intros Hc Hat Hstep.
  destruct (step_inv ev st st' Hstep)
    as (q & cq & next & out & lk & Hq & Htrans & Hcalls & _ & _ & Hwire & _).
  assert (p <> q) as Hne.
  { intros ->. assert (cq = c) as -> by congruence.
    destruct (transition_not_blocked _ _ _ _ _ _ _ Htrans) as [_ Hfin].
    unfold is_finished in Hfin. now rewrite Hat in Hfin. }
  split.
  - rewrite Hcalls, list_lookup_insert_ne by congruence.
    apply lookup_after; [assumption|]. unfold is_blocked. now rewrite Hat.
  - rewrite (trace_after st st' q p _ Hwire), decide_False by assumption.
    apply app_nil_r.
Qed.

(** ** When all first responses arrive before the mutex is released *)

Lemma history_ok_wake (e : ImportMetaEnv) (s S : gmap string string) (D : list action)
    (c : call) (sent : list Request) (got : list QueryResult) :
  history_ok e s S D c sent got -> history_ok e s S D (wake c) sent got.
Proof. destruct c as [a []]; simpl; auto. Qed.

(** The history of a call that neither holds the mutex nor has passed
    the release says nothing about what is stored or dispatched. *)
Lemma history_ok_frame (e : ImportMetaEnv) (s S S' : gmap string string) (D D' : list action)
    (c : call) (sent : list Request) (got : list QueryResult) :
  holds_mutex c = false -> past_release c = false ->
  history_ok e s S D c sent got -> history_ok e s S' D' c sent got.
Proof.
  unfold holds_mutex, past_release, history_ok.
  destruct (at_ c) as [| | | | | | | | | |[]|]; intros; try discriminate; assumption.
Qed.

Lemma burst_inv_init (e : ImportMetaEnv) (s : gmap string string) (requests : list FetchArgs) :
  Forall (fun a => targets_refresh a = false) requests ->
  burst_inv e s (init e s requests).
Proof.
  intros Hplain. split; simpl; try lia; try discriminate; auto.
  - now apply flight_inv_init.
  - rewrite tally_init by reflexivity. reflexivity.
  - congruence.
  - intros _. now apply tally_init.
  - intros p c Hc. rewrite list_lookup_fmap in Hc.
    destruct (requests !! p); [|discriminate]. injection Hc as <-.
    unfold history_ok, sent_by, heard_by. simpl. auto.
Qed.

Lemma sent_by_wire (p : nat) (st : state) (request : Request) (rest : list Request) :
  sent_by p st = request :: rest -> wire st <> [].
Proof.
  intros Hsent Hwire. unfold sent_by in Hsent. rewrite Hwire in Hsent. discriminate.
Qed.

Lemma burst_locked (e : ImportMetaEnv) (s : gmap string string) (st : state) :
  burst_inv e s st -> locked st = true -> released st = 0%nat.
Proof.
  intros [_ _ _ _ _ _ _ Honce Hafter _] Hl.
  destruct (decide (released st = 1%nat)) as [Hone|]; [|lia].
  specialize (Hafter Hone). congruence.
Qed.

Lemma burst_holder (e : ImportMetaEnv) (s : gmap string string) (st : state)
    (p : nat) (c : call) :
  burst_inv e s st -> calls st !! p = Some c -> holds_mutex c = true ->
  locked st = true /\ released st = 0%nat.
Proof.
  intros Hinv Hc Hh. assert (locked st = true) as Hl.
  { apply (holder_locks st p c); auto. apply Hinv. }
  eauto using burst_locked.
Qed.

(** The first request goes out, and the first response is a 401 heard
    before the release. *)
Lemma burst_first (ev : event) (st : state) (p : nat) (c : call) (next : pc)
    (out : list Request) (lk : lock_change) :
  arrives_in_time ev st = true -> calls st !! p = Some c ->
  transition ev p c st next out lk ->
  match ev, at_ c with
  | Response _ r, First => is_401 r = true /\ released st = 0%nat
  | Resume _, Unlocked0 =>
      exists request, baseQuery_request (env st) (storage st) (args c) = Normal request
  | _, _ => True
  end.
Proof.
  intros Hintime Hc Htrans. unfold arrives_in_time in Hintime.
  assert (match ev with Resume q | Response q _ => q end = p) as Hp
    by (destruct Htrans; subst ev; reflexivity).
  rewrite Hp, Hc in Hintime.
  destruct ev as [q|q r]; destruct (at_ c); try exact I.
  - destruct (baseQuery_request (env st) (storage st) (args c)); [eauto | discriminate].
  - apply andb_true_iff in Hintime as [H401 Hz]. apply Nat.eqb_eq in Hz. auto.
Qed.

(** Once a request is on the wire, requests can be put together from the
    storage the page started with. *)
Lemma burst_valid (e : ImportMetaEnv) (s : gmap string string) (st : state) :
  burst_inv e s st -> wire st <> [] -> valid_headers e s = true.
Proof.
  intros Hinv Hne. apply baseQuery_headers_valid. destruct Hinv. auto.
Qed.

(** The call that has taken the mutex can make the refresh call. *)
Lemma burst_refresh (e : ImportMetaEnv) (s : gmap string string) (st : state)
    (p : nat) (c : call) (result : QueryResult) :
  burst_inv e s st -> calls st !! p = Some c -> at_ c = Acquired result ->
  env st = e /\ storage st = s
  /\ exists request,
       baseQuery_request (env st) (storage st) (refresh_args (storage st)) = Normal request.
Proof.
  intros Hinv Hc Hat.
  assert (history_ok e s (storage st) (dispatched st) c (sent_by p st) (heard_by p st)) as Hh
    by (now apply Hinv).
  unfold history_ok in Hh. rewrite Hat in Hh.
  destruct Hh as (request & _ & _ & Hsent & _ & HS & _).
  assert (env st = e) as He by apply Hinv.
  rewrite He, HS. split; [reflexivity|]. split; [reflexivity|].
  apply baseQuery_request_valid, (burst_valid e s st Hinv). eapply sent_by_wire; eauto.
Qed.

Section burst_step.
Variables (e : ImportMetaEnv) (s : gmap string string).
Variables (ev : event) (st st' : state).
Variables (p : nat) (c : call) (next : pc) (out : list Request) (lk : lock_change).
Hypothesis Hinv : burst_inv e s st.
Hypothesis Hintime : arrives_in_time ev st = true.
Hypothesis Hc : calls st !! p = Some c.
Hypothesis Htrans : transition ev p c st next out lk.
Hypothesis Hcalls : calls st' = <[p := moved c next]> (calls_after lk (calls st)).
Hypothesis Hlocked : locked st' = locked_after lk (locked st).
Hypothesis Hreleased : released st' = released_after lk (released st).
Hypothesis Hwire : wire st' = (wire st ++ map (pair p) out)%list.
Hypothesis Henv : env st' = env st.
Hypothesis Hstorage : storage st' = storage_after ev c (storage st).
Hypothesis Hheard : heard st' = (heard st ++ heard_after ev)%list.
Hypothesis Hdispatched : dispatched st' = (dispatched st ++ dispatched_after ev c)%list.

Lemma burst_history :
  history_ok e s (storage st) (dispatched st) c (sent_by p st) (heard_by p st).
Proof using Hinv Hc. now apply Hinv. Qed.

Lemma burst_step_refreshed :
  (length (refresh_calls st') + tally is_acquired (calls st')
   = released st' + Nat.b2n (locked st'))%nat.
Proof.
  destruct Hinv as [_ [Hplain Hholders _ _] Hrefreshed _ _ _ _ _ _ _].
  destruct (transition_not_blocked _ _ _ _ _ _ _ Htrans) as [Hnb _].
  pose proof (tally_step is_acquired lk _ p c (moved c next) is_acquired_wake Hc Hnb) as Ha.
  pose proof (refresh_calls_length st st' p out Hwire) as Hn.
  pose proof (Hplain p c Hc) as Hown.
  pose proof (holder_locks st p c Hholders Hc) as Hheld.
  pose proof (burst_refresh e s st p c) as Hrefresh.
  rewrite Hcalls, Hlocked, Hreleased, Hn.
  unfold holds_mutex, is_acquired, moved in *. simpl in *.
  destruct Htrans;
    try match goal with
        | H : at_ c = Acquired _, H' : baseQuery_request _ _ _ = TypeError |- _ =>
            destruct (Hrefresh _ Hinv Hc H) as (_ & _ & ? & ?); congruence
        end;
    repeat match goal with
           | H : baseQuery_request _ _ _ = Normal _ |- _ =>
               apply baseQuery_request_args in H; rewrite H; clear H
           end;
    rewrite ?Hown; simpl;
    repeat match goal with H : at_ c = _ |- _ => rewrite H in *; clear H end;
    repeat match goal with H : locked st = _ |- _ => rewrite H in *; clear H end;
    simpl in *; try rewrite (Hheld eq_refl) in *; simpl in *; lia.
Qed.

Lemma burst_step_unsent : wire st' = [] -> storage st' = s.
Proof.
  intros Hempty. rewrite Hwire in Hempty. apply app_eq_nil in Hempty as [Hempty _].
  rewrite Hstorage. unfold storage_after.
  assert (storage st = s) as HS by (now apply Hinv).
  destruct ev as [|q r]; [assumption|].
  destruct (at_ c) eqn:Hat; try assumption.
  pose proof burst_history as Hh. unfold history_ok in Hh. rewrite Hat in Hh.
  destruct Hh as (request & refresh & _ & _ & _ & Hsent & _).
  exfalso. eapply sent_by_wire; eauto.
Qed.

Lemma burst_step_built :
  wire st' <> [] -> exists headers, baseQuery_headers e s = Normal headers.
Proof.
  intros Hne. destruct (wire st) as [|entry rest] eqn:Hw.
  - assert (storage st = s) as HS by (now apply Hinv).
    assert (env st = e) as He by apply Hinv.
    assert (sent_by p st = []) as Hnone by (unfold sent_by; now rewrite Hw).
    pose proof burst_history as Hh. unfold history_ok in Hh. rewrite Hnone in Hh.
    rewrite Hwire in Hne. simpl in Hne.
    apply baseQuery_headers_valid.
    destruct Htrans; try (now contradiction Hne);
      repeat match goal with H : at_ c = _ |- _ => rewrite H in *; clear H end;
      try (rewrite He, HS in *; eapply baseQuery_request_sent; eassumption);
      destruct Hh as (? & ? & ?); intuition discriminate.
  - apply Hinv. rewrite Hw. discriminate.
Qed.

Lemma burst_step_pristine :
  locked st' = false -> released st' = 0%nat -> storage st' = s /\ dispatched st' = [].
Proof.
  intros Hfree Hzero. rewrite Hlocked in Hfree. rewrite Hreleased in Hzero.
  destruct lk; simpl in *; try discriminate.
  destruct Hinv as [_ [_ Hholders _ _] _ _ _ Hpristine _ _ _ _].
  destruct (Hpristine Hfree Hzero) as [HS HD].
  pose proof (holder_locks st p c Hholders Hc) as Hheld.
  rewrite Hstorage, Hdispatched. unfold storage_after, dispatched_after.
  destruct ev as [|q r]; [now rewrite app_nil_r|].
  destruct (at_ c) eqn:Hat; try (now rewrite app_nil_r).
  unfold holds_mutex in Hheld. rewrite Hat in Hheld. specialize (Hheld eq_refl). congruence.
Qed.

Lemma burst_step_before :
  released st' = 0%nat -> tally past_release (calls st') = 0%nat.
Proof.
  intros Hzero. rewrite Hreleased in Hzero.
  assert (released st = 0%nat) as Hz by (destruct lk; simpl in *; lia).
  assert (tally past_release (calls st) = 0%nat) as Hnone by (now apply Hinv).
  pose proof (tally_zero past_release _ p c Hnone Hc) as Hwas.
  pose proof (burst_first _ _ _ _ _ _ _ Hintime Hc Htrans) as Hfirst.
  assert (past_release (moved c next) = false) as Hbecomes.
  { unfold past_release in *. simpl.
    destruct Htrans; subst ev; simpl in *;
      repeat match goal with H : at_ c = _ |- _ => rewrite H in *; clear H end;
      try reflexivity; try discriminate.
    - destruct Hfirst as [request Hreq]. congruence.
    - destruct Hfirst as [H401 _]. congruence. }
  rewrite Hcalls.
  assert (calls_after lk (calls st) = calls st) as -> by (destruct lk; simpl in *; [auto..|lia]).
  pose proof (tally_insert past_release _ p c (moved c next) Hc) as Ht.
  rewrite Hwas, Hbecomes in Ht. simpl in Ht. lia.
Qed.

Lemma burst_step_once : (released st' <= 1)%nat.
Proof.
  rewrite Hreleased. destruct lk; simpl; try apply Hinv.
  destruct (transition_give _ _ _ _ _ _ Htrans) as [Hh _].
  destruct (burst_holder e s st p c Hinv Hc Hh) as [_ ->]. lia.
Qed.

Lemma burst_step_after : released st' = 1%nat -> locked st' = false.
Proof.
  rewrite Hreleased, Hlocked. destruct lk; simpl; try reflexivity.
  - apply Hinv.
  - intros Hone. pose proof (burst_first _ _ _ _ _ _ _ Hintime Hc Htrans) as Hfirst.
    inversion Htrans; subst.
    match goal with H : at_ c = First |- _ => rewrite H in Hfirst end.
    destruct Hfirst as [_ Hz]. congruence.
Qed.

Lemma burst_step_other (q : nat) (cq : call) :
  p <> q -> calls st' !! q = Some cq ->
  history_ok e s (storage st') (dispatched st') cq (sent_by q st') (heard_by q st').
Proof.
  intros Hne Hq.
  rewrite (sent_by_after st st' p q out Hwire), (heard_by_after st st' ev q Hheard).
  assert (match ev with Resume _ => [] | Response p' r => if decide (q = p') then [r] else [] end
          = @nil QueryResult) as ->.
  { destruct Htrans; subst ev; try reflexivity; now rewrite decide_False by congruence. }
  rewrite decide_False, !app_nil_r by congruence.
  rewrite Hcalls, list_lookup_insert_ne in Hq by assumption.
  apply lookup_after_other in Hq as (x & Hx & Hcq).
  assert (history_ok e s (storage st) (dispatched st) x (sent_by q st) (heard_by q st)) as Hh
    by (now apply Hinv).
  assert (history_ok e s (storage st') (dispatched st') x (sent_by q st) (heard_by q st)) as Hh'.
  { rewrite Hstorage, Hdispatched. unfold storage_after, dispatched_after.
    destruct ev as [|p' r]; [now rewrite app_nil_r|].
    destruct (at_ c) eqn:Hat; try (now rewrite app_nil_r).
    assert (holds_mutex c = true) as Hhold by (unfold holds_mutex; now rewrite Hat).
    destruct (burst_holder e s st p c Hinv Hc Hhold) as [_ Hz].
    apply history_ok_frame with (storage st) (dispatched st); [| |assumption].
    - destruct (holds_mutex x) eqn:Hhx; [|reflexivity].
      exfalso. apply Hne. eapply (holder_unique st p q c x); eauto. apply Hinv.
    - eapply tally_zero; [|exact Hx]. now apply Hinv. }
  destruct Hcq as [-> | (_ & -> & _)]; [assumption | now apply history_ok_wake].
Qed.

Lemma burst_step_self :
  history_ok e s (storage st') (dispatched st') (moved c next) (sent_by p st') (heard_by p st').
Proof.
  rewrite (sent_by_after st st' p p out Hwire), (heard_by_after st st' ev p Hheard).
  rewrite decide_True by reflexivity.
  rewrite Hstorage, Hdispatched.
  pose proof burst_history as Hh.
  pose proof (burst_first _ _ _ _ _ _ _ Hintime Hc Htrans) as Hfirst.
  pose proof (burst_refresh e s st p c) as Hrefresh.
  assert (env st = e) as He by apply Hinv.
  assert (locked st = false -> released st = 0%nat ->
          storage st = s /\ dispatched st = []) as Hpristine by apply Hinv.
  unfold history_ok, storage_after, dispatched_after in *. simpl.
  destruct Htrans; subst ev; rewrite ?decide_True by reflexivity;
    repeat match goal with H : at_ c = _ |- _ => rewrite H in *; clear H end;
    repeat match goal with H : refresh_succeeded _ = _ |- _ => rewrite H in * end;
    rewrite ?app_nil_r; rewrite ?He in *.
  all: try assumption.
  - destruct Hh as [-> ->]. exists request.
    split; [eapply baseQuery_request_args; eauto|]. split; reflexivity.
  - destruct Hfirst as [request Hreq]. congruence.
  - destruct Hh as (request0 & Hargs & H401 & -> & -> & HS & HD). rewrite HS in *.
    exists request0, request. auto 10.
  - destruct (Hrefresh result Hinv Hc eq_refl) as (_ & _ & request & Hreq). congruence.
  - destruct Hh as (request0 & r & Hargs & H401 & -> & ->).
    exists request0, request, r. auto 10.
  - destruct Hh as (request0 & r & Hargs & H401 & -> & ->).
    exists request0, r. auto 10.
  - destruct Hh as (request0 & r & Hargs & H401 & Hreq & -> & ->).
    right. exists request0, r. split; [assumption|]. split; [assumption|].
    unfold retry_outcome. rewrite Hreq. auto.
  - destruct Hh as (request0 & refresh & r & rr & Hargs & H401 & Href & Hok & HS & HD
                    & Hreq & -> & ->).
    left. exists request0, refresh, r, rr. split; [assumption|]. split; [assumption|].
    split; [assumption|]. rewrite Hok. split; [assumption|]. split; [assumption|].
    unfold retry_outcome. rewrite Hreq. auto.
  - destruct Hh as (request0 & Hargs & -> & ->). exists request0, r. auto.
  - destruct Hh as (request0 & Hargs & -> & ->). destruct Hfirst as [_ Hz].
    destruct (Hpristine ltac:(assumption) Hz) as [HS HD].
    exists request0. auto 10.
  - destruct Hfirst as [H401 _]. congruence.
  - destruct Hh as (request0 & refresh & Hargs & H401 & Href & -> & -> & HS & HD).
    rewrite HS, HD in *. exists request0, refresh, request, result, r. auto 12.
  - destruct Hh as (request0 & refresh & Hargs & H401 & Href & -> & -> & HS & HD).
    rewrite HS, HD in *. exists request0, refresh, result, r. auto 12.
  - destruct Hh as (request0 & refresh & Hargs & H401 & Href & -> & -> & HS & HD).
    rewrite HS, HD in *.
    left. exists request0, refresh, result, r. split; [assumption|]. split; [assumption|].
    split; [assumption|].
    match goal with H : refresh_succeeded r = false |- _ => rewrite H end.
    rewrite (returned_401 result H401). auto 10.
  - destruct Hh as (request0 & refresh & retry & r0 & rr & Hargs & H401 & Href & Hok & HS & HD
                    & Hreq & -> & ->).
    left. exists request0, refresh, r0, rr. split; [assumption|]. split; [assumption|].
    split; [assumption|]. rewrite Hok. split; [assumption|]. split; [assumption|].
    unfold retry_outcome. rewrite Hreq. exists r. auto.
  - destruct Hh as (request0 & retry & r0 & Hargs & H401 & Hreq & -> & ->).
    right. exists request0, r0. split; [assumption|]. split; [assumption|].
    unfold retry_outcome. rewrite Hreq. exists r. auto.
Qed.

End burst_step.

Lemma burst_inv_step (e : ImportMetaEnv) (s : gmap string string) (ev : event)
    (st st' : state) :
  step ev st = Some st' -> arrives_in_time ev st = true ->
  burst_inv e s st -> burst_inv e s st'.
Proof.
  intros Hstep Hintime Hinv.
  destruct (step_inv ev st st' Hstep)
    as (p & c & next & out & lk & Hc & Htrans & Hcalls & Hlocked & Hreleased & Hwire
        & Henv & Hstorage & Hheard & Hdispatched & _).
  split.
  - rewrite Henv. apply Hinv.
  - eapply flight_inv_step; eauto. apply Hinv.
  - eapply burst_step_refreshed; eauto.
  - eapply burst_step_unsent; eauto.
  - eapply burst_step_built; eauto.
  - eapply burst_step_pristine; eauto.
  - eapply burst_step_before; eauto.
  - eapply burst_step_once; eauto.
  - eapply burst_step_after; eauto.
  - intros q cq Hq. destruct (decide (p = q)) as [<-|Hne].
    + assert (cq = moved c next) as ->.
      { rewrite Hcalls, list_lookup_insert_eq in Hq; [congruence|].
        destruct lk; simpl; rewrite ?length_map; eapply lookup_lt_Some; eauto. }
      eapply burst_step_self; eauto.
    + eapply burst_step_other; eauto.
Qed.

Lemma burst_inv_run (e : ImportMetaEnv) (s : gmap string string) (schedule : list event)
    (st st' : state) :
  run schedule st = Some st' -> simultaneous_401 schedule st = true ->
  burst_inv e s st -> burst_inv e s st'.
Proof.
  revert st. induction schedule as [|ev rest IH]; simpl; intros st Hrun Hsim Hinv.
  - now injection Hrun as <-.
  - destruct (step ev st) as [st1|] eqn:Hstep; [|discriminate].
    apply andb_true_iff in Hsim as [Hintime Hsim].
    apply (IH st1 Hrun Hsim). eauto using burst_inv_step.
Qed.

(** The calls keep their arguments, and only they send. *)
Lemma step_args (ev : event) (st st' : state) :
  step ev st = Some st' -> map args (calls st') = map args (calls st).
Proof.
  intros Hstep.
  destruct (step_inv ev st st' Hstep) as (p & c & next & out & lk & Hc & Htrans & -> & _).
  destruct (transition_not_blocked _ _ _ _ _ _ _ Htrans) as [Hnb _].
  apply list_eq. intros q. rewrite !list_lookup_fmap.
  destruct (decide (p = q)) as [<-|Hne].
  - rewrite list_lookup_insert_eq, Hc; [reflexivity|].
    destruct lk; simpl; rewrite ?length_map; eapply lookup_lt_Some; eauto.
  - rewrite list_lookup_insert_ne by assumption.
    destruct lk; simpl; try reflexivity.
    rewrite lookup_map_wake. destruct (calls st !! q) as [x|]; simpl; [|reflexivity].
    now rewrite args_wake.
Qed.

Lemma run_args (schedule : list event) (e : ImportMetaEnv) (s : gmap string string)
    (requests : list FetchArgs) (st : state) :
  run schedule (init e s requests) = Some st -> map args (calls st) = requests.
Proof.
  assert (map args (calls (init e s requests)) = requests) as Hinit.
  { simpl. rewrite map_map. simpl. apply map_id. }
  revert Hinit. generalize (init e s requests). intros st0.
  revert st0. induction schedule as [|ev rest IH]; simpl; intros st0 Hok Hrun.
  - now injection Hrun as <-.
  - destruct (step ev st0) as [st1|] eqn:Hstep; [|discriminate].
    apply (IH st1); [|assumption]. now rewrite (step_args ev st0 st1 Hstep).
Qed.

Lemma wire_senders (schedule : list event) (e : ImportMetaEnv) (s : gmap string string)
    (requests : list FetchArgs) (st : state) (p : nat) (request : Request) :
  run schedule (init e s requests) = Some st ->
  (p, request) ∈ wire st -> exists c, calls st !! p = Some c.
Proof.
  assert (forall q r, (q, r) ∈ wire (init e s requests) ->
                      (q < length (calls (init e s requests)))%nat) as Hinit.
  { simpl. intros q r Hin. now apply elem_of_nil in Hin. }
  intros Hrun Hin. apply lookup_lt_is_Some.
  revert Hinit Hrun p request Hin. generalize (init e s requests). intros st0.
  revert st0. induction schedule as [|ev rest IH]; simpl; intros st0 Hok Hrun.
  - injection Hrun as <-. exact Hok.
  - destruct (step ev st0) as [st1|] eqn:Hstep; [|discriminate].
    apply (IH st1); [|assumption].
    intros q r Hin. rewrite (step_length ev st0 st1 Hstep).
    destruct (step_inv ev st0 st1 Hstep)
      as (p & c & next & out & lk & Hc & _ & _ & _ & _ & Hwire & _).
    rewrite Hwire in Hin. apply elem_of_app in Hin as [Hin|Hin]; [eauto|].
    apply list_elem_of_fmap in Hin as (r' & [= -> ->] & _).
    eapply lookup_lt_Some; eauto.
Qed.

(** What a call that waited has sent are its own requests. *)
Lemma waiter_done_sent (e : ImportMetaEnv) (S : gmap string string) (a : FetchArgs)
    (sent : list Request) (got : list QueryResult) (outcome : completion QueryResult)
    (request : Request) :
  waiter_done e S a sent got outcome -> request ∈ sent -> req_args request = a.
Proof.
  intros (request0 & r & Hargs & _ & Hretry) Hin. unfold retry_outcome in Hretry.
  destruct (baseQuery_request e S a) as [retry|] eqn:Hreq.
  - destruct Hretry as (r' & -> & _). apply baseQuery_request_args in Hreq.
    apply elem_of_cons in Hin as [-> | Hin]; [assumption|].
    apply list_elem_of_singleton in Hin as ->. assumption.
  - destruct Hretry as (-> & _). apply list_elem_of_singleton in Hin as ->. assumption.
Qed.

(** The call that refreshed has made the refresh call. *)
Lemma leader_done_sent (e : ImportMetaEnv) (s S : gmap string string) (D : list action)
    (a : FetchArgs) (sent : list Request) (got : list QueryResult)
    (outcome : completion QueryResult) :
  leader_done e s S D a sent got outcome ->
  exists refresh, baseQuery_request e s (refresh_args s) = Normal refresh /\ refresh ∈ sent.
Proof.
  intros (request & refresh & r & rr & _ & _ & Href & Hcases).
  exists refresh. split; [assumption|].
  destruct (refresh_succeeded rr).
  - destruct Hcases as (_ & _ & Hretry). unfold retry_outcome in Hretry.
    destruct (baseQuery_request e S a).
    + destruct Hretry as (r' & -> & _). set_solver.
    + destruct Hretry as (-> & _). set_solver.
  - destruct Hcases as (_ & _ & -> & _). set_solver.
Qed.




(** The condition on the arrival of the 401s is needed: a 401 that is
    heard after the mutex has been released starts a refresh of its own. *)
Example late_401_refreshes_again :
  let start := init Examples.env0 Examples.logged_in Examples.two_calls in
  simultaneous_401 Examples.late_schedule start = false
  /\ all_finished (final_state Examples.late_schedule start) = true
  /\ length (refresh_calls (final_state Examples.late_schedule start)) = 2%nat.
Proof. intros start. repeat match goal with |- _ /\ _ => split end; vm_compute; reflexivity. Qed.

(** Claim C2: along any run every call sends its own request at most twice
    and the refresh call at most once; a call whose retry after a
    successful refresh is answered by 401 again returns that 401: the step
    puts nothing on the wire, dispatches nothing, shows nothing and frees
    the mutex, and no later event makes the call send anything more. *)
Theorem retry_once (e : ImportMetaEnv) (s : gmap string string) (requests : list FetchArgs)
    (schedule : list event) (st : state) :
  run schedule (init e s requests) = Some st ->
  (forall p c,
      calls st !! p = Some c ->
      trace p st = [] \/ trace p st = [args c]
      \/ (exists sr, trace p st = [args c; refresh_args sr])
      \/ (exists sr, trace p st = [args c; refresh_args sr; args c])
      \/ trace p st = [args c; args c])
  /\ (forall p c body,
        calls st !! p = Some c -> at_ c = RetryLeader ->
        let unauthorized := ErrorResult (HttpError 401 body) in
        exists st1,
          step (Response p unauthorized) st = Some st1
          /\ calls st1 !! p = Some (moved c (Finished (Normal unauthorized)))
          /\ wire st1 = wire st /\ dispatched st1 = dispatched st
          /\ shown st1 = shown st /\ locked st1 = false
          /\ forall ev st2,
               step ev st1 = Some st2 ->
               calls st2 !! p = calls st1 !! p /\ trace p st2 = trace p st1).
Proof.
  intros Hrun. split.
  - intros p c Hc.
    pose proof (traces_ok_run schedule _ st Hrun (traces_ok_init e s requests) p c Hc)
      as Htrace.
    unfold trace_ok in Htrace.
    destruct (at_ c) as [| | | | | | | | | |[]|]; tauto.
  - intros p c body Hc Hat unauthorized.
    assert (p < length (calls st))%nat as Hlt by (eapply lookup_lt_Some; eauto).
    exists (set_pc p c (Finished (Normal unauthorized)) (release (hear p unauthorized st))).
    split.
    { unfold step. rewrite Hc, Hat. now rewrite finish_401. }
    split.
    { simpl. apply list_lookup_insert_eq. now rewrite length_map. }
    repeat (split; [reflexivity|]).
    intros ev st2 Hstep.
    assert (calls (set_pc p c (Finished (Normal unauthorized))
                     (release (hear p unauthorized st))) !! p
            = Some (moved c (Finished (Normal unauthorized)))) as Hdone.
    { simpl. apply list_lookup_insert_eq. now rewrite length_map. }
    destruct (finished_stays ev _ st2 p _ (Normal unauthorized) Hdone eq_refl Hstep)
      as [Hsame Htrace].
    split; [congruence | assumption].
Qed.

Lemma retry_once_witness :
  exists st,
    run Examples.rejected_twice_schedule
        (init Examples.env0 Examples.logged_in [Examples.get_playlists]) = Some st
    /\ calls st !! 0%nat
       = Some {| args := Examples.get_playlists;
                 at_ := Finished (Normal Examples.unauthorized) |}
    /\ (trace 0 st = [] \/ trace 0 st = [Examples.get_playlists]
        \/ (exists sr, trace 0 st = [Examples.get_playlists; refresh_args sr])
        \/ (exists sr, trace 0 st
                       = [Examples.get_playlists; refresh_args sr; Examples.get_playlists])
        \/ trace 0 st = [Examples.get_playlists; Examples.get_playlists]).
Proof.
  set (start := init Examples.env0 Examples.logged_in [Examples.get_playlists]).
  exists (final_state Examples.rejected_twice_schedule start).
  assert (run Examples.rejected_twice_schedule start
          = Some (final_state Examples.rejected_twice_schedule start)) as Hrun
    by (vm_compute; reflexivity).
  assert (calls (final_state Examples.rejected_twice_schedule start) !! 0%nat
          = Some {| args := Examples.get_playlists;
                    at_ := Finished (Normal Examples.unauthorized) |}) as Hcall
    by (vm_compute; reflexivity).
  split; [exact Hrun|]. split; [exact Hcall|].
  destruct (retry_once Examples.env0 Examples.logged_in [Examples.get_playlists]
              Examples.rejected_twice_schedule _ Hrun) as [Hshape _].
  exact (Hshape 0%nat _ Hcall).
Defined.

(** ** When the refresh fails *)

Lemma lookup_insert_wake (l : list call) (p q : nat) (c' cq : call) :
  l !! q = Some cq -> p <> q -> <[p := c']> (map wake l) !! q = Some (wake cq).
Proof.
  intros Hq Hne. rewrite list_lookup_insert_ne by assumption.
  rewrite lookup_map_wake, Hq. reflexivity.
Qed.

(** [handleErrors] of this lesson throws on exactly one kind of error, a
    400 or 403 whose [errors] array starts with [null]. *)
Lemma handleErrors_throws (error : FetchBaseQueryError) :
  Auth.handleErrors error = TypeError <->
  exists code props rest,
    error = HttpError code (JObj props) /\ (code = 400 \/ code = 403)
    /\ get_prop "errors" props = Some (JArr (JNull :: rest)).
Proof.
  split.
  - unfold Auth.handleErrors.
    destruct (Auth.switch_status (status error)) eqn:Harm;
      try discriminate; try (repeat case_match; discriminate).
    + destruct error as [code body| | | |]; try discriminate. simpl in *.
      destruct (isErrorWithDetailArray body) as [[|]|] eqn:Hguard;
        try discriminate; try (destruct (includes _ _); discriminate).
      intros _. apply isErrorWithDetailArray_throws in Hguard as (props & rest & -> & Herrors).
      exists code, props, rest. repeat split; [|assumption].
      unfold Auth.switch_status in Harm.
      destruct (code =? 400) eqn:H400; [left; lia|]. repeat case_match; discriminate.
    + destruct error as [code body| | | |]; try discriminate. simpl in *.
      destruct (isErrorWithDetailArray body) as [[|]|] eqn:Hguard; try discriminate.
      intros _. apply isErrorWithDetailArray_throws in Hguard as (props & rest & -> & Herrors).
      exists code, props, rest. repeat split; [|assumption].
      unfold Auth.switch_status in Harm.
      destruct (code =? 400) eqn:H400; [discriminate|].
      destruct (code =? 403) eqn:H403; [right; lia|]. repeat case_match; discriminate.
  - intros (code & props & rest & -> & [-> | ->] & Herrors);
      unfold Auth.handleErrors; simpl; now rewrite Herrors.
Qed.

(** What a call returns for the result it ends with: a 401 and data as
    they are; any other error after [handleErrors] has run, unless that
    throws. *)
Lemma returned_spec (r : QueryResult) :
  (is_401 r = true \/ (exists d, r = DataResult d) -> returned r = Normal r /\ effects_of r = [])
  /\ (returned r = Normal r \/ returned r = TypeError)
  /\ (returned r = TypeError <->
      exists code props rest,
        r = ErrorResult (HttpError code (JObj props)) /\ (code = 400 \/ code = 403)
        /\ get_prop "errors" props = Some (JArr (JNull :: rest))).
Proof.
  unfold returned, effects_of. split; [|split].
  - intros [H401 | [d ->]]; [|auto]. destruct r as [d|err]; [discriminate|].
    now rewrite H401.
  - destruct r as [d|err]; [auto|]. destruct (is_401 (ErrorResult err)); [auto|].
    destruct (Auth.handleErrors err); auto.
  - destruct r as [d|err].
    { split; [discriminate | intros (? & ? & ? & ? & _); discriminate]. }
    destruct (is_401 (ErrorResult err)) eqn:H401.
    + split; [discriminate|]. intros (code & props & rest & [= ->] & [-> | ->] & _); discriminate.
    + destruct (Auth.handleErrors err) eqn:Hh.
      * split; [discriminate|]. intros (code & props & rest & [= ->] & Hcode & Herrors).
        assert (Auth.handleErrors (HttpError code (JObj props)) = TypeError) as Hthrows
          by (apply handleErrors_throws; eauto 10).
        congruence.
      * split; [|reflexivity]. intros _.
        apply handleErrors_throws in Hh as (code & props & rest & -> & Hcode & Herrors).
        eauto 10.
Qed.

(** Claim C3, as amended: when the refresh response carries no token pair,
    the call that refreshed dispatches the logout mutation once, frees the
    mutex and returns its original 401 without sending anything more and
    without touching the storage; every call that waited is woken and
    sends its request once more, with what is stored, and whatever
    response that retry gets ends the call the way any result does: a 401
    or data is returned as it is, another error is returned after
    [handleErrors] has shown it, and the call throws when [handleErrors]
    throws (a 400 or 403 whose [errors] array starts with [null]).  The
    logout mutation removes both tokens and resets the API state when its
    own request is fulfilled, and changes nothing when it is not. *)
Theorem refresh_failure (e : ImportMetaEnv) (s : gmap string string)
    (requests : list FetchArgs) (schedule : list event) (st : state) (p : nat) (c : call)
    (result r : QueryResult) :
  run schedule (init e s requests) = Some st ->
  calls st !! p = Some c -> at_ c = Refreshing result -> refresh_succeeded r = false ->
  (exists st1,
      step (Response p r) st = Some st1
      /\ is_401 result = true
      /\ calls st1 !! p = Some (moved c (Finished (Normal result)))
      /\ dispatched st1 = (dispatched st ++ [LogoutInitiate])%list
      /\ wire st1 = wire st /\ storage st1 = storage st
      /\ shown st1 = shown st /\ locked st1 = false
      /\ forall q cq,
           calls st !! q = Some cq -> at_ cq = Blocked1 ->
           calls st1 !! q = Some (moved cq Unlocked1)
           /\ exists st2 retry,
                step (Resume q) st1 = Some st2
                /\ baseQuery_request (env st1) (storage st1) (args cq) = Normal retry
                /\ wire st2 = (wire st1 ++ [(q, retry)])%list
                /\ calls st2 !! q = Some (moved cq RetryWaiter)
                /\ forall r',
                     exists st3,
                       step (Response q r') st2 = Some st3
                       /\ calls st3 !! q = Some (moved cq (Finished (returned r')))
                       /\ shown st3 = (shown st2 ++ effects_of r')%list
                       /\ wire st3 = wire st2 /\ dispatched st3 = dispatched st2
                       /\ storage st3 = storage st2)
  /\ (forall r',
        (is_401 r' = true \/ (exists d, r' = DataResult d) ->
         returned r' = Normal r' /\ effects_of r' = [])
        /\ (returned r' = Normal r' \/ returned r' = TypeError)
        /\ (returned r' = TypeError <->
            exists code props rest,
              r' = ErrorResult (HttpError code (JObj props)) /\ (code = 400 \/ code = 403)
              /\ get_prop "errors" props = Some (JArr (JNull :: rest))))
  /\ (forall outcome pg,
        (queryFulfilled outcome = true ->
         getItem AUTH_KEYS.accessToken (page_storage (logout_onQueryStarted outcome pg)) = None
         /\ getItem AUTH_KEYS.refreshToken (page_storage (logout_onQueryStarted outcome pg)) = None
         /\ page_api (logout_onQueryStarted outcome pg) = ∅)
        /\ (queryFulfilled outcome = false -> logout_onQueryStarted outcome pg = pg)).
Proof.
  intros Hrun Hc Hat Hfailed. split; [|split; [apply returned_spec|]].
  - pose proof (results_ok_run schedule e s requests st Hrun p c Hc) as H401.
    unfold kept_401 in H401. rewrite Hat in H401.
    destruct (can_send_run schedule e s requests st Hrun) as [_ Hcan].
    assert (valid_headers (env st) (storage st) = true) as Hvalid.
    { apply baseQuery_headers_valid. apply (Hcan p c Hc). unfold is_refreshing. now rewrite Hat. }
    assert (p < length (calls st))%nat as Hlt by (eapply lookup_lt_Some; eauto).
    exists (set_pc p c (Finished (Normal result))
              (release (dispatch LogoutInitiate (hear p r st)))).
    split.
    { unfold step. rewrite Hc, Hat, Hfailed. now rewrite finish_401. }
    split; [assumption|]. split.
    { simpl. apply list_lookup_insert_eq. now rewrite length_map. }
    repeat (split; [reflexivity|]).
    intros q cq Hq Hatq.
    assert (p <> q) as Hne by (intros ->; congruence).
    assert (wake cq = moved cq Unlocked1) as Hwake by (unfold wake; now rewrite Hatq).
    assert (q < length (calls st))%nat as Hltq by (eapply lookup_lt_Some; eauto).
    split.
    { simpl. rewrite (lookup_insert_wake _ p q _ cq Hq Hne). now rewrite Hwake. }
    destruct (baseQuery_request_valid (env st) (storage st) (args cq) Hvalid) as [retry Hretry].
    eexists _, retry. split.
    { unfold step. simpl calls. rewrite (lookup_insert_wake _ p q _ cq Hq Hne), Hwake.
      simpl. unfold call_baseQuery. simpl. rewrite Hretry. reflexivity. }
    split; [exact Hretry|]. split; [reflexivity|]. split.
    { simpl. apply list_lookup_insert_eq. now rewrite length_insert, length_map. }
    intros r'. eexists. split.
    { unfold step. simpl calls. rewrite list_lookup_insert_eq
        by now rewrite length_insert, length_map.
      simpl. reflexivity. }
    rewrite finish_calls, finish_shown.
    match goal with
    | |- context [finish ?q0 ?c0 ?r0 ?s0] =>
        destruct (finish_frame q0 c0 r0 s0) as (_ & -> & _ & -> & -> & _)
    end.
    split.
    { simpl. apply list_lookup_insert_eq. now rewrite !length_insert, length_map. }
    repeat split; reflexivity.
  - intros outcome pg. unfold logout_onQueryStarted. split; intros ->; [|reflexivity].
    simpl. unfold getItem, removeItem. split; [|split; [|reflexivity]].
    + rewrite lookup_delete_ne by discriminate. apply lookup_delete_eq.
    + apply lookup_delete_eq.
Qed.

Lemma refresh_failure_witness :
  exists st st1,
    run Examples.refreshing_schedule
        (init Examples.env0 Examples.logged_in Examples.two_calls) = Some st
    /\ calls st !! 1%nat
       = Some {| args := Examples.get_me; at_ := Refreshing Examples.unauthorized |}
    /\ refresh_succeeded Examples.refresh_rejected = false
    /\ step (Response 1 Examples.refresh_rejected) st = Some st1
    /\ dispatched st1 = (dispatched st ++ [LogoutInitiate])%list
    /\ storage st1 = storage st.
Proof.
  set (start := init Examples.env0 Examples.logged_in Examples.two_calls).
  exists (final_state Examples.refreshing_schedule start).
  assert (run Examples.refreshing_schedule start
          = Some (final_state Examples.refreshing_schedule start)) as Hrun
    by (vm_compute; reflexivity).
  assert (calls (final_state Examples.refreshing_schedule start) !! 1%nat
          = Some {| args := Examples.get_me; at_ := Refreshing Examples.unauthorized |})
    as Hcall by (vm_compute; reflexivity).
  assert (refresh_succeeded Examples.refresh_rejected = false) as Hfailed by reflexivity.
  destruct (refresh_failure Examples.env0 Examples.logged_in Examples.two_calls
              Examples.refreshing_schedule _ 1 _ Examples.unauthorized
              Examples.refresh_rejected Hrun Hcall eq_refl Hfailed)
    as [(st1 & Hstep & _ & _ & Hdispatched & _ & Hstorage & _) _].
  exists st1. repeat (split; [assumption|]). assumption.
Defined.

(** Claim C3, as stated, fails on a page with two calls whose refresh is
    rejected: the call that waited does send its request again, and when
    that retry is answered it returns the data, not an Unauthorized
    result; both tokens are still in the storage when the calls have
    returned, and the dispatched logout leaves them there if its own
    request is rejected. *)
Lemma rejected_refresh_waiter_retries :
  exists st,
    run Examples.rejected_schedule
        (init Examples.env0 Examples.logged_in Examples.two_calls) = Some st
    /\ all_finished st = true
    /\ map (fun entry => (fst entry, url (req_args (snd entry)))) (wire st)
       = [(0%nat, "playlists"); (1%nat, "auth/me"); (1%nat, "/auth/refresh");
          (0%nat, "playlists")]
    /\ dispatched st = [LogoutInitiate]
    /\ calls st !! 0%nat
       = Some {| args := Examples.get_playlists;
                 at_ := Finished (Normal (Examples.ok "playlists")) |}
    /\ getItem AUTH_KEYS.accessToken (storage st) = Some "A1"
    /\ getItem AUTH_KEYS.refreshToken (storage st) = Some "R1"
    /\ getItem AUTH_KEYS.accessToken
         (page_storage (logout_onQueryStarted (Normal Examples.unauthorized)
                          {| page_storage := storage st; page_api := ∅ |}))
       = Some "A1".
Proof.
  exists (final_state Examples.rejected_schedule
            (init Examples.env0 Examples.logged_in Examples.two_calls)).
  repeat match goal with |- _ /\ _ => split end; vm_compute; reflexivity.
Qed.

(** ** Which errors of the request layer are shown *)

Lemma handleErrors_400 (body : json) :
  Auth.handleErrors (HttpError 400 body)
  = match isErrorWithDetailArray body with
    | Normal true =>
        if includes (first_detail body) "refreshToken" then Normal []
        else Normal [Toast (trimToMaxLength (first_detail body))]
    | Normal false => Normal [Toast (JSON_stringify body)]
    | TypeError => TypeError
    end.
Proof.
  unfold Auth.handleErrors. simpl.
  destruct (isErrorWithDetailArray body) as [[|]|]; reflexivity.
Qed.

(** The response to a call's own request ends the call. *)
Lemma own_response (st : state) (p : nat) (c : call) (r : QueryResult) :
  calls st !! p = Some c -> awaits_own c = true -> is_401 r = false ->
  exists st1,
    step (Response p r) st = Some st1
    /\ calls st1 !! p = Some (moved c (Finished (returned r)))
    /\ shown st1 = (shown st ++ effects_of r)%list
    /\ wire st1 = wire st /\ dispatched st1 = dispatched st /\ storage st1 = storage st.
Proof.
  intros Hc Hown H401.
  assert (p < length (calls st))%nat as Hlt by (eapply lookup_lt_Some; eauto).
  unfold awaits_own in Hown. unfold step. rewrite Hc.
  destruct (at_ c); try discriminate; rewrite ?H401;
    (eexists; split; [reflexivity|]);
    rewrite finish_calls, finish_shown;
    match goal with
    | |- context [finish ?q0 ?c0 ?r0 ?s0] =>
        destruct (finish_frame q0 c0 r0 s0) as (_ & -> & _ & -> & -> & _)
    end;
    (split; [simpl; apply list_lookup_insert_eq; now rewrite ?length_map|]);
    repeat split; reflexivity.
Qed.

(** Claim C7, as amended: the response of the refresh call never reaches
    [handleErrors], so nothing is shown for it whatever its status, and a
    response without a token pair makes the call dispatch the logout.  A
    400 that answers a call's own request ends the call through
    [handleErrors]: with the error-array shape it is returned, hidden when
    the first detail contains "refreshToken" and shown as the trimmed
    detail otherwise; when the [errors] array starts with [null] nothing
    is shown and the call throws; any other body is returned and shown
    serialized. *)
Theorem refresh_token_errors_hidden (e : ImportMetaEnv) (s : gmap string string)
    (requests : list FetchArgs) (schedule : list event) (st : state) :
  run schedule (init e s requests) = Some st ->
  (forall p c result r,
      calls st !! p = Some c -> at_ c = Refreshing result ->
      exists st1,
        step (Response p r) st = Some st1
        /\ shown st1 = shown st
        /\ (refresh_succeeded r = false ->
            dispatched st1 = (dispatched st ++ [LogoutInitiate])%list /\ wire st1 = wire st))
  /\ (forall p c body,
        calls st !! p = Some c -> awaits_own c = true ->
        let bad_request := ErrorResult (HttpError 400 body) in
        exists st1 outcome,
          step (Response p bad_request) st = Some st1
          /\ calls st1 !! p = Some (moved c (Finished outcome))
          /\ (forall props item rest detail,
                body = JObj props ->
                get_prop "errors" props = Some (JArr (JObj item :: rest)) ->
                get_prop "detail" item = Some (JStr detail) ->
                outcome = Normal bad_request
                /\ shown st1
                   = (shown st
                      ++ if includes detail "refreshToken" then []
                         else [Toast (trimToMaxLength detail)])%list)
          /\ (forall props rest,
                body = JObj props ->
                get_prop "errors" props = Some (JArr (JNull :: rest)) ->
                outcome = TypeError /\ shown st1 = shown st)
          /\ (isErrorWithDetailArray body = Normal false ->
              outcome = Normal bad_request
              /\ shown st1 = (shown st ++ [Toast (JSON_stringify body)])%list)).
Proof.
  intros Hrun. split.
  - intros p c result r Hc Hat.
    pose proof (results_ok_run schedule e s requests st Hrun p c Hc) as H401.
    unfold kept_401 in H401. rewrite Hat in H401.
    unfold step. rewrite Hc, Hat.
    destruct (refresh_succeeded r) eqn:Hok.
    + unfold call_baseQuery. case_match;
        (eexists; split; [reflexivity|]); (split; [reflexivity | discriminate]).
    + rewrite finish_401 by assumption.
      eexists. split; [reflexivity|]. split; [reflexivity|]. intros _. split; reflexivity.
  - intros p c body Hc Hown bad_request.
    destruct (own_response st p c bad_request Hc Hown eq_refl)
      as (st1 & Hstep & Hcalls & Hshown & _).
    exists st1, (returned bad_request). split; [assumption|]. split; [assumption|].
    rewrite Hshown. unfold returned, effects_of, bad_request.
    replace (is_401 (ErrorResult (HttpError 400 body))) with false by reflexivity.
    rewrite handleErrors_400.
    split; [|split].
    + intros props item rest detail -> Herrors Hdetail.
      assert (isErrorWithDetailArray (JObj props) = Normal true) as ->
        by (apply isErrorWithDetailArray_true; eauto 10).
      rewrite (first_detail_narrowed props item item rest detail Herrors Hdetail).
      destruct (includes detail "refreshToken"); auto.
    + intros props rest -> Herrors.
      assert (isErrorWithDetailArray (JObj props) = TypeError) as ->
        by (apply isErrorWithDetailArray_throws; eauto).
      split; [reflexivity | apply app_nil_r].
    + intros ->. auto.
Qed.

Lemma refresh_token_errors_hidden_witness :
  exists st st1,
    run Examples.refreshing_schedule
        (init Examples.env0 Examples.logged_in Examples.two_calls) = Some st
    /\ calls st !! 1%nat
       = Some {| args := Examples.get_me; at_ := Refreshing Examples.unauthorized |}
    /\ step (Response 1 Examples.refresh_rejected) st = Some st1
    /\ shown st1 = shown st.
Proof.
  set (start := init Examples.env0 Examples.logged_in Examples.two_calls).
  exists (final_state Examples.refreshing_schedule start).
  assert (run Examples.refreshing_schedule start
          = Some (final_state Examples.refreshing_schedule start)) as Hrun
    by (vm_compute; reflexivity).
  assert (calls (final_state Examples.refreshing_schedule start) !! 1%nat
          = Some {| args := Examples.get_me; at_ := Refreshing Examples.unauthorized |})
    as Hcall by (vm_compute; reflexivity).
  destruct (refresh_token_errors_hidden Examples.env0 Examples.logged_in Examples.two_calls
              Examples.refreshing_schedule _ Hrun) as [Hrefresh _].
  destruct (Hrefresh 1%nat _ Examples.unauthorized Examples.refresh_rejected Hcall eq_refl)
    as (st1 & Hstep & Hshown & _).
  exists st1. repeat (split; [assumption|]). assumption.
Defined.

(** Claim C7, as stated, fails for the logout request: it is not a refresh
    call, yet its 400 is not shown, because the detail of the error
    mentions the refresh token.  The handler of the lesson before showed it. *)
Lemma logout_400_is_hidden :
  exists st,
    run Examples.logout_schedule
        (init Examples.env0 Examples.logged_in [logout_query Examples.logged_in]) = Some st
    /\ targets_refresh (logout_query Examples.logged_in) = false
    /\ refresh_calls st = []
    /\ calls st !! 0%nat
       = Some {| args := logout_query Examples.logged_in;
                 at_ := Finished (Normal Examples.refresh_rejected) |}
    /\ shown st = []
    /\ user_sees (ErrorHandling.handleErrors (HttpError 400 Examples.refresh_rejected_body))
       = ["refreshToken must be a string; Received value: null"].
Proof.
  exists (final_state Examples.logout_schedule
            (init Examples.env0 Examples.logged_in [logout_query Examples.logged_in])).
  repeat match goal with |- _ /\ _ => split end; vm_compute; reflexivity.
Qed.

(** ** The headers of the requests on the wire *)

(** What [Headers] makes of a value. *)
Example normalize_padded : normalize "Bearer A1 " = "Bearer A1".
Proof. reflexivity. Qed.

Example padded_token_is_trimmed :
  authorization_for Examples.padded_token = Some "Bearer A1"
  /\ valid_headers Examples.env0 Examples.padded_token = true.
Proof. split; vm_compute; reflexivity. Qed.

Example broken_token_sends_nothing :
  valid_headers Examples.env0 Examples.broken_token = false
  /\ baseQuery_request Examples.env0 Examples.broken_token Examples.get_playlists = TypeError
  /\ final_state [Resume 0; Resume 0; Resume 0]
       (init Examples.env0 Examples.broken_token [Examples.get_playlists])
     = {| env := Examples.env0; storage := Examples.broken_token; locked := false;
          calls := [{| args := Examples.get_playlists; at_ := Finished TypeError |}];
          wire := []; heard := []; dispatched := []; shown := []; released := 0 |}.
Proof. repeat match goal with |- _ /\ _ => split end; vm_compute; reflexivity. Qed.

(** A step sends at most one request, built from what is stored after
    the step. *)
Lemma step_sends (ev : event) (st st' : state) :
  step ev st = Some st' ->
  wire st' = wire st
  \/ exists p a request,
       wire st' = (wire st ++ [(p, request)])%list
       /\ baseQuery_request (env st) (storage st') a = Normal request.
Proof.
  intros Hstep.
  destruct (step_inv ev st st' Hstep)
    as (p & c & next & out & lk & Hc & Htrans & _ & _ & _ & Hwire & _ & Hstorage & _).
  rewrite Hwire, Hstorage. unfold storage_after.
  destruct Htrans; subst ev; simpl; rewrite ?app_nil_r; auto;
    repeat match goal with H : at_ c = _ |- _ => rewrite H end;
    repeat match goal with H : refresh_succeeded _ = _ |- _ => rewrite H end;
    right; eauto.
Qed.

(** A step whose request cannot be put together sends nothing. *)
Lemma step_sends_nothing (ev : event) (st st' : state) :
  step ev st = Some st' -> valid_headers (env st) (storage st') = false -> wire st' = wire st.
Proof.
  intros Hstep Hinvalid.
  destruct (step_sends ev st st' Hstep) as [Hsame | (p & a & request & _ & Hreq)];
    [assumption|].
  apply baseQuery_request_sent in Hreq. congruence.
Qed.

(** Claim C4, as amended: every request the coordinator puts on the wire
    carries the API key and, exactly when the storage holds a non-empty
    access token at that time, the header [Authorization] with the value
    "Bearer <token>" as [Headers] normalizes it; it carries no
    [Authorization] header when no token is stored or the stored token is
    the empty string.  When the API key or "Bearer <token>" is no header
    value once normalized, no request goes out: [baseQuery] rejects. *)
Theorem wire_authorization (ev : event) (st st' : state) :
  step ev st = Some st' ->
  (wire st' = wire st
   \/ exists p request,
        wire st' = (wire st ++ [(p, request)])%list
        /\ valid_headers (env st) (storage st') = true
        /\ req_headers request !! "Authorization" = authorization_for (storage st')
        /\ req_headers request !! "API-KEY" = Some (normalize (VITE_API_KEY (env st))))
  /\ (valid_headers (env st) (storage st') = false -> wire st' = wire st)
  /\ forall e s a,
       match baseQuery_request e s a with
       | Normal request =>
           valid_headers e s = true
           /\ req_args request = a
           /\ req_headers request !! "Authorization" = authorization_for s
           /\ req_headers request !! "API-KEY" = Some (normalize (VITE_API_KEY e))
       | TypeError => valid_headers e s = false
       end.
Proof.
  intros Hstep.
  assert (forall e s a,
            match baseQuery_request e s a with
            | Normal request =>
                valid_headers e s = true
                /\ req_args request = a
                /\ req_headers request !! "Authorization" = authorization_for s
                /\ req_headers request !! "API-KEY" = Some (normalize (VITE_API_KEY e))
            | TypeError => valid_headers e s = false
            end) as Hbuilt.
  { intros e s a. pose proof (baseQuery_request_spec e s a) as Hspec.
    destruct (baseQuery_request e s a) as [request|]; [|assumption].
    destruct Hspec as (Hvalid & _ & Hargs & Hheaders).
    destruct (baseQuery_headers_authorization e s _ Hheaders). auto. }
  split; [|split; [intros Hinvalid; eapply step_sends_nothing; eauto | exact Hbuilt]].
  destruct (step_sends ev st st' Hstep) as [Hsame | (p & a & request & Hwire & Hreq)];
    [left; assumption|].
  right. exists p, request. split; [assumption|].
  specialize (Hbuilt (env st) (storage st') a). rewrite Hreq in Hbuilt. tauto.
Qed.

Lemma wire_authorization_witness :
  exists st' request,
    step (Resume 0) (Examples.one_call_unlocked Examples.padded_token) = Some st'
    /\ wire st' = [(0%nat, request)]
    /\ req_headers request !! "Authorization" = Some "Bearer A1".
Proof.
  set (st := Examples.one_call_unlocked Examples.padded_token).
  set (st' := final_state [Resume 0%nat] st).
  assert (step (Resume 0) st = Some st') as Hstep by (vm_compute; reflexivity).
  destruct (wire_authorization (Resume 0) st st' Hstep) as ([Hsame | Hsent] & _).
  - exfalso. vm_compute in Hsame. discriminate.
  - destruct Hsent as (p & request & Hwire & _ & Hauth & _).
    exists st', request. split; [exact Hstep|].
    assert (p = 0%nat) as -> by (vm_compute in Hwire; congruence).
    split; [exact Hwire|]. rewrite Hauth. vm_compute. reflexivity.
Defined.

(** Claim C4, as stated, fails when the stored access token is the empty
    string: the token is present in the storage, yet the request goes out
    without an [Authorization] header. *)
Lemma empty_access_token_sends_no_header :
  getItem AUTH_KEYS.accessToken Examples.empty_token = Some EmptyString
  /\ exists st' request,
       step (Resume 0) (Examples.one_call_unlocked Examples.empty_token) = Some st'
       /\ wire st' = [(0%nat, request)]
       /\ req_headers request !! "Authorization" = None.
Proof.
  split; [reflexivity|].
  exists (final_state [Resume 0%nat] (Examples.one_call_unlocked Examples.empty_token)).
  eexists. split; [vm_compute; reflexivity|]. split; vm_compute; reflexivity.
Qed.

(** ** The token pair of a refresh response *)

Lemma isTokens_spec (d : json) :
  isTokens d = true <->
  exists props a r,
    d = JObj props /\ get_prop "accessToken" props = Some a
    /\ get_prop "refreshToken" props = Some r.
Proof.
  unfold isTokens. rewrite !andb_true_iff, !has_prop_spec. split.
  - intros [[_ (props & a & -> & Ha)] (props' & r & Heq & Hr)].
    injection Heq as <-. eauto 10.
  - intros (props & a & r & -> & Ha & Hr). repeat split; eauto.
Qed.

Lemma store_tokens_reads (props : list (string * json)) (a r : json) (s : gmap string string) :
  get_prop "accessToken" props = Some a ->
  get_prop "refreshToken" props = Some r ->
  getItem AUTH_KEYS.accessToken (store_tokens (JObj props) s) = Some (ToString a)
  /\ getItem AUTH_KEYS.refreshToken (store_tokens (JObj props) s) = Some (ToString r).
Proof.
  intros Ha Hr. unfold store_tokens, token_text, getItem, setItem. rewrite Ha, Hr. split.
  - rewrite lookup_insert_ne by discriminate. apply lookup_insert_eq.
  - apply lookup_insert_eq.
Qed.

(** What the call that awaits the refresh does with an accepted answer:
    it stores the string form of both values and makes its request again
    with what is stored. *)
Lemma refreshed_step (st : state) (p : nat) (c : call) (result : QueryResult)
    (props : list (string * json)) (a r : json) :
  calls st !! p = Some c ->
  at_ c = Refreshing result ->
  get_prop "accessToken" props = Some a ->
  get_prop "refreshToken" props = Some r ->
  exists st',
    step (Response p (DataResult (JObj props))) st = Some st'
    /\ getItem AUTH_KEYS.accessToken (storage st') = Some (ToString a)
    /\ getItem AUTH_KEYS.refreshToken (storage st') = Some (ToString r)
    /\ (forall k,
          k <> AUTH_KEYS.accessToken -> k <> AUTH_KEYS.refreshToken ->
          storage st' !! k = storage st !! k)
    /\ dispatched st' = dispatched st
    /\ match baseQuery_request (env st) (storage st') (args c) with
       | Normal retry =>
           wire st' = (wire st ++ [(p, retry)])%list
           /\ calls st' = <[p := {| args := args c; at_ := RetryLeader |}]> (calls st)
           /\ req_args retry = args c
           /\ req_headers retry !! "Authorization"
              = (if String.eqb (ToString a) EmptyString then None
                 else Some (normalize ("Bearer " +:+ ToString a)))
       | TypeError =>
           wire st' = wire st
           /\ calls st' = <[p := {| args := args c; at_ := Throwing true |}]> (calls st)
           /\ valid_headers (env st) (storage st') = false
       end.
Proof.
  intros Hcall Hat Ha Hr.
  assert (isTokens (JObj props) = true) as Htokens by (apply isTokens_spec; eauto 10).
  destruct (store_tokens_reads props a r (storage st) Ha Hr) as [Haccess Hrefresh].
  unfold step. rewrite Hcall, Hat. unfold refresh_succeeded. rewrite Htokens. simpl.
  unfold call_baseQuery. simpl.
  pose proof (baseQuery_request_spec (env st) (store_tokens (JObj props) (storage st)) (args c))
    as Hspec.
  destruct (baseQuery_request (env st) (store_tokens (JObj props) (storage st)) (args c))
    as [retry|] eqn:Hretry;
    (eexists; split; [reflexivity|]); simpl; rewrite ?Hretry;
    (split; [assumption|]); (split; [assumption|]);
    (split; [intros k Hk1 Hk2; unfold store_tokens, setItem;
             now rewrite !lookup_insert_ne by congruence|]);
    (split; [reflexivity|]).
  - destruct Hspec as (_ & _ & Hargs & Hheaders).
    destruct (baseQuery_headers_authorization _ _ _ Hheaders) as [Hauth _].
    repeat (split; [reflexivity || assumption|]).
    rewrite Hauth. unfold authorization_for. now rewrite Haccess.
  - auto.
Qed.




(** ** Optimistic update and its rollback *)

Import Optimistic.

Lemma undo_updateQueryData (arg : FetchPlaylistsArgs)
    (recipe : PlaylistsResponse -> PlaylistsResponse)
    (cache : gmap FetchPlaylistsArgs PlaylistsResponse) :
  undo (snd (updateQueryData arg recipe cache)) (fst (updateQueryData arg recipe cache)) = cache.
Proof.
  unfold updateQueryData, undo. destruct (cache !! arg) as [snapshot|] eqn:Hentry; simpl.
  - rewrite insert_insert_eq. now apply insert_id.
  - reflexivity.
Qed.

Lemma undo_commute (first second : PatchResult)
    (cache : gmap FetchPlaylistsArgs PlaylistsResponse) :
  key first <> key second ->
  undo first (undo second cache) = undo second (undo first cache).
Proof.
  intros Hne. unfold undo.
  destruct (previousSnapshot first), (previousSnapshot second); try reflexivity.
  now apply insert_insert_ne.
Qed.

Lemma undo_all_commute (patchResults : list PatchResult) (first : PatchResult)
    (cache : gmap FetchPlaylistsArgs PlaylistsResponse) :
  Forall (fun other => key first <> key other) patchResults ->
  undo_all patchResults (undo first cache) = undo first (undo_all patchResults cache).
Proof.
  revert cache. induction patchResults as [|other rest IH]; intros cache Hkeys; simpl.
  - reflexivity.
  - inversion Hkeys as [|? ? Hother Hrest]; subst.
    rewrite <- (undo_commute first other) by assumption. now apply IH.
Qed.

Lemma patch_all_keys (playlistId : string) (body : UpdatePlaylistArgs)
    (args : list FetchPlaylistsArgs) (cache : gmap FetchPlaylistsArgs PlaylistsResponse) :
  map key (snd (patch_all playlistId body args cache)) = map patch_arg args.
Proof.
  revert cache. induction args as [|arg rest IH]; intros cache; simpl; [reflexivity|].
  unfold updateQueryData.
  destruct (cache !! patch_arg arg) as [snapshot|]; simpl;
    match goal with
    | |- context [patch_all playlistId body rest ?c] =>
        specialize (IH c); destruct (patch_all playlistId body rest c) as [cache2 patchResults]
    end; simpl in *; now rewrite IH.
Qed.

(** When the patched arguments are pairwise different, undoing the
    patches in the order they were made gives the cache back. *)
Lemma undo_all_patch_all (playlistId : string) (body : UpdatePlaylistArgs)
    (args : list FetchPlaylistsArgs) (cache : gmap FetchPlaylistsArgs PlaylistsResponse) :
  NoDup (map patch_arg args) ->
  undo_all (snd (patch_all playlistId body args cache))
           (fst (patch_all playlistId body args cache)) = cache.
Proof.
  revert cache. induction args as [|arg rest IH]; intros cache Hdistinct; simpl; [reflexivity|].
  change (NoDup (patch_arg arg :: map patch_arg rest)) in Hdistinct.
  apply NoDup_cons in Hdistinct as [Hfresh Hdistinct].
  pose proof (undo_updateQueryData (patch_arg arg) (updateRecipe playlistId body) cache) as Hone.
  destruct (updateQueryData (patch_arg arg) (updateRecipe playlistId body) cache)
    as [cache1 patchResult] eqn:Hpatch.
  assert (key patchResult = patch_arg arg) as Hkey.
  { unfold updateQueryData in Hpatch.
    destruct (cache !! patch_arg arg); injection Hpatch as <- <-; reflexivity. }
  specialize (IH cache1 Hdistinct).
  pose proof (patch_all_keys playlistId body rest cache1) as Hkeys.
  destruct (patch_all playlistId body rest cache1) as [cache2 patchResults]. simpl in *.
  rewrite undo_all_commute.
  - now rewrite IH.
  - apply Forall_forall. intros other Hin Heq. apply Hfresh.
    rewrite <- Hkeys, <- Hkey, Heq. now apply list_elem_of_fmap_2.
Qed.

Lemma onQueryStarted_rollback (playlistId : string) (body : UpdatePlaylistArgs)
    (cache : gmap FetchPlaylistsArgs PlaylistsResponse) :
  NoDup (map patch_arg (selectCachedArgsForQuery cache)) ->
  onQueryStarted playlistId body false cache = cache.
Proof.
  intros Hdistinct. unfold onQueryStarted.
  pose proof (undo_all_patch_all playlistId body _ cache Hdistinct) as Hundo.
  now destruct (patch_all playlistId body (selectCachedArgsForQuery cache) cache).
Qed.

Lemma updateQueryData_other (arg k : FetchPlaylistsArgs)
    (recipe : PlaylistsResponse -> PlaylistsResponse)
    (cache : gmap FetchPlaylistsArgs PlaylistsResponse) :
  arg <> k -> fst (updateQueryData arg recipe cache) !! k = cache !! k.
Proof.
  intros Hne. unfold updateQueryData. destruct (cache !! arg); simpl; [|reflexivity].
  now apply lookup_insert_ne.
Qed.

Lemma updateQueryData_same (arg : FetchPlaylistsArgs)
    (recipe : PlaylistsResponse -> PlaylistsResponse)
    (cache : gmap FetchPlaylistsArgs PlaylistsResponse) :
  fst (updateQueryData arg recipe cache) !! arg = recipe <$> cache !! arg.
Proof.
  unfold updateQueryData. destruct (cache !! arg) eqn:Hentry; simpl.
  - now rewrite lookup_insert_eq.
  - now rewrite Hentry.
Qed.

(** What the patch loop leaves under a key, when the patched arguments
    are pairwise different. *)
Lemma patch_all_lookup (playlistId : string) (body : UpdatePlaylistArgs)
    (args : list FetchPlaylistsArgs) (cache : gmap FetchPlaylistsArgs PlaylistsResponse)
    (k : FetchPlaylistsArgs) :
  NoDup (map patch_arg args) ->
  fst (patch_all playlistId body args cache) !! k
  = if decide (k ∈ map patch_arg args)
    then updateRecipe playlistId body <$> cache !! k
    else cache !! k.
Proof.
  revert cache. induction args as [|arg rest IH]; intros cache Hdistinct;
    cbn [patch_all map].
  - rewrite decide_False by apply not_elem_of_nil. reflexivity.
  - change (NoDup (patch_arg arg :: map patch_arg rest)) in Hdistinct.
    apply NoDup_cons in Hdistinct as [Hfresh Hdistinct].
    pose proof (updateQueryData_other (patch_arg arg) k (updateRecipe playlistId body) cache)
      as Hother.
    pose proof (updateQueryData_same (patch_arg arg) (updateRecipe playlistId body) cache)
      as Hsame.
    destruct (updateQueryData (patch_arg arg) (updateRecipe playlistId body) cache)
      as [cache1 patchResult]. cbn [fst] in *.
    specialize (IH cache1 Hdistinct).
    destruct (patch_all playlistId body rest cache1) as [cache2 patchResults]. cbn [fst] in *.
    rewrite IH.
    destruct (decide (k = patch_arg arg)) as [->|Hk].
    + rewrite decide_False by exact Hfresh. rewrite decide_True by apply list_elem_of_here.
      exact Hsame.
    + rewrite Hother by congruence.
      destruct (decide (k ∈ map patch_arg rest)) as [Hin|Hout].
      * rewrite decide_True by now apply list_elem_of_further. reflexivity.
      * rewrite decide_False; [reflexivity|].
        intros [Heq|Hin]%elem_of_cons; contradiction.
Qed.

Lemma patch_all_other (playlistId : string) (body : UpdatePlaylistArgs)
    (args : list FetchPlaylistsArgs) (cache : gmap FetchPlaylistsArgs PlaylistsResponse)
    (k : FetchPlaylistsArgs) :
  k ∉ map patch_arg args -> fst (patch_all playlistId body args cache) !! k = cache !! k.
Proof.
  revert cache. induction args as [|arg rest IH]; intros cache Hout; simpl; [reflexivity|].
  change (k ∉ patch_arg arg :: map patch_arg rest) in Hout.
  apply not_elem_of_cons in Hout as [Hne Hout].
  pose proof (updateQueryData_other (patch_arg arg) k (updateRecipe playlistId body) cache)
    as Hother.
  destruct (updateQueryData (patch_arg arg) (updateRecipe playlistId body) cache)
    as [cache1 patchResult]. simpl in *.
  specialize (IH cache1 Hout).
  destruct (patch_all playlistId body rest cache1) as [cache2 patchResults]. simpl in *.
  rewrite IH. apply Hother. congruence.
Qed.

Lemma undo_all_other (patchResults : list PatchResult)
    (cache : gmap FetchPlaylistsArgs PlaylistsResponse) (k : FetchPlaylistsArgs) :
  k ∉ map key patchResults -> undo_all patchResults cache !! k = cache !! k.
Proof.
  revert cache. induction patchResults as [|first rest IH]; intros cache Hout; simpl;
    [reflexivity|].
  change (k ∉ key first :: map key rest) in Hout.
  apply not_elem_of_cons in Hout as [Hne Hout].
  unfold undo_all in IH. rewrite (IH _ Hout). unfold undo.
  destruct (previousSnapshot first); [|reflexivity].
  apply lookup_insert_ne. congruence.
Qed.




(** * Further properties of the snippets *)

(** ** [common/utils] *)

(** Property X1.
    [trimToMaxLength] with any limit of at least three: the result never
    exceeds the limit; a string within the limit comes back unchanged, and
    a longer one becomes its first [maxLength - 3] code units followed by
    three dots, exactly [maxLength] long. *)
Theorem trimToMaxLength_with_fits (str : string) (maxLength : Z) :
  3 <= maxLength ->
  Z.of_nat (String.length (trimToMaxLength_with str maxLength)) <= maxLength
  /\ (Z.of_nat (String.length str) <= maxLength -> trimToMaxLength_with str maxLength = str)
  /\ (maxLength < Z.of_nat (String.length str) ->
      trimToMaxLength_with str maxLength
      = substring 0 (Z.to_nat (maxLength - 3)) str +:+ "..."
      /\ Z.of_nat (String.length (trimToMaxLength_with str maxLength)) = maxLength).
Proof.
  intros Hmax. unfold trimToMaxLength_with.
  destruct (Z.of_nat (String.length str) >? maxLength) eqn:Hgt.
  - assert (maxLength < Z.of_nat (String.length str)) as Hlong by lia.
    rewrite slice_prefix by lia.
    assert (Z.of_nat (String.length (substring 0 (Z.to_nat (maxLength - 3)) str +:+ "..."))
            = maxLength) as Hlen.
    { rewrite length_append, length_substring_prefix by lia. simpl. lia. }
    split; [lia|]. split; [lia|]. intros _. split; [reflexivity | exact Hlen].
  - split; [lia|]. split; [reflexivity | lia].
Qed.

Lemma trimToMaxLength_with_fits_witness :
  3 <= 8
  /\ Z.of_nat (String.length (trimToMaxLength_with "0123456789" 8)) <= 8.
Proof. split; [lia | apply (trimToMaxLength_with_fits "0123456789" 8); lia]. Defined.

(** Property X2.
    The first guard of the lesson and its generalisation agree:
    [isErrorWithMessage(error)] is [isErrorWithProperty(error, "message")]
    on every value, and when it holds the narrowed [error.message] is the
    string stored under that key. *)
Theorem isErrorWithMessage_generalised (error : json) :
  TypeGuards.isErrorWithMessage error = isErrorWithProperty error "message"
  /\ (TypeGuards.isErrorWithMessage error = true ->
      exists props, error = JObj props
                    /\ get_prop "message" props = Some (JStr (property_text error "message"))).
Proof.
  unfold TypeGuards.isErrorWithMessage, isErrorWithProperty, property_text.
  destruct error as [| | | | |props]; simpl; try (split; [reflexivity | discriminate]).
  destruct (get_prop "message" props) as [[| | |s| |]|] eqn:Hmessage; simpl;
    rewrite ?andb_false_r; try (split; [reflexivity | discriminate]).
  split; [reflexivity | intros _; eauto].
Qed.

(** ** [handleErrors] of the lesson "Error Handling" *)

(** Property X3.
    [handleErrors] throws on exactly one kind of error, a 400 or 403 whose
    body is an object with a non-empty [errors] array that starts with
    [null]; on every other error it returns after showing exactly one toast. *)
Theorem handleErrors_one_toast (error : FetchBaseQueryError) :
  (ErrorHandling.handleErrors error = TypeError <->
   exists code props rest,
     error = HttpError code (JObj props) /\ (code = 400 \/ code = 403)
     /\ get_prop "errors" props = Some (JArr (JNull :: rest)))
  /\ (forall effects,
        ErrorHandling.handleErrors error = Normal effects ->
        exists message, toasts effects = [message]).
Proof.
  assert (forall body effects,
            match isErrorWithDetailArray body with
            | Normal true => Normal (errorToast (trimToMaxLength (first_detail body)) None)
            | Normal false => Normal (errorToast (JSON_stringify body) None)
            | TypeError => TypeError
            end = Normal effects -> exists message, toasts effects = [message]) as Harm.
  { intros body effects. destruct (isErrorWithDetailArray body) as [[|]|];
      intros H; try discriminate; injection H as <-; eexists; reflexivity. }
  split.
  - split.
    + unfold ErrorHandling.handleErrors.
      destruct (ErrorHandling.switch_status (status error)) eqn:Harm';
        try discriminate; try (repeat case_match; discriminate).
      destruct error as [code body| | | |]; try discriminate. simpl in *.
      destruct (isErrorWithDetailArray body) as [[|]|] eqn:Hguard; try discriminate.
      intros _. apply isErrorWithDetailArray_throws in Hguard as (props & rest & -> & Herrors).
      exists code, props, rest. repeat split; [|assumption].
      unfold ErrorHandling.switch_status in Harm'.
      destruct (code =? 400) eqn:H400; [left; lia|].
      destruct (code =? 403) eqn:H403; [right; lia|].
      simpl in Harm'. repeat case_match; discriminate.
    + intros (code & props & rest & -> & Hcode & Herrors).
      unfold ErrorHandling.handleErrors. simpl status.
      rewrite switch_status_400_403 by assumption. simpl. now rewrite Herrors.
  - intros effects. unfold ErrorHandling.handleErrors.
    destruct (ErrorHandling.switch_status (status error)).
    + intros H; injection H as <-; eexists; reflexivity.
    + apply Harm.
    + case_match; intros Hret; injection Hret as <-; eexists; reflexivity.
    + case_match; intros Hret; injection Hret as <-; eexists; reflexivity.
    + intros H; injection H as <-; eexists; reflexivity.
    + intros H; injection H as <-; eexists; reflexivity.
Qed.

(** ** [baseQueryWithReauth], whatever the timing of the responses *)

(** Property X4.
    Calls that do not target the refresh endpoint themselves never
    refresh at the same time, however their responses interleave: at any
    moment at most one call is between [acquire()] and [release()], the
    mutex is taken exactly while there is such a call, every entry into
    that section has made at most one refresh call (none yet while the
    call stands before it, and none at all when the refresh request could
    not be put together), every logout dispatched and every refresh
    response awaited has its refresh call on the wire, and once every call
    has returned the mutex is free. *)
Theorem refresh_never_overlaps (e : ImportMetaEnv) (s : gmap string string)
    (requests : list FetchArgs) (schedule : list event) (st : state) :
  Forall (fun a => targets_refresh a = false) requests ->
  run schedule (init e s requests) = Some st ->
  (tally holds_mutex (calls st) <= 1)%nat
  /\ (locked st = true <-> exists p c, calls st !! p = Some c /\ holds_mutex c = true)
  /\ (length (refresh_calls st) + tally is_acquired (calls st)
      <= released st + Nat.b2n (locked st))%nat
  /\ (length (dispatched st) + tally is_refreshing (calls st)
      <= length (refresh_calls st))%nat
  /\ (all_finished st = true ->
      locked st = false /\ (length (refresh_calls st) <= released st)%nat).
Proof.
  intros Hplain Hrun.
  destruct (flight_inv_run _ _ _ Hrun (flight_inv_init e s requests Hplain))
    as [_ Hholders Hrefreshes Hlogouts].
  unfold holder_inv in Hholders.
  destruct (mutex_inv_run _ _ _ Hrun (mutex_inv_init e s requests)) as [_ Hheld].
  split; [rewrite Hholders; destruct (locked st); simpl; lia|].
  split.
  { split; [exact Hheld|]. intros (p & c & Hc & Hhold).
    pose proof (tally_positive holds_mutex _ p c Hc Hhold) as Hpos.
    rewrite Hholders in Hpos. destruct (locked st); [reflexivity | simpl in Hpos; lia]. }
  split; [exact Hrefreshes|]. split; [exact Hlogouts|].
  intros Hall.
  assert (tally holds_mutex (calls st) = 0%nat) as Hnone.
  { apply tally_finished; [|exact Hall].
    intros c. unfold is_finished, holds_mutex. destruct (at_ c); auto; discriminate. }
  rewrite Hnone in *. destruct (locked st); simpl in *; [discriminate|].
  split; [reflexivity | lia].
Qed.

Lemma refresh_never_overlaps_witness :
  let start := init Examples.env0 Examples.logged_in Examples.two_calls in
  Forall (fun a => targets_refresh a = false) Examples.two_calls
  /\ run Examples.late_schedule start = Some (final_state Examples.late_schedule start)
  /\ (tally holds_mutex (calls (final_state Examples.late_schedule start)) <= 1)%nat.
Proof.
  intros start.
  assert (Forall (fun a => targets_refresh a = false) Examples.two_calls) as Hplain
    by (repeat constructor).
  assert (run Examples.late_schedule start = Some (final_state Examples.late_schedule start))
    as Hrun by (vm_compute; reflexivity).
  split; [exact Hplain|]. split; [exact Hrun|].
  apply (refresh_never_overlaps Examples.env0 Examples.logged_in Examples.two_calls
           Examples.late_schedule _ Hplain Hrun).
Defined.

(** A release without a refresh call: the first refresh stores an access
    token with a line break, so the retry of that call and, after the
    late 401 of the other call, the second refresh call cannot be put
    together; each [await] throws, and [finally] releases the mutex. *)
Example release_without_refresh_call :
  let start := init Examples.env0 Examples.logged_in Examples.two_calls in
  let final := final_state Examples.broken_refresh_schedule start in
  run Examples.broken_refresh_schedule start = Some final
  /\ all_finished final = true
  /\ released final = 2%nat
  /\ length (refresh_calls final) = 1%nat
  /\ length (wire final) = 3%nat
  /\ map at_ (calls final) = [Finished TypeError; Finished TypeError].
Proof.
  intros start final.
  repeat match goal with |- _ /\ _ => split end; vm_compute; reflexivity.
Qed.

(** What one step does to the storage: nothing, or the token pair of a
    successful refresh response is stored. *)
Lemma step_storage (ev : event) (st st' : state) :
  step ev st = Some st' ->
  env st' = env st
  /\ (storage st' = storage st
      \/ exists p r,
           ev = Response p r /\ refresh_succeeded r = true
           /\ storage st' = store_tokens (result_data r) (storage st)).
Proof.
  intros Hstep.
  destruct (step_inv ev st st' Hstep)
    as (p & c & next & out & lk & _ & Htrans & _ & _ & _ & _ & Henv & Hstorage & _).
  split; [assumption|]. rewrite Hstorage. unfold storage_after.
  destruct ev as [q|q r]; [auto|]. destruct (at_ c); auto.
  destruct (refresh_succeeded r) eqn:Hok; [right; eauto | auto].
Qed.

(** Property X5.
    [baseQueryWithReauth] writes to [localStorage] only the token pair of
    a successful refresh: along any run every key other than the two token
    keys keeps its value, and a run without a successful refresh response
    leaves the whole storage as it was (it never removes the tokens
    itself); [import.meta.env] is never changed. *)
Theorem storage_written_only_by_refresh (schedule : list event) (st st' : state) :
  run schedule st = Some st' ->
  env st' = env st
  /\ (forall k,
        k <> AUTH_KEYS.accessToken -> k <> AUTH_KEYS.refreshToken ->
        storage st' !! k = storage st !! k)
  /\ (no_refresh_succeeds schedule -> storage st' = storage st).
Proof.
  revert st. induction schedule as [|ev rest IH]; intros st Hrun; simpl in Hrun.
  - injection Hrun as <-. auto.
  - destruct (step ev st) as [st1|] eqn:Hstep; [|discriminate].
    destruct (IH st1 Hrun) as (Henv & Hkeys & Hsame).
    destruct (step_storage ev st st1 Hstep) as (Henv1 & Hstorage).
    split; [congruence|]. split.
    + intros k Haccess Hrefresh. rewrite (Hkeys k Haccess Hrefresh).
      destruct Hstorage as [-> | (p & r & _ & _ & ->)]; [reflexivity|].
      unfold store_tokens, setItem. now rewrite !lookup_insert_ne by congruence.
    + intros Hnone. apply Forall_cons in Hnone as [Hev Hrest].
      rewrite (Hsame Hrest).
      destruct Hstorage as [-> | (p & r & -> & Hok & _)]; [reflexivity | congruence].
Qed.

Lemma storage_written_only_by_refresh_witness :
  let start := init Examples.env0 Examples.logged_in Examples.two_calls in
  run Examples.rejected_schedule start = Some (final_state Examples.rejected_schedule start)
  /\ no_refresh_succeeds Examples.rejected_schedule
  /\ storage (final_state Examples.rejected_schedule start) = Examples.logged_in.
Proof.
  intros start.
  assert (run Examples.rejected_schedule start
          = Some (final_state Examples.rejected_schedule start)) as Hrun
    by (vm_compute; reflexivity).
  assert (no_refresh_succeeds Examples.rejected_schedule) as Hnone
    by (repeat constructor).
  split; [exact Hrun|]. split; [exact Hnone|].
  destruct (storage_written_only_by_refresh _ _ _ Hrun) as (_ & _ & Hsame).
  exact (Hsame Hnone).
Defined.

(** What one step does to the dispatched actions and the release counter. *)
Lemma step_dispatched (ev : event) (st st' : state) :
  step ev st = Some st' ->
  (dispatched st' = dispatched st /\ (released st <= released st')%nat)
  \/ (dispatched st' = (dispatched st ++ [LogoutInitiate])%list
      /\ released st' = S (released st)).
Proof.
  intros Hstep.
  destruct (step_inv ev st st' Hstep)
    as (p & c & next & out & lk & _ & Htrans & _ & _ & Hreleased & _ & _ & _ & _
        & Hdispatched & _).
  rewrite Hdispatched, Hreleased. unfold dispatched_after.
  destruct Htrans; subst ev; simpl;
    repeat match goal with H : at_ c = _ |- _ => rewrite H end;
    repeat match goal with H : refresh_succeeded _ = _ |- _ => rewrite H end;
    rewrite ?app_nil_r; auto.
Qed.

(** Property X6.
    Every logout the coordinator dispatches ends a critical section of
    its own: along any run the logouts dispatched never outnumber the
    releases of the mutex, nor therefore the refresh calls put on the wire;
    without a refresh call there is no logout. *)
Theorem logout_needs_a_refresh (e : ImportMetaEnv) (s : gmap string string)
    (requests : list FetchArgs) (schedule : list event) (st : state) :
  Forall (fun a => targets_refresh a = false) requests ->
  run schedule (init e s requests) = Some st ->
  (length (dispatched st) <= released st)%nat
  /\ (length (dispatched st) <= length (refresh_calls st))%nat
  /\ (refresh_calls st = [] -> dispatched st = []).
Proof.
  intros Hplain Hrun.
  assert (length (dispatched st) <= released st)%nat as Hcount.
  { assert (forall st0,
              run schedule st0 = Some st ->
              (length (dispatched st0) <= released st0)%nat ->
              (length (dispatched st) <= released st)%nat) as Hgen.
    { clear Hrun. induction schedule as [|ev rest IH]; intros st0 Hrun Hle; simpl in Hrun.
      - now injection Hrun as <-.
      - destruct (step ev st0) as [st1|] eqn:Hstep; [|discriminate].
        apply (IH st1 Hrun).
        destruct (step_dispatched ev st0 st1 Hstep) as [[-> Hmono] | [-> ->]];
          [lia | rewrite length_app; simpl; lia]. }
    apply (Hgen _ Hrun). simpl. lia. }
  destruct (flight_inv_run _ _ _ Hrun (flight_inv_init e s requests Hplain))
    as [_ _ _ Hlogouts].
  assert (length (dispatched st) <= length (refresh_calls st))%nat as Hcalls by lia.
  split; [exact Hcount|]. split; [exact Hcalls|].
  intros Hnone. rewrite Hnone in Hcalls. simpl in Hcalls.
  destruct (dispatched st); [reflexivity | simpl in Hcalls; lia].
Qed.

Lemma logout_needs_a_refresh_witness :
  let start := init Examples.env0 Examples.logged_in Examples.two_calls in
  Forall (fun a => targets_refresh a = false) Examples.two_calls
  /\ run Examples.rejected_schedule start = Some (final_state Examples.rejected_schedule start)
  /\ (length (dispatched (final_state Examples.rejected_schedule start))
      <= released (final_state Examples.rejected_schedule start))%nat.
Proof.
  intros start.
  assert (Forall (fun a => targets_refresh a = false) Examples.two_calls) as Hplain
    by (repeat constructor).
  assert (run Examples.rejected_schedule start
          = Some (final_state Examples.rejected_schedule start)) as Hrun
    by (vm_compute; reflexivity).
  split; [exact Hplain|]. split; [exact Hrun|].
  apply (logout_needs_a_refresh Examples.env0 Examples.logged_in Examples.two_calls
           Examples.rejected_schedule _ Hplain Hrun).
Defined.

(** A value that does not end in whitespace keeps its end, and one
    that starts with a letter its start. *)
Lemma strip_trailing_cons (c : ascii) (value : string) :
  value <> EmptyString -> strip_trailing value = value ->
  strip_trailing (String c value) = String c value.
Proof.
  intros Hne Hkept. cbn [strip_trailing]. rewrite Hkept.
  destruct value; [contradiction | reflexivity].
Qed.

Lemma normalize_bearer (token : string) :
  token <> EmptyString -> strip_trailing token = token ->
  normalize ("Bearer " +:+ token) = "Bearer " +:+ token.
Proof.
  intros Hne Hkept. unfold normalize. cbn [String.append strip_leading].
  replace (is_http_whitespace "B") with false by reflexivity.
  repeat (apply strip_trailing_cons; [first [discriminate | assumption]|]). assumption.
Qed.



(** ** Logging in and out *)

(** Property X8.
    A fulfilled [login] makes the page an authenticated one: with a
    response that carries a non-empty string [accessToken] and a string
    [refreshToken], the handler invalidates the ["Auth"] tag and stores
    the pair, a request made next carries the normalized
    [Authorization: Bearer <accessToken>] (the token as it is when it does
    not end in whitespace), and a later refresh or logout sends that
    [refreshToken]; a [login] that is not fulfilled changes nothing and
    invalidates nothing. *)
Theorem login_stores_credentials (pg : page) (props : list (string * json))
    (access refresh : string) (e : ImportMetaEnv) (a : FetchArgs) :
  get_prop "accessToken" props = Some (JStr access) ->
  get_prop "refreshToken" props = Some (JStr refresh) ->
  access <> EmptyString ->
  let started := Login.onQueryStarted (Normal (DataResult (JObj props))) pg in
  let stored := page_storage (Login.after started) in
  Login.invalidated started = ["Auth"]
  /\ page_api (Login.after started) = page_api pg
  /\ getItem AUTH_KEYS.accessToken stored = Some access
  /\ getItem AUTH_KEYS.refreshToken stored = Some refresh
  /\ (forall request,
        baseQuery_request e stored a = Normal request ->
        req_headers request !! "Authorization" = Some (normalize ("Bearer " +:+ access))
        /\ (strip_trailing access = access ->
            req_headers request !! "Authorization" = Some ("Bearer " +:+ access)))
  /\ (is_header_value (normalize (VITE_API_KEY e)) = true ->
      is_header_value (normalize ("Bearer " +:+ access)) = true ->
      exists request, baseQuery_request e stored a = Normal request)
  /\ body (refresh_args stored) = Some (JObj [("refreshToken", JStr refresh)])
  /\ body (logout_query stored) = Some (JObj [("refreshToken", JStr refresh)])
  /\ forall outcome,
       queryFulfilled outcome = false ->
       Login.onQueryStarted outcome pg = {| Login.after := pg; Login.invalidated := [] |}.
Proof.
  intros Haccess Hrefresh Hnonempty started stored. subst stored started.
  cbn [Login.onQueryStarted Login.after Login.invalidated page_storage page_api].
  destruct (store_tokens_reads props (JStr access) (JStr refresh) (page_storage pg)
              Haccess Hrefresh) as [Hstored_access Hstored_refresh].
  cbn [ToString] in Hstored_access, Hstored_refresh.
  assert (String.eqb access EmptyString = false) as Hne by now apply String.eqb_neq.
  split; [reflexivity|]. split; [reflexivity|].
  split; [assumption|]. split; [assumption|]. split.
  { intros request Hreq.
    pose proof (baseQuery_request_spec e (store_tokens (JObj props) (page_storage pg)) a)
      as Hspec.
    rewrite Hreq in Hspec. destruct Hspec as (_ & _ & _ & Hheaders).
    destruct (baseQuery_headers_authorization _ _ _ Hheaders) as [Hauth _].
    unfold authorization_for in Hauth. rewrite Hstored_access, Hne in Hauth.
    split; [assumption|]. intros Hkept. now rewrite Hauth, normalize_bearer. }
  split.
  { intros Hkey Hvalue. apply baseQuery_request_valid. unfold valid_headers.
    rewrite Hkey, Hstored_access, Hvalue. now rewrite orb_true_r. }
  split; [unfold refresh_args; simpl; now rewrite Hstored_refresh|].
  split; [unfold logout_query; simpl; now rewrite Hstored_refresh|].
  intros [[d|err]|]; simpl; try discriminate; reflexivity.
Qed.

Lemma login_stores_credentials_witness :
  getItem AUTH_KEYS.accessToken
    (page_storage
       (Login.after (Login.onQueryStarted (Normal Examples.fresh_tokens)
                       {| page_storage := ∅; page_api := ∅ |})))
  = Some "A2".
Proof.
  apply (login_stores_credentials {| page_storage := ∅; page_api := ∅ |}
           [("accessToken", JStr "A2"); ("refreshToken", JStr "R2")] "A2" "R2"
           Examples.env0 Examples.get_me); try reflexivity.
  discriminate.
Defined.

(** Property X9.
    Logging in and then out leaves no credentials behind: after a
    fulfilled [logout] neither token is stored, whatever the [login]
    response was, so requests carry no [Authorization] header; every other
    key of the storage is as before the login, and a storage that held no
    tokens before the login is restored exactly. *)
Theorem login_then_logout (pg : page) (d : json) (outcome : completion QueryResult)
    (e : ImportMetaEnv) (a : FetchArgs) :
  queryFulfilled outcome = true ->
  let logged_in := Login.after (Login.onQueryStarted (Normal (DataResult d)) pg) in
  let logged_out := logout_onQueryStarted outcome logged_in in
  getItem AUTH_KEYS.accessToken (page_storage logged_out) = None
  /\ getItem AUTH_KEYS.refreshToken (page_storage logged_out) = None
  /\ match baseQuery_request e (page_storage logged_out) a with
     | Normal request =>
         req_headers request !! "Authorization" = None /\ req_args request = a
     | TypeError => is_header_value (normalize (VITE_API_KEY e)) = false
     end
  /\ (forall k,
        k <> AUTH_KEYS.accessToken -> k <> AUTH_KEYS.refreshToken ->
        page_storage logged_out !! k = page_storage pg !! k)
  /\ (getItem AUTH_KEYS.accessToken (page_storage pg) = None ->
      getItem AUTH_KEYS.refreshToken (page_storage pg) = None ->
      page_storage logged_out = page_storage pg).
Proof.
  intros Hfulfilled logged_in logged_out. subst logged_out.
  unfold logout_onQueryStarted. rewrite Hfulfilled. cbn [page_storage].
  assert (forall k,
            k <> AUTH_KEYS.accessToken -> k <> AUTH_KEYS.refreshToken ->
            removeItem AUTH_KEYS.refreshToken
              (removeItem AUTH_KEYS.accessToken (page_storage logged_in)) !! k
            = page_storage pg !! k) as Hother.
  { intros k Haccess Hrefresh. unfold removeItem.
    rewrite !lookup_delete_ne by congruence.
    subst logged_in. destruct d; simpl; try reflexivity;
      unfold store_tokens, setItem; now rewrite !lookup_insert_ne by congruence. }
  assert (getItem AUTH_KEYS.accessToken
            (removeItem AUTH_KEYS.refreshToken
               (removeItem AUTH_KEYS.accessToken (page_storage logged_in))) = None) as Haccess.
  { unfold getItem, removeItem. rewrite lookup_delete_ne by discriminate.
    apply lookup_delete_eq. }
  assert (getItem AUTH_KEYS.refreshToken
            (removeItem AUTH_KEYS.refreshToken
               (removeItem AUTH_KEYS.accessToken (page_storage logged_in))) = None) as Hrefresh.
  { unfold getItem, removeItem. apply lookup_delete_eq. }
  split; [exact Haccess|]. split; [exact Hrefresh|]. split.
  { match goal with |- match baseQuery_request e ?s0 a with _ => _ end =>
      pose proof (baseQuery_request_spec e s0 a) as Hspec;
      destruct (baseQuery_request e s0 a) as [request|]
    end.
    - destruct Hspec as (_ & _ & Hargs & Hheaders).
      destruct (baseQuery_headers_authorization _ _ _ Hheaders) as [Hauth _].
      unfold authorization_for in Hauth. rewrite Haccess in Hauth. auto.
    - unfold valid_headers in Hspec. rewrite Haccess, andb_true_r in Hspec. exact Hspec. }
  split; [exact Hother|].
  intros Hno_access Hno_refresh. apply map_eq. intros k.
  destruct (decide (k = AUTH_KEYS.accessToken)) as [->|Hk1];
    [unfold getItem in *; congruence|].
  destruct (decide (k = AUTH_KEYS.refreshToken)) as [->|Hk2];
    [unfold getItem in *; congruence|].
  now apply Hother.
Qed.

Lemma login_then_logout_witness :
  queryFulfilled (Normal (DataResult JNull)) = true
  /\ page_storage
       (logout_onQueryStarted (Normal (DataResult JNull))
          (Login.after (Login.onQueryStarted (Normal Examples.fresh_tokens)
                          {| page_storage := ∅; page_api := ∅ |})))
     = ∅.
Proof.
  split; [reflexivity|].
  apply (login_then_logout {| page_storage := ∅; page_api := ∅ |}
           (JObj [("accessToken", JStr "A2"); ("refreshToken", JStr "R2")])
           (Normal (DataResult JNull)) Examples.env0 Examples.get_me); reflexivity.
Defined.

(** ** [Login.tsx]: the popup and its message *)

Lemma message_counts (domain : string) (event : Login.MessageEvent) (l : list string) :
  (length (omap (fun redirectUri => Login.receiveMessage domain redirectUri event) l)
   + length (filter (fun redirectUri => Login.receiveMessage domain redirectUri event = None) l)
   = length l)%nat.
Proof.
  induction l as [|x l IH]; simpl; [reflexivity|].
  rewrite filter_cons.
  case_decide as Hx.
  - rewrite Hx. simpl. unfold omap in IH. lia.
  - destruct (Login.receiveMessage domain x event); [unfold omap in IH; simpl; lia | congruence].
Qed.

Lemma receiveMessage_login (domain redirectUri : string) (event : Login.MessageEvent)
    (a : Login.LoginArgs) :
  Login.receiveMessage domain redirectUri event = Some a ->
  Login.origin event = domain
  /\ truthy (Login.code a) = true /\ Login.redirectUri a = redirectUri
  /\ Login.rememberMe a = false.
Proof.
  unfold Login.receiveMessage.
  destruct (String.eqb_spec (Login.origin event) domain) as [Horigin|_]; [|discriminate].
  simpl. destruct (Login.message_data event) as [| | | | |props]; try discriminate.
  destruct (get_prop "code" props) as [code|]; [|discriminate].
  destruct (truthy code) eqn:Hcode; [|discriminate].
  intros H. injection H as <-. auto.
Qed.

(** The state of the window that the login button maintains. *)
Lemma handle_invariant (domain base : string) (events : list Login.WindowEvent)
    (w : Login.Window) :
  Forall (fun redirectUri => redirectUri = domain +:+ Login.OAuthRedirect) (Login.listeners w) ->
  Forall (login_from domain) (Login.logins w) ->
  let w' := fold_left (Login.handle domain base) events w in
  (length (Login.logins w') + length (Login.listeners w')
   = length (Login.logins w) + length (Login.listeners w) + Login.clicks events)%nat
  /\ length (Login.popups w') = (length (Login.popups w) + Login.clicks events)%nat
  /\ Forall (login_from domain) (Login.logins w')
  /\ (foreign_messages domain events -> Login.logins w' = Login.logins w).
Proof.
  revert w. induction events as [|ev rest IH]; intros w Hlisteners Hlogins; simpl.
  - repeat split; auto; lia.
  - destruct ev as [|event]; simpl.
    + destruct (IH (Login.loginHandler domain base w)) as (Hcount & Hpopups & Hgood & Hforeign).
      * simpl. apply Forall_app. split; [assumption | repeat constructor].
      * assumption.
      * simpl in *. rewrite !length_app in *. simpl in *.
        split; [lia|]. split; [lia|]. split; [assumption|].
        intros Hall. apply Forall_cons in Hall as [_ Hall]. auto.
    + destruct (IH (Login.message domain event w)) as (Hcount & Hpopups & Hgood & Hforeign).
      * simpl. apply Forall_forall. intros x [_ Hx]%list_elem_of_filter.
        rewrite Forall_forall in Hlisteners. auto.
      * simpl. apply Forall_app. split; [assumption|].
        apply Forall_forall. intros a Ha.
        apply list_elem_of_omap in Ha as (redirectUri & Hin & Hlogin).
        apply receiveMessage_login in Hlogin as (_ & Hcode & Hredirect & Hremember).
        rewrite Forall_forall in Hlisteners. specialize (Hlisteners _ Hin).
        unfold login_from. rewrite Hredirect. auto.
      * simpl in *. rewrite length_app in Hcount.
        pose proof (message_counts domain event (Login.listeners w)) as Hsplit.
        split; [lia|]. split; [lia|]. split; [assumption|].
        intros Hall. apply Forall_cons in Hall as [Horigin Hall].
        rewrite (Hforeign Hall).
        assert (omap (fun redirectUri => Login.receiveMessage domain redirectUri event)
                     (Login.listeners w) = []) as ->; [|apply app_nil_r].
        clear -Horigin. induction (Login.listeners w) as [|x l IHl]; simpl; [reflexivity|].
        destruct (Login.receiveMessage domain x event) as [a|] eqn:Hx; [|exact IHl].
        apply receiveMessage_login in Hx as (Hsame & _). contradiction.
Qed.

(** Property X10.
    Each click on the login button leads to at most one [login] call:
    after any sequence of clicks and messages the calls made and the
    listeners still subscribed add up to the number of clicks, one popup
    was opened per click, every call carries a truthy code together with
    this application's redirect address, and messages from other origins
    never cause a call. *)
Theorem one_login_per_click (domain base : string) (events : list Login.WindowEvent) :
  let w := fold_left (Login.handle domain base) events fresh_window in
  (length (Login.logins w) + length (Login.listeners w) = Login.clicks events)%nat
  /\ length (Login.popups w) = Login.clicks events
  /\ Forall (login_from domain) (Login.logins w)
  /\ (foreign_messages domain events -> Login.logins w = []).
Proof.
  exact (handle_invariant domain base events fresh_window
           (List.Forall_nil _) (List.Forall_nil _)).
Qed.

(** ** The optimistic update, entry by entry *)

Lemma get_prop_set_prop_eq (k : string) (v : json) (props : list (string * json)) :
  get_prop k (set_prop k v props) = Some v.
Proof.
  induction props as [|[k' x] rest IH]; simpl.
  - now rewrite String.eqb_refl.
  - destruct (String.eqb k' k) eqn:Hk; simpl; rewrite Hk; [reflexivity | exact IH].
Qed.

Lemma get_prop_set_prop_ne (k k' : string) (v : json) (props : list (string * json)) :
  k <> k' -> get_prop k (set_prop k' v props) = get_prop k props.
Proof.
  intros Hne. induction props as [|[k0 x] rest IH]; simpl.
  - destruct (String.eqb_spec k' k); [congruence | reflexivity].
  - destruct (String.eqb_spec k0 k') as [->|Hk0]; simpl.
    + destruct (String.eqb_spec k' k); [congruence | reflexivity].
    + destruct (String.eqb k0 k); [reflexivity | exact IH].
Qed.

(** [findIndex] returns [-1] when nothing matches, and else the index of
    the first match. *)
Lemma findIndex_spec {A : Type} (pred : A -> bool) (l : list A) :
  (findIndex pred l = -1 /\ Forall (fun x => pred x = false) l)
  \/ (exists i x,
        findIndex pred l = Z.of_nat i /\ l !! i = Some x /\ pred x = true
        /\ forall j y, (j < i)%nat -> l !! j = Some y -> pred y = false).
Proof.
  induction l as [|x l IH]; simpl.
  - left. split; [reflexivity | constructor].
  - destruct (pred x) eqn:Hx.
    + right. exists 0%nat, x. repeat split; auto. intros j y Hj. lia.
    + destruct IH as [[-> Hall] | (i & y & -> & Hy & Hpred & Hfirst)].
      * left. split; [reflexivity | now constructor].
      * right. exists (S i), y.
        destruct (Z.of_nat i =? -1) eqn:Hneg; [lia|].
        split; [lia|]. split; [exact Hy|]. split; [exact Hpred|].
        intros [|j] z Hj Hz; simpl in Hz; [congruence|].
        apply (Hfirst j z); [lia | exact Hz].
Qed.

Lemma map_alter_same {A B : Type} (h : A -> B) (f : A -> A) (i : nat) (l : list A) :
  (forall x, h (f x) = h x) -> map h (alter f i l) = map h l.
Proof.
  intros Hsame. revert i. induction l as [|x l IH]; intros [|i]; simpl; try reflexivity.
  - now rewrite Hsame.
  - f_equal. apply IH.
Qed.

(** Property X11.
    [updateRecipe] edits one playlist and nothing else: the ids, the
    types, the order and the meta data of the page are kept; a playlist
    with another id is left as it is, and a page without the playlist is
    not changed at all; in the first playlist that has the id, [title],
    [description] and [tagIds] take the values of the mutation body and
    every other attribute keeps its value. *)
Theorem updateRecipe_edits_in_place (playlistId : string) (body : UpdatePlaylistArgs)
    (state : PlaylistsResponse) :
  let state' := updateRecipe playlistId body state in
  map id (data state') = map id (data state)
  /\ map type_ (data state') = map type_ (data state)
  /\ meta state' = meta state
  /\ (Forall (fun playlist => id playlist <> playlistId) (data state) -> state' = state)
  /\ (forall i playlist,
        data state !! i = Some playlist -> id playlist <> playlistId ->
        data state' !! i = Some playlist)
  /\ (forall i playlist,
        data state !! i = Some playlist -> id playlist = playlistId ->
        (forall j earlier,
            (j < i)%nat -> data state !! j = Some earlier -> id earlier <> playlistId) ->
        exists updated,
          data state' !! i = Some updated
          /\ get_prop "title" (attributes updated) = Some (JStr (title body))
          /\ get_prop "description" (attributes updated) = Some (JStr (description body))
          /\ get_prop "tagIds" (attributes updated) = Some (JArr (map JStr (tagIds body)))
          /\ forall k,
               k <> "title" -> k <> "description" -> k <> "tagIds" ->
               get_prop k (attributes updated) = get_prop k (attributes playlist)).
Proof.
  intros state'. subst state'. unfold updateRecipe.
  set (pred := fun playlist : PlaylistData => String.eqb (id playlist) playlistId).
  destruct (findIndex_spec pred (data state))
    as [[-> Hnone] | (i0 & found & -> & Hfound & Hpred & Hfirst)].
  - simpl. repeat split; auto.
    intros i playlist Hi Hid _. rewrite Forall_forall in Hnone.
    specialize (Hnone playlist (list_elem_of_lookup_2 _ _ _ Hi)).
    unfold pred in Hnone. apply String.eqb_neq in Hnone. contradiction.
  - destruct (Z.of_nat i0 =? -1) eqn:Hneg; [apply Z.eqb_eq in Hneg; lia|].
    simpl. rewrite Nat2Z.id.
    assert (id found = playlistId) as Hfound_id by (now apply String.eqb_eq).
    split; [now apply map_alter_same|]. split; [now apply map_alter_same|].
    split; [reflexivity|]. split.
    { intros Hall. rewrite Forall_forall in Hall.
      now specialize (Hall found (list_elem_of_lookup_2 _ _ _ Hfound)). }
    split.
    { intros i playlist Hi Hid. rewrite list_lookup_alter_ne; [exact Hi|].
      intros <-. congruence. }
    intros i playlist Hi Hid Hearlier.
    assert (i = i0) as ->.
    { destruct (lt_eq_lt_dec i i0) as [[Hlt | Heq] | Hgt]; [|exact Heq|].
      - specialize (Hfirst i playlist Hlt Hi). unfold pred in Hfirst.
        apply String.eqb_neq in Hfirst. contradiction.
      - now specialize (Hearlier i0 found Hgt Hfound). }
    assert (playlist = found) as -> by congruence.
    rewrite list_lookup_alter_eq, Hfound. simpl. eexists. split; [reflexivity|]. simpl.
    unfold spread, body_props. simpl.
    split; [|split; [|split]].
    + rewrite !get_prop_set_prop_ne by discriminate. apply get_prop_set_prop_eq.
    + rewrite get_prop_set_prop_ne by discriminate. apply get_prop_set_prop_eq.
    + apply get_prop_set_prop_eq.
    + intros k Htitle Hdescription Htags. now rewrite !get_prop_set_prop_ne by assumption.
Qed.

(** Property X12.
    The second version of [onQueryStarted] never touches a cached query
    whose argument has a sort order, a tag, user or track filter: the loop
    patches, and undoes, only arguments made of [pageNumber], [pageSize]
    and [search], so such an entry is the same after the mutation, fulfilled
    or not. *)
Theorem onQueryStarted_skips_filtered_queries (playlistId : string) (body : UpdatePlaylistArgs)
    (fulfilled : bool) (cache : gmap FetchPlaylistsArgs PlaylistsResponse)
    (arg : FetchPlaylistsArgs) :
  patch_arg arg <> arg ->
  onQueryStarted playlistId body fulfilled cache !! arg = cache !! arg.
Proof.
  intros Hfiltered. unfold onQueryStarted.
  assert (arg ∉ map patch_arg (selectCachedArgsForQuery cache)) as Hout.
  { intros (other & -> & _)%list_elem_of_fmap. now apply Hfiltered. }
  pose proof (patch_all_other playlistId body _ cache arg Hout) as Hpatched.
  pose proof (patch_all_keys playlistId body (selectCachedArgsForQuery cache) cache) as Hkeys.
  destruct (patch_all playlistId body (selectCachedArgsForQuery cache) cache)
    as [cache1 patchResults]. simpl in *.
  destruct fulfilled; [exact Hpatched|].
  rewrite undo_all_other; [exact Hpatched|]. now rewrite Hkeys.
Qed.

Lemma onQueryStarted_skips_filtered_queries_witness :
  let mine := {| pageNumber := Some 1; pageSize := Some 2; search := None;
                 sortBy := None; sortDirection := None; tagsIds := None;
                 userId := Some "u1"; trackId := None |} in
  let page := {| data := [{| id := "p1"; type_ := "playlists";
                              attributes := [("title", JStr "Old")] |}];
                 meta := JNull |} in
  patch_arg mine <> mine
  /\ onQueryStarted "p1" {| title := "New"; description := "d"; tagIds := [] |} true
       {[mine := page]} !! mine
     = Some page.
Proof.
  intros mine page.
  assert (patch_arg mine <> mine) as Hfiltered by discriminate.
  split; [exact Hfiltered|].
  rewrite (onQueryStarted_skips_filtered_queries "p1" _ true {[mine := page]} mine Hfiltered).
  apply lookup_singleton_eq.
Defined.

(** Property X13.
    When no two cached arguments agree on [pageNumber], [pageSize] and
    [search], the second version of [onQueryStarted] settles every page as
    intended: once the request is fulfilled, each entry under such an
    argument holds the cached page with the recipe applied exactly once,
    and when the request fails the whole cache is as it was. *)
Theorem onQueryStarted_settles (playlistId : string) (body : UpdatePlaylistArgs)
    (cache : gmap FetchPlaylistsArgs PlaylistsResponse) :
  NoDup (map patch_arg (selectCachedArgsForQuery cache)) ->
  (forall arg,
      patch_arg arg = arg ->
      onQueryStarted playlistId body true cache !! arg
      = updateRecipe playlistId body <$> cache !! arg)
  /\ onQueryStarted playlistId body false cache = cache.
Proof.
  intros Hdistinct. split; [|now apply onQueryStarted_rollback].
  intros arg Hplain. unfold onQueryStarted.
  pose proof (patch_all_lookup playlistId body _ cache arg Hdistinct) as Hpatched.
  destruct (patch_all playlistId body (selectCachedArgsForQuery cache) cache)
    as [cache1 patchResults]. simpl in *.
  rewrite Hpatched. case_decide as Hin; [reflexivity|].
  destruct (cache !! arg) as [entry|] eqn:Hentry; [|reflexivity].
  exfalso. apply Hin. apply list_elem_of_fmap. exists arg. split; [now rewrite Hplain|].
  unfold selectCachedArgsForQuery. apply list_elem_of_fmap. exists (arg, entry).
  split; [reflexivity|]. now apply elem_of_map_to_list.
Qed.

Lemma onQueryStarted_settles_witness :
  let page := {| data := [{| id := "p1"; type_ := "playlists";
                              attributes := [("title", JStr "Old")] |}];
                 meta := JNull |} in
  let body := {| title := "New"; description := "d"; tagIds := [] |} in
  NoDup (map patch_arg (selectCachedArgsForQuery {[first_page := page]}))
  /\ onQueryStarted "p1" body true {[first_page := page]} !! first_page
     = Some (updateRecipe "p1" body page)
  /\ onQueryStarted "p1" body false {[first_page := page]} = {[first_page := page]}.
Proof.
  intros page body.
  assert (NoDup (map patch_arg (selectCachedArgsForQuery {[first_page := page]}))) as Hdistinct.
  { unfold selectCachedArgsForQuery. rewrite map_to_list_singleton. simpl.
    apply NoDup_singleton. }
  split; [exact Hdistinct|].
  destruct (onQueryStarted_settles "p1" body {[first_page := page]} Hdistinct)
    as [Hfulfilled Hfailed].
  split; [|exact Hfailed].
  rewrite (Hfulfilled first_page eq_refl). now rewrite lookup_singleton_eq.
Defined.

(** ** Pagination *)

(** Up to [2^53] in size an integer is a double. *)
Lemma round_exact (n : Z) : - 2 ^ 53 <= n <= 2 ^ 53 -> Number.round n = n.
Proof.
  intros Hn. unfold Number.round.
  destruct (Z.abs n <=? 2 ^ 53) eqn:Hle; [reflexivity | lia].
Qed.

Lemma isSafeInteger_spec (n : Z) :
  Number.isSafeInteger n = true <-> - (2 ^ 53 - 1) <= n <= 2 ^ 53 - 1.
Proof. unfold Number.isSafeInteger, Number.MAX_SAFE_INTEGER. lia. Qed.

(** Next to a safe integer the sum and the difference with 1 are exact. *)
Lemma add_1_exact (n : Z) : - 2 ^ 53 - 1 <= n <= 2 ^ 53 - 1 -> Number.add n 1 = n + 1.
Proof. intros Hn. apply round_exact. lia. Qed.

Lemma sub_1_exact (n : Z) : - (2 ^ 53 - 1) <= n <= 2 ^ 53 + 1 -> Number.sub n 1 = n - 1.
Proof. intros Hn. apply round_exact. lia. Qed.

(** From [2^53] on, [page++] leaves [page] as it is. *)
Lemma add_1_stuck : Number.add (2 ^ 53) 1 = 2 ^ 53.
Proof. reflexivity. Qed.

Lemma page_range_elem (from to : Z) (item : Pagination.PageItem) :
  item ∈ page_range from to
  <-> exists n, item = Pagination.Page n /\ from <= n <= to.
Proof.
  unfold page_range. rewrite list_elem_of_fmap. split.
  - intros (i & -> & Hi). apply elem_of_seq in Hi. exists (from + Z.of_nat i). split; [reflexivity|lia].
  - intros (n & -> & Hn). exists (Z.to_nat (n - from)). split; [f_equal; lia|].
    apply elem_of_seq. lia.
Qed.

Lemma page_range_nil (from to : Z) : to < from -> page_range from to = [].
Proof. intros Hlt. unfold page_range. now replace (Z.to_nat (to - from + 1)) with 0%nat by lia. Qed.

Lemma page_range_cons (from to : Z) :
  from <= to -> page_range from to = Pagination.Page from :: page_range (from + 1) to.
Proof.
  intros Hle. unfold page_range.
  replace (Z.to_nat (to - from + 1)) with (S (Z.to_nat (to - (from + 1) + 1))) by lia.
  cbn [seq map]. f_equal; [f_equal; lia|].
  rewrite <- seq_shift, map_map. apply map_ext. intros i. f_equal. lia.
Qed.

(** The loop: with safe page numbers it pushes the pages from [page] to
    [to], in as many rounds. *)
Lemma push_range_exact (rounds : nat) (page to : Z) (pages : list Pagination.PageItem) :
  - 2 ^ 53 <= page -> to <= 2 ^ 53 - 1 -> (Z.to_nat (to - page + 1) <= rounds)%nat ->
  Pagination.push_range rounds page to pages = Some (pages ++ page_range page to)%list.
Proof.
  revert page pages. induction rounds as [|rounds IH]; intros page pages Hlow Hhigh Hrounds;
    cbn [Pagination.push_range].
  - destruct (page <=? to) eqn:Hle; [lia|]. rewrite page_range_nil by lia.
    now rewrite app_nil_r.
  - destruct (page <=? to) eqn:Hle.
    + rewrite add_1_exact by lia. rewrite IH by lia.
      rewrite (page_range_cons page to) by lia. now rewrite <- app_assoc.
    + rewrite page_range_nil by lia. now rewrite app_nil_r.
Qed.

(** From [2^53] on the loop never ends. *)
Lemma push_range_stuck (rounds : nat) (pages : list Pagination.PageItem) :
  Pagination.push_range rounds (2 ^ 53) (2 ^ 53) pages = None.
Proof.
  revert pages. induction rounds as [|rounds IH]; intros pages; [reflexivity|].
  cbn [Pagination.push_range]. rewrite add_1_stuck. replace (2 ^ 53 <=? 2 ^ 53) with true by reflexivity.
  apply IH.
Qed.

(** With safe page numbers three rounds are enough, and the page list is
    the one in closed form. *)
Lemma getPaginationPages_safe (rounds : nat) (currentPage pagesCount : Z) :
  Number.isSafeInteger currentPage = true -> Number.isSafeInteger pagesCount = true ->
  (3 <= rounds)%nat -> 1 < pagesCount ->
  Pagination.getPaginationPages rounds currentPage pagesCount
  = Some (page_list currentPage pagesCount).
Proof.
  intros Hcurrent%isSafeInteger_spec Hcount%isSafeInteger_spec Hrounds Hmany.
  unfold Pagination.getPaginationPages, Pagination.SIBLING_COUNT, page_list.
  destruct (pagesCount <=? 1) eqn:Hle; [lia|].
  destruct (pagesCount >? 1) eqn:Hgt; [|lia].
  rewrite !sub_1_exact, add_1_exact by lia.
  rewrite push_range_exact by lia.
  destruct (Z.max 2 (currentPage - 1) >? 2), (Z.min (pagesCount - 1) (currentPage + 1) <? pagesCount - 1);
    simpl; rewrite <- ?app_assoc; reflexivity.
Qed.

Lemma page_numbers_app (l1 l2 : list Pagination.PageItem) :
  Pagination.page_numbers (l1 ++ l2)
  = (Pagination.page_numbers l1 ++ Pagination.page_numbers l2)%list.
Proof. apply omap_app. Qed.

Lemma page_numbers_page_range (from to : Z) :
  Pagination.page_numbers (page_range from to)
  = map (fun i => from + Z.of_nat i) (seq 0 (Z.to_nat (to - from + 1))).
Proof.
  unfold page_range, Pagination.page_numbers.
  induction (seq 0 (Z.to_nat (to - from + 1))) as [|i l IH]; simpl; [reflexivity|].
  f_equal. exact IH.
Qed.

Lemma increasing_cons (a : Z) (l : list Z) :
  (forall b, b ∈ l -> a < b) -> increasing l -> increasing (a :: l).
Proof.
  intros Hhead Htail [|i] [|j] x y Hij Hx Hy; simpl in *; try lia.
  - injection Hx as <-. apply Hhead. eapply list_elem_of_lookup_2; eauto.
  - apply (Htail i j); auto; lia.
Qed.

Lemma increasing_snoc (l : list Z) (b : Z) :
  (forall a, a ∈ l -> a < b) -> increasing l -> increasing (l ++ [b]).
Proof.
  intros Hlast Hinit i j x y Hij Hx Hy.
  apply lookup_snoc_Some in Hx as [[Hi Hx] | [Hi _]];
    apply lookup_snoc_Some in Hy as [[Hj Hy] | [Hj <-]]; try lia.
  - apply (Hinit i j); auto.
  - apply Hlast. eapply list_elem_of_lookup_2; eauto.
Qed.

Lemma increasing_range (from : Z) (len : nat) :
  increasing (map (fun i => from + Z.of_nat i) (seq 0 len)).
Proof.
  intros i j x y Hij Hx Hy.
  apply list_lookup_fmap_Some in Hx as (i' & -> & Hi).
  apply list_lookup_fmap_Some in Hy as (j' & -> & Hj).
  apply lookup_seq in Hi as [-> _]. apply lookup_seq in Hj as [-> _]. lia.
Qed.

(** The entries of the page list, one by one. *)
Lemma page_list_elem (currentPage pagesCount : Z) (item : Pagination.PageItem) :
  item ∈ page_list currentPage pagesCount
  <-> item = Pagination.Page 1
      \/ (item = Pagination.Ellipsis /\ 3 < currentPage)
      \/ (exists n, item = Pagination.Page n
                    /\ 2 <= n <= pagesCount - 1 /\ currentPage - 1 <= n <= currentPage + 1)
      \/ (item = Pagination.Ellipsis /\ currentPage + 1 < pagesCount - 1)
      \/ item = Pagination.Page pagesCount.
Proof.
  unfold page_list.
  rewrite !elem_of_app, page_range_elem, !list_elem_of_singleton.
  destruct (Z.max 2 (currentPage - 1) >? 2) eqn:Hleft;
    destruct (Z.min (pagesCount - 1) (currentPage + 1) <? pagesCount - 1) eqn:Hright;
    rewrite ?list_elem_of_singleton, ?elem_of_nil;
    (split;
     [intros [H | [H | [(n & H & Hn) | [H | H]]]]
     |intros [H | [[H Hcur] | [(n & H & Hn) | [[H Hcur] | H]]]]]);
    subst; try tauto; try lia;
    try (right; right; left; exists n; split; [reflexivity | lia]);
    try (right; left; split; [reflexivity | lia]);
    try (right; right; right; left; split; [reflexivity | lia]).
Qed.

Lemma page_list_shows (currentPage pagesCount n : Z) :
  1 < pagesCount ->
  Pagination.Page n ∈ page_list currentPage pagesCount
  <-> n = 1 \/ n = pagesCount
      \/ (1 <= n <= pagesCount /\ currentPage - 1 <= n <= currentPage + 1).
Proof.
  intros Hmany. rewrite page_list_elem. split.
  - intros [H | [[H _] | [(m & H & Hm) | [[H _] | H]]]];
      try discriminate; injection H as ->; lia.
  - intros [-> | [-> | [Hrange Hnear]]]; [auto | auto 10 |].
    destruct (decide (n = 1)) as [->|H1]; [auto|].
    destruct (decide (n = pagesCount)) as [->|Hn]; [auto 10|].
    right. right. left. exists n. split; [reflexivity | lia].
Qed.

(** Property X14.
    Which pages [getPaginationPages] shows: none when there is at most
    one page; otherwise, for page numbers that are safe integers, it
    returns within three rounds of its loop, and the list holds exactly
    the first page, the last page, and the current page with its two
    neighbours as far as they lie strictly between the two.  Beyond the
    safe integers the loop need not end: for the current page [2^53] of
    [2^53 + 2] pages it never does. *)
Theorem getPaginationPages_shows (rounds : nat) (currentPage pagesCount : Z) :
  (pagesCount <= 1 -> Pagination.getPaginationPages rounds currentPage pagesCount = Some [])
  /\ (Number.isSafeInteger currentPage = true -> Number.isSafeInteger pagesCount = true ->
      (3 <= rounds)%nat -> 1 < pagesCount ->
      exists pages,
        Pagination.getPaginationPages rounds currentPage pagesCount = Some pages
        /\ forall n,
             Pagination.Page n ∈ pages
             <-> n = 1 \/ n = pagesCount
                 \/ (1 <= n <= pagesCount /\ currentPage - 1 <= n <= currentPage + 1))
  /\ Pagination.getPaginationPages rounds (2 ^ 53) (2 ^ 53 + 2) = None.
Proof.
  split; [|split].
  - intros Hone. unfold Pagination.getPaginationPages.
    destruct (pagesCount <=? 1) eqn:Hle; [reflexivity | lia].
  - intros Hcurrent Hcount Hrounds Hmany. exists (page_list currentPage pagesCount).
    split; [now apply getPaginationPages_safe|].
    intros n. now apply page_list_shows.
  - unfold Pagination.getPaginationPages, Pagination.SIBLING_COUNT.
    replace (2 ^ 53 + 2 <=? 1) with false by reflexivity.
    replace (Number.sub (2 ^ 53) 1) with (2 ^ 53 - 1) by reflexivity.
    replace (Number.sub (2 ^ 53 + 2) 1) with (2 ^ 53) by reflexivity.
    rewrite add_1_stuck.
    replace (Z.max 2 (2 ^ 53 - 1)) with (2 ^ 53 - 1) by reflexivity.
    replace (Z.min (2 ^ 53) (2 ^ 53)) with (2 ^ 53) by reflexivity.
    destruct rounds as [|rounds]; [reflexivity|].
    cbn [Pagination.push_range].
    replace (2 ^ 53 - 1 <=? 2 ^ 53) with true by reflexivity.
    replace (Number.add (2 ^ 53 - 1) 1) with (2 ^ 53) by reflexivity.
    now rewrite push_range_stuck.
Qed.

Lemma getPaginationPages_shows_witness :
  Number.isSafeInteger 4 = true /\ Number.isSafeInteger 10 = true
  /\ exists pages,
       Pagination.getPaginationPages 3 4 10 = Some pages
       /\ Pagination.Page 5 ∈ pages /\ Pagination.Page 6 ∉ pages.
Proof.
  split; [reflexivity|]. split; [reflexivity|].
  destruct (getPaginationPages_shows 3 4 10) as (_ & Hshows & _).
  destruct (Hshows eq_refl eq_refl ltac:(lia) ltac:(lia)) as (pages & Hpages & Hin).
  exists pages. split; [exact Hpages|]. split.
  - apply (Hin 5). right. right. lia.
  - intros H6. apply (Hin 6) in H6. lia.
Defined.

(** Property X15.
    For page numbers that are safe integers, the page list reads from
    left to right: it starts with page 1 and ends with the last page, its
    page numbers are strictly increasing (so no page button appears
    twice), and it never has more than seven entries, however many pages
    there are. *)
Theorem getPaginationPages_ordered (rounds : nat) (currentPage pagesCount : Z) :
  Number.isSafeInteger currentPage = true -> Number.isSafeInteger pagesCount = true ->
  (3 <= rounds)%nat -> 1 < pagesCount ->
  exists pages,
    Pagination.getPaginationPages rounds currentPage pagesCount = Some pages
    /\ head pages = Some (Pagination.Page 1)
    /\ last pages = Some (Pagination.Page pagesCount)
    /\ increasing (Pagination.page_numbers pages)
    /\ (length pages <= 7)%nat.
Proof.
  intros Hcurrent Hcount Hrounds Hmany. exists (page_list currentPage pagesCount).
  split; [now apply getPaginationPages_safe|].
  unfold page_list.
  set (leftSibling := Z.max 2 (currentPage - 1)).
  set (rightSibling := Z.min (pagesCount - 1) (currentPage + 1)).
  split; [reflexivity|]. split.
  { rewrite !app_assoc. apply last_snoc. }
  split.
  - rewrite !app_assoc. rewrite page_numbers_app. apply increasing_snoc.
    + intros a Ha. apply list_elem_of_omap in Ha as (item & Hitem & Hpage).
      destruct item as [n|]; [|discriminate]. injection Hpage as ->.
      rewrite !elem_of_app, page_range_elem in Hitem.
      destruct Hitem as [[[Hitem | Hitem] | (n & Hitem & Hn)] | Hitem].
      * apply list_elem_of_singleton in Hitem. injection Hitem as ->. lia.
      * destruct (leftSibling >? 2);
          [apply list_elem_of_singleton in Hitem; discriminate | now apply elem_of_nil in Hitem].
      * injection Hitem as ->. lia.
      * destruct (rightSibling <? pagesCount - 1);
          [apply list_elem_of_singleton in Hitem; discriminate | now apply elem_of_nil in Hitem].
    + rewrite <- !app_assoc, !page_numbers_app, page_numbers_page_range.
      assert (forall b : bool,
                Pagination.page_numbers (if b then [Pagination.Ellipsis] else []) = []) as Hdots
        by (intros []; reflexivity).
      rewrite !Hdots, app_nil_r. simpl. apply increasing_cons; [|apply increasing_range].
      intros b Hb. apply list_elem_of_fmap in Hb as (i & -> & _). lia.
  - rewrite !length_app. unfold page_range. rewrite length_map, length_seq.
    destruct (leftSibling >? 2), (rightSibling <? pagesCount - 1); simpl; lia.
Qed.

Lemma getPaginationPages_ordered_witness :
  Number.isSafeInteger 5 = true /\ Number.isSafeInteger 10 = true
  /\ exists pages,
       Pagination.getPaginationPages 3 5 10 = Some pages
       /\ head pages = Some (Pagination.Page 1)
       /\ (length pages <= 7)%nat.
Proof.
  split; [reflexivity|]. split; [reflexivity|].
  destruct (getPaginationPages_ordered 3 5 10 eq_refl eq_refl ltac:(lia) ltac:(lia))
    as (pages & Hpages & Hhead & _ & _ & Hlength).
  exists pages. auto.
Defined.

(** Property X16.
    For page numbers that are safe integers, with the current page among
    the pages, an ellipsis is shown exactly when some page is missing from
    the list: the marker never stands where nothing is left out, and no
    page is left out without a marker. *)
Theorem getPaginationPages_ellipsis (rounds : nat) (currentPage pagesCount : Z) :
  Number.isSafeInteger currentPage = true -> Number.isSafeInteger pagesCount = true ->
  (3 <= rounds)%nat -> 1 < pagesCount ->
  1 <= currentPage <= pagesCount ->
  exists pages,
    Pagination.getPaginationPages rounds currentPage pagesCount = Some pages
    /\ (Pagination.Ellipsis ∈ pages
        <-> exists n, 1 <= n <= pagesCount /\ Pagination.Page n ∉ pages).
Proof.
  intros Hsafe_current Hsafe_count Hrounds Hmany Hcurrent.
  exists (page_list currentPage pagesCount).
  split; [now apply getPaginationPages_safe|].
  rewrite page_list_elem. split.
  - intros [H | [[_ Hleft] | [(n & H & _) | [[_ Hright] | H]]]]; try discriminate.
    + exists 2. split; [lia|]. rewrite page_list_elem.
      intros [H | [[H _] | [(m & H & Hm) | [[H _] | H]]]];
        try discriminate; injection H as ?; lia.
    + exists (pagesCount - 1). split; [lia|]. rewrite page_list_elem.
      intros [H | [[H _] | [(m & H & Hm) | [[H _] | H]]]];
        try discriminate; injection H as ?; lia.
  - intros (n & Hn & Hhidden). rewrite page_list_elem in Hhidden.
    destruct (decide (3 < currentPage)) as [Hleft|Hleft]; [auto|].
    destruct (decide (currentPage + 1 < pagesCount - 1)) as [Hright|Hright]; [auto 10|].
    exfalso. apply Hhidden.
    destruct (decide (n = 1)) as [->|H1]; [auto|].
    destruct (decide (n = pagesCount)) as [->|Hlast]; [auto 10|].
    right. right. left. exists n. split; [reflexivity | lia].
Qed.

Lemma getPaginationPages_ellipsis_witness :
  Number.isSafeInteger 5 = true /\ Number.isSafeInteger 10 = true /\ 1 <= 5 <= 10
  /\ exists pages,
       Pagination.getPaginationPages 3 5 10 = Some pages
       /\ Pagination.Ellipsis ∈ pages.
Proof.
  assert (1 <= 5 <= 10) as Hcurrent by lia.
  split; [reflexivity|]. split; [reflexivity|]. split; [exact Hcurrent|].
  destruct (getPaginationPages_ellipsis 3 5 10 eq_refl eq_refl ltac:(lia) ltac:(lia) Hcurrent)
    as (pages & Hpages & Hdots).
  exists pages. split; [exact Hpages|]. apply Hdots.
  exists 2. split; [lia|].
  assert (Pagination.getPaginationPages 3 5 10 = Some (page_list 5 10)) as Hclosed
    by (vm_compute; reflexivity).
  rewrite Hclosed in Hpages. injection Hpages as <-.
  vm_compute. intros Hin.
  repeat (apply elem_of_cons in Hin as [Hin|Hin]; [discriminate|]).
  now apply elem_of_nil in Hin.
Defined.

(** Property X17.
    What the rendered buttons do: nothing is rendered for a single page;
    otherwise, for page numbers that are safe integers, the component
    renders within three rounds of the loop, a click that reaches
    [setCurrentPage] passes a page between 1 and the last page that is not
    the current one, and the button of the current page is rendered
    disabled. *)
Theorem Pagination_click_stays_in_range (rounds : nat) (currentPage pagesCount : Z) :
  (pagesCount <= 1 ->
   Pagination.Pagination rounds currentPage pagesCount = Some Pagination.Null)
  /\ (Number.isSafeInteger currentPage = true -> Number.isSafeInteger pagesCount = true ->
      (3 <= rounds)%nat -> 1 < pagesCount ->
      exists elements,
        Pagination.Pagination rounds currentPage pagesCount
        = Some (Pagination.Elements elements)
        /\ (forall element page,
              element ∈ elements -> Pagination.onClick currentPage element = Some page ->
              1 <= page <= pagesCount /\ page <> currentPage)
        /\ (1 <= currentPage <= pagesCount ->
            Pagination.Button currentPage true ∈ elements)
        /\ (forall page, Pagination.Button page true ∈ elements -> page = currentPage)).
Proof.
  unfold Pagination.Pagination. split.
  - intros Hone. destruct (pagesCount <=? 1) eqn:Hle; [reflexivity | lia].
  - intros Hsafe_current Hsafe_count Hrounds Hmany.
    destruct (pagesCount <=? 1) eqn:Hle; [lia|].
    rewrite getPaginationPages_safe by assumption.
    eexists. split; [reflexivity|].
    pose proof (fun n => page_list_shows currentPage pagesCount n Hmany) as Hshows.
    split; [|split].
    + intros element page Hin Hclick.
      apply list_elem_of_fmap in Hin as (item & -> & Hitem).
      destruct item as [n|]; simpl in Hclick; [|discriminate].
      destruct (n =? currentPage) eqn:Hn; simpl in Hclick; [discriminate|].
      injection Hclick as <-. apply Hshows in Hitem. lia.
    + intros Hcurrent. apply list_elem_of_fmap. exists (Pagination.Page currentPage).
      split; [now rewrite Z.eqb_refl|].
      apply Hshows. right. right. lia.
    + intros page Hin. apply list_elem_of_fmap in Hin as (item & Hbutton & _).
      destruct item as [n|]; [|discriminate]. injection Hbutton as -> Hn. lia.
Qed.

Lemma Pagination_click_stays_in_range_witness :
  Number.isSafeInteger 5 = true /\ Number.isSafeInteger 10 = true
  /\ exists elements,
       Pagination.Pagination 3 5 10 = Some (Pagination.Elements elements)
       /\ Pagination.Button 5 true ∈ elements.
Proof.
  split; [reflexivity|]. split; [reflexivity|].
  destruct (Pagination_click_stays_in_range 3 5 10) as [_ Hrendered].
  destruct (Hrendered eq_refl eq_refl ltac:(lia) ltac:(lia))
    as (elements & Helements & _ & Hcurrent & _).
  exists elements. split; [exact Helements|]. apply Hcurrent. lia.
Defined.

(** ** The global loading indicator *)

Lemma is_pending_spec (entry : option Loaders.Entry) :
  Loaders.is_pending entry = true
  <-> exists e, entry = Some e /\ Loaders.entry_status e = Loaders.pending.
Proof.
  unfold Loaders.is_pending. destruct entry as [e|].
  - destruct (Loaders.entry_status e) eqn:Hstatus; split;
      try discriminate; try (intros (e' & He & Hs); injection He as <-; congruence); eauto.
  - split; [discriminate | intros (e & He & _); discriminate].
Qed.

Lemma is_pending_shown_spec (entry : option Loaders.Entry) :
  Loaders.is_pending_shown entry = true
  <-> exists e, entry = Some e /\ Loaders.entry_status e = Loaders.pending
                /\ Loaders.endpointName e <> Some "fetchPlaylists".
Proof.
  unfold Loaders.is_pending_shown, Loaders.is_excluded, Loaders.excludedEndpoints.
  destruct entry as [e|]; [|split; [discriminate | intros (e & He & _); discriminate]].
  destruct (Loaders.endpointName e) as [name|] eqn:Hname; simpl.
  - rewrite orb_false_r.
    destruct (Loaders.entry_status e) eqn:Hstatus;
      destruct (String.eqb_spec name "fetchPlaylists") as [Heq|Hne];
      simpl; split;
      try discriminate;
      try (intros (e' & He & Hs & Hn); injection He as <-; congruence);
      intros _; exists e; rewrite Hname; repeat split; congruence.
  - destruct (Loaders.entry_status e) eqn:Hstatus; simpl; split;
      try discriminate;
      try (intros (e' & He & Hs & Hn); injection He as <-; congruence);
      intros _; exists e; rewrite Hname; repeat split; congruence.
Qed.

Lemma existsb_elem {A : Type} (pred : A -> bool) (l : list A) :
  existsb pred l = true <-> exists x, x ∈ l /\ pred x = true.
Proof.
  rewrite existsb_exists. split; intros (x & Hin & Hpred); exists x; split; auto;
    now apply list_elem_of_In.
Qed.

(** Property X18.
    The global indicator with its endpoint exceptions: it is on exactly
    when some query or mutation other than [fetchPlaylists] is pending,
    where the first version is on for any pending request; so excluding
    can only turn the indicator off, never on. *)
Theorem useGlobalLoading_excluding_fetchPlaylists (state : Loaders.ApiSlice) :
  (Loaders.useGlobalLoading state = true
   <-> exists e, Some e ∈ entries state /\ Loaders.entry_status e = Loaders.pending)
  /\ (Loaders.useGlobalLoading_excluding state = true
      <-> exists e, Some e ∈ entries state /\ Loaders.entry_status e = Loaders.pending
                    /\ Loaders.endpointName e <> Some "fetchPlaylists")
  /\ (Loaders.useGlobalLoading_excluding state = true -> Loaders.useGlobalLoading state = true).
Proof.
  assert (Loaders.useGlobalLoading state = true
          <-> exists e, Some e ∈ entries state /\ Loaders.entry_status e = Loaders.pending)
    as Hplain.
  { unfold Loaders.useGlobalLoading, entries. rewrite <- existsb_app, existsb_elem. split.
    - intros (entry & Hin & (e & -> & Hstatus)%is_pending_spec). eauto.
    - intros (e & Hin & Hstatus). exists (Some e). split; [exact Hin|].
      apply is_pending_spec. eauto. }
  assert (Loaders.useGlobalLoading_excluding state = true
          <-> exists e, Some e ∈ entries state /\ Loaders.entry_status e = Loaders.pending
                        /\ Loaders.endpointName e <> Some "fetchPlaylists") as Hexcluding.
  { unfold Loaders.useGlobalLoading_excluding, entries. rewrite <- existsb_app, existsb_elem.
    split.
    - intros (entry & Hin & (e & -> & Hstatus)%is_pending_shown_spec). eauto.
    - intros (e & Hin & Hstatus). exists (Some e). split; [exact Hin|].
      apply is_pending_shown_spec. eauto. }
  split; [exact Hplain|]. split; [exact Hexcluding|].
  intros (e & Hin & Hstatus & _)%Hexcluding. apply Hplain. eauto.
Qed.

(** ** Uploading a cover *)

Lemma is_allowed_spec (file : Images.File) :
  Images.is_allowed file = true <-> Images.type_ file ∈ Images.allowedTypes.
Proof.
  unfold Images.is_allowed. rewrite existsb_elem. split.
  - intros (t & Hin & Heq). apply String.eqb_eq in Heq. now rewrite Heq.
  - intros Hin. exists (Images.type_ file). split; [exact Hin | apply String.eqb_refl].
Qed.

(** Property X19.
    [uploadCoverHandler] of [PlaylistItem.tsx] uploads exactly the
    acceptable files: the first chosen file is uploaded when its type is
    JPEG, PNG or GIF and it is no larger than 1 MiB, and then nothing else
    happens; any other file gets one alert and no upload, and without a
    file nothing happens at all. *)
Theorem uploadCoverHandler_uploads_acceptable (playlistId : string)
    (files : option (list Images.File)) :
  match Images.chosen_file files with
  | None => Images.PlaylistItem.uploadCoverHandler playlistId files = []
  | Some file =>
      (acceptable file ->
       Images.PlaylistItem.uploadCoverHandler playlistId files
       = [Images.UploadCover playlistId file])
      /\ (~ acceptable file ->
          exists message,
            Images.PlaylistItem.uploadCoverHandler playlistId files = [Images.Alert message])
  end.
Proof.
  unfold Images.PlaylistItem.uploadCoverHandler, acceptable.
  destruct (Images.chosen_file files) as [file|]; [|reflexivity].
  pose proof (is_allowed_spec file) as Hallowed.
  destruct (Images.is_allowed file); simpl.
  - destruct (Images.size file >? Images.maxSize) eqn:Hsize; unfold Images.maxSize in Hsize.
    + split; [intros [_ Hsmall]; lia | eauto].
    + split; [reflexivity|]. intros Hbad. exfalso. apply Hbad. split; [now apply Hallowed | lia].
  - split; [|eauto]. intros [Htype _]. apply Hallowed in Htype. discriminate.
Qed.

(** Property X20.
    [uploadCoverHandler] of [PlaylistCover.tsx] uploads every chosen
    file: its checks alert but do not return, so the upload is the last
    effect whatever the type and size of the file; it does the same as the
    handler of [PlaylistItem.tsx] exactly when no file is chosen or the
    file is acceptable. *)
Theorem uploadCoverHandler_always_uploads (playlistId : string)
    (files : option (list Images.File)) :
  (forall file,
      Images.chosen_file files = Some file ->
      last (Images.PlaylistCover.uploadCoverHandler playlistId files)
      = Some (Images.UploadCover playlistId file))
  /\ (Images.PlaylistCover.uploadCoverHandler playlistId files
      = Images.PlaylistItem.uploadCoverHandler playlistId files
      <-> match Images.chosen_file files with
          | None => True
          | Some file => acceptable file
          end).
Proof.
  unfold Images.PlaylistCover.uploadCoverHandler, Images.PlaylistItem.uploadCoverHandler,
    acceptable.
  destruct (Images.chosen_file files) as [file|]; [|split; [discriminate | tauto]].
  pose proof (is_allowed_spec file) as Hallowed.
  split.
  - intros ? [= <-]. rewrite !app_assoc. apply last_snoc.
  - destruct (Images.is_allowed file); simpl;
      destruct (Images.size file >? Images.maxSize) eqn:Hsize; unfold Images.maxSize in Hsize;
      simpl; split; try discriminate; try reflexivity.
    + intros [_ Hsmall]. lia.
    + intros _. split; [now apply Hallowed | lia].
    + intros [Htype _]. apply Hallowed in Htype. discriminate.
    + intros [Htype _]. apply Hallowed in Htype. discriminate.
Qed.

Lemma uploadCoverHandler_always_uploads_witness :
  let huge := {| Images.type_ := "application/pdf"; Images.size := 5000000 |} in
  Images.chosen_file (Some [huge]) = Some huge
  /\ last (Images.PlaylistCover.uploadCoverHandler "p1" (Some [huge]))
     = Some (Images.UploadCover "p1" huge).
Proof.
  intros huge. split; [reflexivity|].
  apply (uploadCoverHandler_always_uploads "p1" (Some [huge])). reflexivity.
Defined.

(** ** Offset pagination of the infinite query *)

Lemma pageParams_from (more : nat) (pagesCount pageParam : Z) :
  - 2 ^ 53 <= pageParam <= pagesCount -> pagesCount <= 2 ^ 53 ->
  Tracks.pageParams more pagesCount pageParam
  = seqZ pageParam (Z.min (Z.of_nat more + 1) (pagesCount - pageParam + 1)).
Proof.
  revert pageParam. induction more as [|more IH]; intros pageParam Hle Hsafe; simpl.
  - rewrite Z.min_l by lia. rewrite seqZ_cons by lia. simpl. now rewrite seqZ_nil by lia.
  - unfold Tracks.getNextPageParam.
    destruct (pageParam <? pagesCount) eqn:Hlt.
    + rewrite add_1_exact by lia.
      rewrite IH by lia. rewrite (seqZ_cons pageParam) by lia. f_equal. f_equal. lia.
    + assert (pageParam = pagesCount) as -> by lia.
      rewrite Z.min_r by lia. rewrite seqZ_cons by lia. simpl. now rewrite seqZ_nil by lia.
Qed.

(** Property X21.
    Loading more tracks walks the pages in order and stops at the last
    one: with [pagesCount >= 1] pages, a safe integer, the first fetch and
    [more] further loads request the pages [1, 2, ...] up to [more + 1] or
    [pagesCount], whichever is smaller; once [pagesCount - 1] loads were
    made every page has been requested exactly once and there is no next
    page.  Beyond the safe integers the walk can stall: after page [2^53]
    of [2^53 + 2] the next page is [2^53] again. *)
Theorem fetchTracks_pages_in_order (more : nat) (pagesCount : Z) :
  (Number.isSafeInteger pagesCount = true -> 1 <= pagesCount ->
   Tracks.pageParams more pagesCount Tracks.initialPageParam
   = seqZ 1 (Z.min (Z.of_nat more + 1) pagesCount)
   /\ (pagesCount - 1 <= Z.of_nat more ->
       Tracks.pageParams more pagesCount Tracks.initialPageParam = seqZ 1 pagesCount))
  /\ Tracks.getNextPageParam pagesCount pagesCount = None
  /\ Tracks.getNextPageParam (2 ^ 53 + 2) (2 ^ 53) = Some (2 ^ 53).
Proof.
  split; [|split].
  - intros Hsafe%isSafeInteger_spec Hpages. unfold Tracks.initialPageParam.
    rewrite pageParams_from by lia. replace (pagesCount - 1 + 1) with pagesCount by lia.
    split; [reflexivity|]. intros Henough. now rewrite Z.min_r by lia.
  - unfold Tracks.getNextPageParam.
    destruct (pagesCount <? pagesCount) eqn:Hlt; [lia | reflexivity].
  - reflexivity.
Qed.

Lemma fetchTracks_pages_in_order_witness :
  Number.isSafeInteger 3 = true /\ 1 <= 3
  /\ Tracks.pageParams 5 3 Tracks.initialPageParam = [1; 2; 3].
Proof.
  split; [reflexivity|]. split; [lia|].
  destruct (fetchTracks_pages_in_order 5 3) as [Hwalk _].
  destruct (Hwalk eq_refl ltac:(lia)) as [_ Hall].
  apply Hall. simpl. lia.
Defined.

(** ** The shared socket *)

Lemma getSocket_again (url : string) (m : Streaming.SocketModule) (s : nat) :
  Streaming.socket m = Some s -> Streaming.getSocket url m = (s, m).
Proof. intros Hsocket. unfold Streaming.getSocket. now rewrite Hsocket. Qed.

Lemma subscribe_each_connected (url : string) (subscriptions : list (string * nat))
    (m : Streaming.SocketModule) (s : nat) :
  Streaming.socket m = Some s ->
  Streaming.subscribe_each url subscriptions m
  = (map (off_call s) subscriptions,
     {| Streaming.socket := Some s;
        Streaming.opened := Streaming.opened m;
        Streaming.log := Streaming.log m ++ map (on_call s) subscriptions |}).
Proof.
  revert m. induction subscriptions as [|[event callback] rest IH]; intros m Hsocket; simpl.
  - rewrite app_nil_r. destruct m; simpl in *. now subst.
  - unfold Streaming.subscribeToEvent. rewrite (getSocket_again url m s Hsocket).
    rewrite IH by exact Hsocket. simpl. rewrite <- app_assoc. reflexivity.
Qed.

(** Property X22.
    However many events are subscribed, they share one connection:
    subscribing to a non-empty list of events does what one [getSocket()]
    does, followed by one [socket.on] per subscription, all on the socket
    that call returned, and hands back the matching [socket.off] closures;
    [io] is called once if no socket existed and not at all otherwise, and
    [getSocket()] keeps returning that socket afterwards. *)
Theorem subscribe_each_shares_socket (url : string) (subscriptions : list (string * nat))
    (m : Streaming.SocketModule) :
  subscriptions <> [] ->
  let s := fst (Streaming.getSocket url m) in
  let m1 := snd (Streaming.getSocket url m) in
  let m2 := snd (Streaming.subscribe_each url subscriptions m) in
  fst (Streaming.subscribe_each url subscriptions m) = map (off_call s) subscriptions
  /\ Streaming.log m2 = (Streaming.log m1 ++ map (on_call s) subscriptions)%list
  /\ Streaming.socket m2 = Some s
  /\ Streaming.opened m2
     = match Streaming.socket m with
       | Some _ => Streaming.opened m
       | None => S (Streaming.opened m)
       end
  /\ (is_Some (Streaming.socket m) -> m1 = m)
  /\ Streaming.getSocket url m2 = (s, m2).
Proof.
  intros Hsome s m1 m2. subst s m1 m2.
  destruct subscriptions as [|[event callback] rest]; [congruence|]. clear Hsome.
  simpl. unfold Streaming.subscribeToEvent.
  assert (Streaming.socket (snd (Streaming.getSocket url m))
          = Some (fst (Streaming.getSocket url m))) as Hsocket.
  { unfold Streaming.getSocket. destruct (Streaming.socket m) eqn:Hm; simpl; auto. }
  assert (Streaming.opened (snd (Streaming.getSocket url m))
          = match Streaming.socket m with
            | Some _ => Streaming.opened m
            | None => S (Streaming.opened m)
            end) as Hopened.
  { unfold Streaming.getSocket. destruct (Streaming.socket m); reflexivity. }
  assert (is_Some (Streaming.socket m) -> snd (Streaming.getSocket url m) = m) as Hsame.
  { intros [s0 Hs0]. now rewrite (getSocket_again url m s0 Hs0). }
  destruct (Streaming.getSocket url m) as [s m1]. simpl in *.
  rewrite (subscribe_each_connected url rest _ s) by exact Hsocket. simpl.
  rewrite <- app_assoc. simpl.
  repeat split; auto.
Qed.

Lemma subscribe_each_shares_socket_witness :
  let fresh := {| Streaming.socket := None; Streaming.opened := 0; Streaming.log := [] |} in
  let both := [("tracks.playlist-created", 1%nat); ("tracks.playlist-updated", 2%nat)] in
  both <> []
  /\ Streaming.opened (snd (Streaming.subscribe_each "wss://musicfun" both fresh)) = 1%nat
  /\ fst (Streaming.subscribe_each "wss://musicfun" both fresh) = map (off_call 0) both.
Proof.
  intros fresh both.
  assert (both <> []) as Hsome by discriminate.
  destruct (subscribe_each_shares_socket "wss://musicfun" both fresh Hsome)
    as (Hoff & _ & _ & Hopened & _).
  split; [exact Hsome|]. split; [exact Hopened | exact Hoff].
Defined.

(** ** The streaming recipes *)

(** Between two multiples: the ceiling of a quotient. *)
Lemma ceiling_unique (m d c : Z) :
  0 < d -> (c - 1) * d < m <= c * d -> - (- m / d) = c.
Proof.
  intros Hd Hm.
  pose proof (Z.div_mod (- m) d ltac:(lia)) as Hdiv.
  pose proof (Z.mod_pos_bound (- m) d Hd) as Hmod. nia.
Qed.

Lemma ceiling_bounds (a b : Z) :
  0 < b -> (- (- a / b) - 1) * b < a <= - (- a / b) * b.
Proof.
  intros Hb.
  pose proof (Z.div_mod (- a) b ltac:(lia)) as Hdiv.
  pose proof (Z.mod_pos_bound (- a) b Hb) as Hmod. nia.
Qed.

(** The mantissa of the nearest double has 53 bits. *)
Lemma nearest_mantissa (a b : Z) :
  0 < a -> 0 < b ->
  let T := Z.log2 b + 53 in
  let shift := Z.log2 (a * 2 ^ T / b) - 52 in
  0 <= shift /\ 2 ^ 52 <= a * 2 ^ T / (b * 2 ^ shift) < 2 ^ 53.
Proof.
  intros Ha Hb T shift.
  pose proof (Z.log2_nonneg b) as Hlb.
  destruct (Z.log2_spec b Hb) as [Hb1 Hb2].
  assert (2 ^ T = 2 ^ Z.succ (Z.log2 b) * 2 ^ 52) as HT.
  { unfold T. rewrite <- Z.pow_add_r by lia. f_equal. lia. }
  assert (0 < 2 ^ T) as HTpos by (apply Z.pow_pos_nonneg; lia).
  assert (2 ^ 52 <= a * 2 ^ T / b) as Ht.
  { apply Z.div_le_lower_bound; [lia|]. nia. }
  assert (0 < a * 2 ^ T / b) as Htpos by lia.
  destruct (Z.log2_spec _ Htpos) as [Ht1 Ht2].
  assert (52 <= Z.log2 (a * 2 ^ T / b)) as Hlt.
  { apply Z.log2_le_pow2; lia. }
  assert (0 <= shift) as Hshift by (unfold shift; lia).
  split; [assumption|].
  assert (0 < 2 ^ shift) as Hspos by (apply Z.pow_pos_nonneg; lia).
  rewrite <- Z.div_div by lia.
  assert (2 ^ Z.log2 (a * 2 ^ T / b) = 2 ^ 52 * 2 ^ shift) as Hlow.
  { rewrite <- Z.pow_add_r by lia. f_equal. unfold shift. lia. }
  assert (2 ^ Z.succ (Z.log2 (a * 2 ^ T / b)) = 2 ^ 53 * 2 ^ shift) as Hhigh.
  { rewrite <- Z.pow_add_r by lia. f_equal. unfold shift. lia. }
  split.
  - apply Z.div_le_lower_bound; lia.
  - apply Z.div_lt_upper_bound; lia.
Qed.

(** Rounding a quotient [a * S / b] of at least [P] to the nearest integer
    keeps it between the multiples of [S] around [a / b], when [a <= 2 * P]. *)
Lemma rounded_between (a b q r S c P : Z) :
  0 < b -> 0 < S -> 0 < P ->
  a * S = b * q + r -> 0 <= r < b ->
  (c - 1) * b < a <= c * b ->
  P <= q -> a <= 2 * P ->
  (c - 1) * S < (if (b <? 2 * r) || ((b =? 2 * r) && Z.odd q) then q + 1 else q)
    <= c * S.
Proof.
  intros Hb HS HP Hdiv Hr Hc Hq Ha.
  assert (q <= c * S) as Hupper.
  { apply (Z.mul_le_mono_pos_l _ _ b); [assumption|]. 
    assert (a * S <= c * b * S) by (apply Z.mul_le_mono_nonneg_r; lia). lia. }
  assert ((c - 1) * S <= q) as Hlower.
  { assert ((c - 1) * b * S < a * S) by (apply Z.mul_lt_mono_pos_r; lia).
    assert (b * ((c - 1) * S) < b * (q + 1)) as Hlt by lia.
    apply Z.mul_lt_mono_pos_l in Hlt; lia. }
  assert (q = c * S -> r = 0) as Htop.
  { intros ->. assert (a * S <= c * b * S) by (apply Z.mul_le_mono_nonneg_r; lia). lia. }
  assert (q = (c - 1) * S -> b < 2 * r) as Hbottom.
  { intros ->.
    assert (r = (a - (c - 1) * b) * S) as -> by lia.
    assert (S <= (a - (c - 1) * b) * S) as HrS.
    { rewrite <- (Z.mul_1_l S) at 1. apply Z.mul_le_mono_nonneg_r; lia. }
    assert (b * P <= b * ((c - 1) * S)) by (apply Z.mul_le_mono_nonneg_l; lia).
    assert ((c - 1) * b * S < a * S) by (apply Z.mul_lt_mono_pos_r; lia).
    assert (a * S <= 2 * P * S) by (apply Z.mul_le_mono_nonneg_r; lia).
    assert (b * P < 2 * S * P) by lia.
    assert (b < 2 * S) as Hlt by (apply (Z.mul_lt_mono_pos_r P); lia).
    lia. }
  destruct (Z.ltb_spec b (2 * r)) as [Hup|Hup];
    [|destruct (Z.eqb_spec b (2 * r)) as [Heq|Hne];
      [destruct (Z.odd q)|]]; cbn [orb andb].
  - split; [lia|]. destruct (Z.eq_dec q (c * S)) as [Hq'|]; [|lia].
    specialize (Htop Hq'). lia.
  - split; [lia|]. destruct (Z.eq_dec q (c * S)) as [Hq'|]; [|lia].
    specialize (Htop Hq'). lia.
  - split; [|lia]. destruct (Z.eq_dec q ((c - 1) * S)) as [Hq'|]; [|lia].
    specialize (Hbottom Hq'). lia.
  - split; [|lia]. destruct (Z.eq_dec q ((c - 1) * S)) as [Hq'|]; [|lia].
    specialize (Hbottom Hq'). lia.
Qed.

(** Up to 2^53 the quotient's double rounds up to the exact ceiling. *)
Lemma ceil_nearest_exact (a b : Z) :
  0 < a <= 2 ^ 53 -> 0 < b ->
  Number.ceil_of (Number.nearest a b) = - (- a / b).
Proof.
  intros Ha Hb.
  destruct (nearest_mantissa a b ltac:(lia) Hb) as [Hshift Hq].
  pose proof (ceiling_bounds a b Hb) as Hc.
  unfold Number.nearest, Number.ceil_of.
  set (T := Z.log2 b + 53) in *.
  set (shift := Z.log2 (a * 2 ^ T / b) - 52) in *.
  set (c := - (- a / b)) in *.
  cbn [fst snd].
  pose proof (Z.log2_nonneg b) as Hlb.
  assert (0 < 2 ^ T) as HTpos by (apply Z.pow_pos_nonneg; lia).
  assert (0 < 2 ^ shift) as Hspos by (apply Z.pow_pos_nonneg; lia).
  assert (2 ^ 53 = 2 * 2 ^ 52) as H53 by reflexivity.
  assert (0 < 2 ^ 52) as H52 by reflexivity.
  rewrite H53 in Ha, Hq.
  set (P := 2 ^ 52) in *. clearbody P. clear H53.
  destruct (Z.leb_spec 0 (shift - T)) as [He|He].
  - (* the double is an integer: the division is exact *)
    assert (2 ^ shift = 2 ^ (shift - T) * 2 ^ T) as Hsplit.
    { rewrite <- Z.pow_add_r by lia. f_equal. lia. }
    assert (0 < 2 ^ (shift - T)) as Hepos by (apply Z.pow_pos_nonneg; lia).
    pose proof (Z.mul_div_le (a * 2 ^ T) (b * 2 ^ shift) ltac:(lia)) as Hle.
    rewrite Hsplit in Hle, Hq |- *.
    set (E := 2 ^ (shift - T)) in *. set (W := 2 ^ T) in *.
    clearbody E W.
    set (q := a * W / (b * (E * W))) in *.
    assert (b * E * q * W <= a * W) as Hle' by lia.
    apply Z.mul_le_mono_pos_r in Hle'; [|assumption].
    assert (1 <= b * E) as Hlow by nia.
    assert (b * E <= 2) as Hhigh.
    { destruct (Z.le_gt_cases (b * E) 2) as [|Hgt]; [assumption|exfalso].
      assert (3 * q <= b * E * q) by (apply Z.mul_le_mono_nonneg_r; lia).
      lia. }
    assert (a * W = q * (b * (E * W)) /\ a = b * E * q) as [Hexact Ha'].
    { destruct (Z.eq_dec (b * E) 1) as [Hone|Hne].
      - assert (b = 1 /\ E = 1) as [-> ->] by (apply Z.eq_mul_1_nonneg; lia).
        subst q. rewrite !Z.mul_1_l. rewrite Z.div_mul by lia. lia.
      - assert (b * E = 2) as Htwo by lia.
        rewrite Htwo in Hle'. assert (a = 2 * q) as Ha' by lia.
        rewrite Htwo. split; [|assumption].
        rewrite (Z.mul_assoc b E W), Htwo. lia. }
    replace ((a * W) mod (b * (E * W))) with 0
      by (symmetry; rewrite Hexact; apply Z.mod_mul; lia).
    replace (b * (E * W) <? 2 * 0) with false by (symmetry; apply Z.ltb_ge; lia).
    replace (b * (E * W) =? 2 * 0) with false by (symmetry; apply Z.eqb_neq; lia).
    cbn [orb andb]. unfold c.
    replace (- a) with (- (E * q) * b) by lia.
    rewrite Z.div_mul by lia. lia.
  - set (s := T - shift) in *.
    assert (0 < s) as Hs by (unfold s; lia).
    assert (2 ^ T = 2 ^ s * 2 ^ shift) as Hsplit.
    { rewrite <- Z.pow_add_r by lia. f_equal. unfold s. lia. }
    assert (0 < 2 ^ s) as Hspos' by (apply Z.pow_pos_nonneg; lia).
    replace (- (shift - T)) with s by (unfold s; lia).
    rewrite Hsplit, Z.mul_assoc in Hq |- *.
    rewrite Z.div_mul_cancel_r in Hq |- * by lia.
    rewrite Z.mul_mod_distr_r by lia.
    pose proof (Z.div_mod (a * 2 ^ s) b ltac:(lia)) as Hdiv.
    pose proof (Z.mod_pos_bound (a * 2 ^ s) b Hb) as Hmod.
    set (q := a * 2 ^ s / b) in *.
    set (r := (a * 2 ^ s) mod b) in *.
    apply ceiling_unique; [assumption|].
    replace (b * 2 ^ shift <? 2 * (r * 2 ^ shift)) with (b <? 2 * r).
    2:{ destruct (Z.ltb_spec b (2 * r)) as [Hlt|Hge]; symmetry.
        - apply Z.ltb_lt. rewrite Z.mul_assoc. apply Z.mul_lt_mono_pos_r; lia.
        - apply Z.ltb_ge. rewrite Z.mul_assoc. apply Z.mul_le_mono_nonneg_r; lia. }
    replace (b * 2 ^ shift =? 2 * (r * 2 ^ shift)) with (b =? 2 * r).
    2:{ destruct (Z.eqb_spec b (2 * r)) as [Heq|Hne]; symmetry.
        - apply Z.eqb_eq. rewrite Heq. lia.
        - apply Z.eqb_neq. rewrite Z.mul_assoc. intros Heq.
          apply Z.mul_reg_r in Heq; lia. }
    apply (rounded_between a b q r (2 ^ s) c P); lia.
Qed.

Lemma ceil_div_exact (a : Z) (b : positive) :
  0 <= a <= 2 ^ 53 -> Number.ceil_div a b = - (- a / Z.pos b).
Proof.
  intros Ha. unfold Number.ceil_div.
  destruct a as [|a|a]; [reflexivity| |lia].
  apply ceil_nearest_exact; lia.
Qed.

Lemma pop_length {A : Type} (l : list A) : length (Streaming.pop l) = Nat.pred (length l).
Proof.
  unfold Streaming.pop. rewrite removelast_firstn_len, length_take. lia.
Qed.

Lemma pop_lookup {A : Type} (l : list A) (i : nat) :
  (S i < length l)%nat -> Streaming.pop l !! i = l !! i.
Proof.
  intros Hi. unfold Streaming.pop. rewrite removelast_firstn_len.
  apply lookup_take_lt. lia.
Qed.

(** Property X23.
    The recipe for a created playlist keeps a full page full: the new
    playlist becomes the first entry, the others move down by one and the
    last one drops off, so a page that was not empty keeps its length (an
    empty page gets its first entry); [page] and [pageSize] stay.  From a
    [totalCount] that is a safe integer, [totalCount] grows by one, and
    when it was not negative the new [pagesCount] is the least number of
    pages of [pageSize] that holds the new [totalCount].  A [totalCount]
    of [2^53] stays [2^53]. *)
Theorem playlistCreated_keeps_page_full (newPlaylist : PlaylistData)
    (state : Streaming.PlaylistsResponse) :
  let state' := Streaming.playlistCreated newPlaylist state in
  let meta' := Streaming.meta state' in
  let size := Z.pos (Streaming.pageSize (Streaming.meta state)) in
  Streaming.data state' !! 0%nat = Some newPlaylist
  /\ length (Streaming.data state') = Nat.max 1 (length (Streaming.data state))
  /\ (forall i,
        (S i < length (Streaming.data state))%nat ->
        Streaming.data state' !! S i = Streaming.data state !! i)
  /\ Streaming.page meta' = Streaming.page (Streaming.meta state)
  /\ Streaming.pageSize meta' = Streaming.pageSize (Streaming.meta state)
  /\ (Number.isSafeInteger (Streaming.totalCount (Streaming.meta state)) = true ->
      Streaming.totalCount meta' = Streaming.totalCount (Streaming.meta state) + 1
      /\ (0 <= Streaming.totalCount (Streaming.meta state) ->
          (Streaming.pagesCount meta' - 1) * size
          < Streaming.totalCount meta'
          <= Streaming.pagesCount meta' * size))
  /\ (Streaming.totalCount (Streaming.meta state) = 2 ^ 53 ->
      Streaming.totalCount meta' = 2 ^ 53).
Proof.
  intros state' meta' size. subst meta' state' size.
  unfold Streaming.playlistCreated. cbn [Streaming.data Streaming.meta
    Streaming.page Streaming.pageSize Streaming.totalCount Streaming.pagesCount].
  split; [reflexivity|]. split; [unfold Streaming.unshift; simpl; rewrite pop_length; lia|].
  split; [intros i Hi; now apply pop_lookup|].
  split; [reflexivity|]. split; [reflexivity|].
  split; [|intros ->; apply add_1_stuck].
  intros Hsafe. apply isSafeInteger_spec in Hsafe.
  rewrite add_1_exact by lia.
  split; [reflexivity|]. intros Hcount.
  rewrite ceil_div_exact by lia.
  apply ceiling_bounds. lia.
Qed.

Lemma playlistCreated_keeps_page_full_witness :
  let fresh := {| id := "p3"; type_ := "playlists"; attributes := [] |} in
  let older := {| id := "p2"; type_ := "playlists"; attributes := [] |} in
  let oldest := {| id := "p1"; type_ := "playlists"; attributes := [] |} in
  let state := {| Streaming.data := [older; oldest];
                  Streaming.meta := {| Streaming.page := JNum "1"; Streaming.pageSize := 2;
                                       Streaming.totalCount := 2;
                                       Streaming.pagesCount := 1 |} |} in
  let state' := Streaming.playlistCreated fresh state in
  Streaming.data state' = [fresh; older]
  /\ Streaming.totalCount (Streaming.meta state') = 3
  /\ Streaming.pagesCount (Streaming.meta state') = 2.
Proof.
  intros fresh older oldest state state'.
  destruct (playlistCreated_keeps_page_full fresh state)
    as (_ & _ & _ & _ & _ & Hcount & _).
  destruct (Hcount eq_refl) as [Htotal Hpages].
  specialize (Hpages ltac:(simpl; lia)).
  split; [reflexivity|]. split; [exact Htotal|].
  fold state' in Htotal, Hpages. rewrite Htotal in Hpages.
  change (Z.pos (Streaming.pageSize (Streaming.meta state))) with 2 in Hpages.
  change (Streaming.totalCount (Streaming.meta state)) with 2 in Hpages.
  remember (Streaming.pagesCount (Streaming.meta state')) as pages. lia.
Defined.

Lemma spread_playlist_new (old newPlaylist : PlaylistData) :
  Streaming.spread_playlist old newPlaylist = newPlaylist.
Proof. now destruct newPlaylist. Qed.

(** Property X24.
    The recipe for an updated playlist replaces it in place: the first
    cached playlist with the id of the update becomes the update, every
    other entry, the order, the ids and the meta data stay, a page that
    does not hold the playlist is not changed, and applying the same
    update a second time changes nothing more. *)
Theorem playlistUpdated_replaces_in_place (newPlaylist : PlaylistData)
    (state : Streaming.PlaylistsResponse) :
  let state' := Streaming.playlistUpdated newPlaylist state in
  map id (Streaming.data state') = map id (Streaming.data state)
  /\ Streaming.meta state' = Streaming.meta state
  /\ (Forall (fun playlist => id playlist <> id newPlaylist) (Streaming.data state) ->
      state' = state)
  /\ (forall i playlist,
        Streaming.data state !! i = Some playlist -> id playlist <> id newPlaylist ->
        Streaming.data state' !! i = Some playlist)
  /\ (forall i playlist,
        Streaming.data state !! i = Some playlist -> id playlist = id newPlaylist ->
        (forall j earlier,
            (j < i)%nat -> Streaming.data state !! j = Some earlier ->
            id earlier <> id newPlaylist) ->
        Streaming.data state' !! i = Some newPlaylist)
  /\ Streaming.playlistUpdated newPlaylist state' = state'.
Proof.
  intros state'. subst state'. unfold Streaming.playlistUpdated.
  set (pred := fun playlist : PlaylistData => String.eqb (id playlist) (id newPlaylist)).
  destruct (findIndex_spec pred (Streaming.data state))
    as [[Hindex Hnone] | (i0 & found & Hindex & Hfound & Hpred & Hfirst)].
  - rewrite Hindex. simpl. rewrite Hindex. simpl. repeat split; auto.
    intros i playlist Hi Hid _. rewrite Forall_forall in Hnone.
    specialize (Hnone playlist (list_elem_of_lookup_2 _ _ _ Hi)).
    unfold pred in Hnone. apply String.eqb_neq in Hnone. contradiction.
  - rewrite Hindex.
    destruct (Z.of_nat i0 =? -1) eqn:Hneg; [apply Z.eqb_eq in Hneg; lia|].
    simpl. rewrite Nat2Z.id.
    assert (id found = id newPlaylist) as Hfound_id by (now apply String.eqb_eq).
    assert (map id (alter (fun old => Streaming.spread_playlist old newPlaylist) i0
                      (Streaming.data state))
            = map id (Streaming.data state)) as Hids.
    { apply list_eq. intros i. rewrite !list_lookup_fmap.
      destruct (decide (i = i0)) as [->|Hne].
      - rewrite list_lookup_alter_eq, Hfound. simpl. now rewrite Hfound_id.
      - now rewrite list_lookup_alter_ne by congruence. }
    split; [exact Hids|]. split; [reflexivity|]. split.
    { intros Hall. rewrite Forall_forall in Hall.
      now specialize (Hall found (list_elem_of_lookup_2 _ _ _ Hfound)). }
    split.
    { intros i playlist Hi Hid. rewrite list_lookup_alter_ne; [exact Hi|].
      intros <-. congruence. }
    split.
    { intros i playlist Hi Hid Hearlier.
      assert (i = i0) as ->.
      { destruct (lt_eq_lt_dec i i0) as [[Hlt | Heq] | Hgt]; [|exact Heq|].
        - specialize (Hfirst i playlist Hlt Hi). unfold pred in Hfirst.
          apply String.eqb_neq in Hfirst. contradiction.
        - now specialize (Hearlier i0 found Hgt Hfound). }
      rewrite list_lookup_alter_eq, Hfound. simpl. now rewrite spread_playlist_new. }
    assert (findIndex pred
              (alter (fun old => Streaming.spread_playlist old newPlaylist) i0
                 (Streaming.data state)) = Z.of_nat i0) as Hagain.
    { rewrite <- Hindex. clear -Hids. revert Hids.
      generalize (alter (fun old => Streaming.spread_playlist old newPlaylist) i0
                    (Streaming.data state)) as l'.
      induction (Streaming.data state) as [|x l IH]; intros [|y l'] Hids;
        simpl in *; try discriminate; [reflexivity|].
      injection Hids as Hhead Htail.
      assert (pred y = pred x) as -> by (unfold pred; now rewrite Hhead).
      now rewrite (IH l' Htail). }
    rewrite Hagain, Hneg. simpl. rewrite Nat2Z.id. f_equal.
    rewrite list_alter_alter_eq. apply list_alter_ext; [|reflexivity].
    intros old _. unfold compose. now rewrite !spread_playlist_new.
Qed.
